(** * RootFishbone: the fishbone document, its layout and its tool interpreter

    A shallow embedding of the document-handling code of [App.tsx]
    (the third part of [src/components/ChatInterface.tsx]), of the constants
    of [constants.ts] and of the types of [types.ts], followed by the
    properties of the specification that were checked against it.

    Conventions of the embedding.
    - JavaScript numbers that the code uses as coordinates are integers
      in every constant of the program; they are modelled by [Z], and
      the sums and differences the layout forms are rounded as those of
      doubles are ([JS.add], [JS.sub]).
    - JavaScript strings are [string]s.  [String.prototype.toLowerCase]
      and [String.prototype.trim] are library code: parameters of the
      model, of which nothing is assumed.
    - A field that may be [undefined] is an [option].
    - [Date.now()], [Math.random()] and [uuidv4()] are read from an
      environment record [Env] that comes with each tool call: one field
      per call site, so that nothing is assumed about two calls returning
      different values.
    - An array is a [list]; [find]/[findIndex] are [list_find] (the
      first match); [arr[i] = v] is [<[i:=v]> arr], and every index the
      program assigns to comes from a [findIndex] that succeeded, so it
      is in range; [push] appends at the end; [splice(i, 1)] is
      [delete i]. *)

From stdpp Require Import base list strings pretty sorting.
From Stdlib Require Import ZArith Lia Ascii.

Local Open Scope Z_scope.

(** ** JavaScript helpers *)

Module JS.

(** [o || d] for a possibly undefined string [o]. *)
Definition or_else (o : option string) (d : string) : string :=
  match o with
  | Some s => if decide (s = "") then d else s
  | None => d
  end.

(** The truthy value of a possibly undefined string, if it has one. *)
Definition truthy_value (o : option string) : option string :=
  match o with
  | Some s => if decide (s = "") then None else Some s
  | None => None
  end.

(** The strings of ASCII characters, and what [toLowerCase] and [trim]
    are on them.  The program is not modelled with these two functions:
    they serve the sample environments and the statements about ASCII
    strings. *)
Fixpoint isASCII (s : string) : bool :=
  match s with
  | EmptyString => true
  | String c r => (nat_of_ascii c <? 128)%nat && isASCII r
  end.

Definition toLowerCase_char (c : ascii) : ascii :=
  let n := nat_of_ascii c in
  if decide (65 ≤ n ∧ n ≤ 90)%nat then ascii_of_nat (n + 32) else c.

Fixpoint toLowerCaseASCII (s : string) : string :=
  match s with
  | EmptyString => EmptyString
  | String c r => String (toLowerCase_char c) (toLowerCaseASCII r)
  end.

(** TAB, LF, VT, FF, CR and the space. *)
Definition isWhiteSpaceASCII (a : ascii) : bool :=
  bool_decide (a ∈ [ascii_of_nat 9; ascii_of_nat 10; ascii_of_nat 11;
                    ascii_of_nat 12; ascii_of_nat 13; ascii_of_nat 32]).

Fixpoint trimStartASCII (s : string) : string :=
  match s with
  | EmptyString => EmptyString
  | String a r => if isWhiteSpaceASCII a then trimStartASCII r else s
  end.

Fixpoint trimEndASCII (s : string) : string :=
  match s with
  | EmptyString => EmptyString
  | String a r =>
      match trimEndASCII r with
      | EmptyString => if isWhiteSpaceASCII a then EmptyString
                       else String a EmptyString
      | r' => String a r'
      end
  end.

Definition trimASCII (s : string) : string := trimEndASCII (trimStartASCII s).

(** A function that is [toLowerCase] on the strings of ASCII
    characters, as [String.prototype.toLowerCase] is. *)
Definition lowersASCII (f : string → string) : Prop :=
  ∀ s, isASCII s = true → f s = toLowerCaseASCII s.

(** [hay.includes(needle)] *)
Fixpoint includes (hay needle : string) : bool :=
  String.prefix needle hay ||
  match hay with
  | EmptyString => false
  | String _ r => includes r needle
  end.

(** A possibly undefined string inside a template literal. *)
Definition template (o : option string) : string :=
  match o with Some s => s | None => "undefined" end.

Definition LF : string := String "010"%char EmptyString.

(** Numbers.  A number of the program is a double; the coordinates of
    the model are the integers among the finite doubles.  Every integer
    up to 2^53 in absolute value is a double; beyond, the doubles
    between 2^k and 2^(k+1) are the multiples of 2^(k-52).  [round z] is
    the double that the integer [z] rounds to: the nearest one, and of
    two that are equally near the one whose last bit is zero. *)
Definition ulp (z : Z) : Z := 2 ^ (Z.log2 (Z.abs z) - 52).

Definition round (z : Z) : Z :=
  if decide (Z.abs z ≤ 2 ^ 53) then z
  else
    let q := z / ulp z in
    let r := z mod ulp z in
    if decide (2 * r < ulp z) then q * ulp z
    else if decide (ulp z < 2 * r) then (q + 1) * ulp z
    else if Z.even q then q * ulp z
    else (q + 1) * ulp z.

(** [a + b] and [a - b] on doubles that are integers. *)
Definition add (a b : Z) : Z := round (a + b).

Definition sub (a b : Z) : Z := round (a - b).

End JS.

(** ** Data model ([types.ts] and the reactflow node and edge objects) *)

Inductive NodeType := PROBLEM | CATEGORY | SPINE.

Global Instance NodeType_eq_dec : EqDecision NodeType.
Proof. solve_decision. Defined.

Record Evidence := mkEvidence {
  ev_id : string;
  ev_name : string;
  ev_description : option string
}.

Record Cause := mkCause {
  cause_id : string;
  cause_name : string;
  cause_description : option string;
  evidence : list Evidence
}.

(** The only function ever stored in [data.onEdit]. *)
Inductive Callback := handleUpdateNode_ref.

Record ProcessNodeData := mkData {
  data_id : string;
  data_type : NodeType;
  title : string;
  description : option string;
  causes : list Cause;
  onEdit : option Callback
}.

Record XYPosition := mkPos { x : Z; y : Z }.

Record Node := mkNode {
  node_id : string;
  node_type : string;
  position : XYPosition;
  data : ProcessNodeData
}.

Record Style := mkStyle { strokeWidth : Z; stroke : string }.

Record EdgeData := mkEdgeData {
  data_label : option string;
  data_causes : option (list Cause)
}.

Record Edge := mkEdge {
  edge_id : string;
  source : string;
  target : string;
  label : option string;
  style : option Style;
  edge_type : option string;
  sourceHandle : option string;
  targetHandle : option string;
  edge_data : option EdgeData
}.

(** The committed document: the [nodes] and [edges] state of [App]. *)
Record Document := mkDoc {
  nodes : list Node;
  edges : list Edge
}.

(** ** [constants.ts] *)

Module Constants.

Definition SPINE_Y : Z := 300.
Definition TOP_ROW_Y : Z := 50.
Definition BOTTOM_ROW_Y : Z := 550.
Definition SPACING_X : Z := 350.
Definition TAIL_X : Z := 50.
Definition SPINE_1_X : Z := TAIL_X + SPACING_X.
Definition SPINE_2_X : Z := SPINE_1_X + SPACING_X.
Definition SPINE_3_X : Z := SPINE_2_X + SPACING_X.
Definition PROBLEM_X : Z := SPINE_3_X + 250.
Definition RIB_OFFSET_X : Z := 150.

Definition spineNode (i : string) (px : Z) : Node :=
  mkNode i "processNode" (mkPos px SPINE_Y) (mkData i SPINE "" None [] None).

Definition categoryNode (i : string) (px py : Z) (t d : string) : Node :=
  mkNode i "processNode" (mkPos px py) (mkData i CATEGORY t (Some d) [] None).

Definition INITIAL_REACTFLOW_NODES : list Node :=
  [ spineNode "spine_tail" TAIL_X;
    spineNode "spine_1" SPINE_1_X;
    spineNode "spine_2" SPINE_2_X;
    spineNode "spine_3" SPINE_3_X;
    mkNode "problem" "processNode" (mkPos PROBLEM_X (SPINE_Y - 35))
      (mkData "problem" PROBLEM "Problem Statement" (Some "Define the issue here") [] None);
    categoryNode "people" (SPINE_1_X - RIB_OFFSET_X) TOP_ROW_Y
      "People" "Training, staffing, roles";
    categoryNode "technology" (SPINE_1_X - RIB_OFFSET_X) BOTTOM_ROW_Y
      "Technology" "Systems, config, outages";
    categoryNode "process" (SPINE_2_X - RIB_OFFSET_X) TOP_ROW_Y
      "Process" "Procedures, approvals";
    categoryNode "governance" (SPINE_2_X - RIB_OFFSET_X) BOTTOM_ROW_Y
      "Governance" "Policies, oversight";
    categoryNode "data" (SPINE_3_X - RIB_OFFSET_X) TOP_ROW_Y
      "Data & Tools" "Quality, integrity";
    categoryNode "environment" (SPINE_3_X - RIB_OFFSET_X) BOTTOM_ROW_Y
      "Environment" "Measurement, culture, external" ].

Definition spineStyle : Style := mkStyle 4 "#475569".
Definition ribStyle : Style := mkStyle 2 "#64748b".

Definition spineEdge (i s t : string) : Edge :=
  mkEdge i s t None (Some spineStyle) (Some "straight") None None None.

Definition ribEdge (i s t sh th : string) : Edge :=
  mkEdge i s t None (Some ribStyle) (Some "straight") (Some sh) (Some th) None.

Definition INITIAL_REACTFLOW_EDGES : list Edge :=
  [ spineEdge "s1" "spine_tail" "spine_1";
    spineEdge "s2" "spine_1" "spine_2";
    spineEdge "s3" "spine_2" "spine_3";
    spineEdge "s4" "spine_3" "problem";
    ribEdge "e_people" "people" "spine_1" "bottom" "rib-top";
    ribEdge "e_tech" "technology" "spine_1" "top" "rib-bottom";
    ribEdge "e_proc" "process" "spine_2" "bottom" "rib-top";
    ribEdge "e_gov" "governance" "spine_2" "top" "rib-bottom";
    ribEdge "e_data" "data" "spine_3" "bottom" "rib-top";
    ribEdge "e_env" "environment" "spine_3" "top" "rib-bottom" ].

(** The document [App] starts from. *)
Definition INITIAL_DOCUMENT : Document :=
  mkDoc INITIAL_REACTFLOW_NODES INITIAL_REACTFLOW_EDGES.

End Constants.

(** ** reactflow's [addEdge]

    [addEdge] is imported from the reactflow library.  It is given the
    new edge and the edge array only (never the nodes): it returns the
    array unchanged when the source or the target of the new edge is
    falsy or when an edge with the same source, target and handles is
    already there, and the array with the new edge appended otherwise. *)

Module ReactFlow.

Definition falsy (o : option string) : Prop := o = None ∨ o = Some "".

Global Instance falsy_dec o : Decision (falsy o).
Proof. unfold falsy. apply _. Defined.

(** [a === b || (!a && !b)] *)
Definition sameHandle (a b : option string) : Prop :=
  a = b ∨ (falsy a ∧ falsy b).

Global Instance sameHandle_dec a b : Decision (sameHandle a b).
Proof. unfold sameHandle. apply _. Defined.

Definition sameConnection (edge el : Edge) : Prop :=
  source el = source edge ∧ target el = target edge ∧
  sameHandle (sourceHandle el) (sourceHandle edge) ∧
  sameHandle (targetHandle el) (targetHandle edge).

Global Instance sameConnection_dec edge el : Decision (sameConnection edge el).
Proof. unfold sameConnection. apply _. Defined.

Definition connectionExists (edge : Edge) (edges : list Edge) : Prop :=
  Exists (sameConnection edge) edges.

Global Instance connectionExists_dec edge edges :
  Decision (connectionExists edge edges).
Proof. unfold connectionExists. apply _. Defined.

Definition addEdge (edgeParams : Edge) (edges : list Edge) : list Edge :=
  if decide (source edgeParams = "" ∨ target edgeParams = "") then edges
  else if decide (connectionExists edgeParams edges) then edges
  else edges ++ [edgeParams].

End ReactFlow.

(** ** Graph manipulation handlers of [App] *)

(** [handleDeleteNode]: the node is filtered out of the nodes, and every
    edge that starts or ends at it out of the edges. *)
Definition handleDeleteNode (id : string) (doc : Document) : Document :=
  mkDoc (filter (λ n, node_id n ≠ id) (nodes doc))
        (filter (λ edge, source edge ≠ id ∧ target edge ≠ id) (edges doc)).

Definition handleDeleteEdge (id : string) (doc : Document) : Document :=
  mkDoc (nodes doc) (filter (λ e, edge_id e ≠ id) (edges doc)).

(** ** Tool calls

    [tool.name] selects the operation and [tool.args] carries its
    arguments; a name that no branch of the interpreter tests is
    [other_tool]. *)

Inductive ToolCall :=
| clear_graph
| add_node (title description id : option string)
| connect_nodes (sourceId targetId : string) (label : option string)
| update_node (id : string) (title description : option string)
| add_cause (targetId : string) (targetType : option string)
            (name : string) (description : option string)
| add_evidence (targetId : string) (targetType : option string)
               (causeName name : string) (description : option string)
| other_tool (name : string).

(** What the runtime gives while one tool call is interpreted: the
    readings of the clock, the random number, the uuid, and the method
    [toLowerCase] of the strings, which is library code and of which
    nothing is assumed. *)
Record Env := mkEnv {
  now_node : Z;       (* Date.now() in [n-${Date.now()}] *)
  now_s_auto : Z;     (* Date.now() in [s-auto-${Date.now()}] *)
  now_s_end : Z;      (* Date.now() in [s-end-${Date.now()}] *)
  now_e_auto : Z;     (* Date.now() in [e-auto-${Date.now()}] *)
  now_e_ai : Z;       (* Date.now() in [e-ai-${Date.now()}-...] *)
  random_e_ai : string; (* Math.random(), as it prints *)
  uuid : string;      (* uuidv4() *)
  toLowerCase : string → string (* String.prototype.toLowerCase *)
}.

(** ** The layout of a new node ([addNodeFishbone]) *)

Inductive HandleType := top | bottom.

Global Instance HandleType_eq_dec : EqDecision HandleType.
Proof. solve_decision. Defined.

(** [localNodes.find(n => n.id === e.source)] *)
Definition sourceNode (localNodes : list Node) (e : Edge) : option Node :=
  snd <$> list_find (λ n, node_id n = source e) localNodes.

(** [sourceNode && sourceNode.position.y < 300] *)
Definition isTopRib (localNodes : list Node) (e : Edge) : Prop :=
  match sourceNode localNodes e with
  | Some n => y (position n) < 300
  | None => False
  end.

(** [sourceNode && sourceNode.position.y > 300] *)
Definition isBottomRib (localNodes : list Node) (e : Edge) : Prop :=
  match sourceNode localNodes e with
  | Some n => y (position n) > 300
  | None => False
  end.

Global Instance isTopRib_dec ns e : Decision (isTopRib ns e).
Proof. unfold isTopRib. destruct (sourceNode ns e); apply _. Defined.

Global Instance isBottomRib_dec ns e : Decision (isBottomRib ns e).
Proof. unfold isBottomRib. destruct (sourceNode ns e); apply _. Defined.

(** [sort((a,b) => a.position.x - b.position.x)]: the sort of an array
    is stable, so it is the insertion sort that keeps equal keys in
    their order. *)
Fixpoint insert_by_x (a : Node) (l : list Node) : list Node :=
  match l with
  | [] => [a]
  | b :: r =>
      if decide (x (position a) ≤ x (position b))
      then a :: b :: r
      else b :: insert_by_x a r
  end.

Definition sort_by_x (l : list Node) : list Node := foldr insert_by_x [] l.

(** The spine nodes, tail excluded, from left to right. *)
Definition spineNodes_of (localNodes : list Node) : list Node :=
  sort_by_x
    (filter (λ n, data_type (data n) = SPINE ∧ node_id n ≠ "spine_tail")
            localNodes).

(** The three variables the slot search assigns. *)
Record Placement := mkPlacement {
  targetSpineId : string;
  newPosition : XYPosition;
  handleType : HandleType
}.

(** The [for (const spine of spineNodes)] loop, started from
    [targetSpineId = ''], [newPosition = {x: 0, y: 0}], [handleType = 'top']. *)
Fixpoint checkSlots (localNodes : list Node) (localEdges : list Edge)
    (spineNodes : list Node) : Placement :=
  match spineNodes with
  | [] => mkPlacement "" (mkPos 0 0) top
  | spine :: rest =>
      let connectedNodes := filter (λ e, target e = node_id spine) localEdges in
      match list_find (isTopRib localNodes) connectedNodes with
      | None =>
          mkPlacement (node_id spine)
                      (mkPos (JS.sub (x (position spine)) 150) 50) top
      | Some _ =>
          match list_find (isBottomRib localNodes) connectedNodes with
          | None =>
              mkPlacement (node_id spine)
                          (mkPos (JS.sub (x (position spine)) 150) 550) bottom
          | Some _ => checkSlots localNodes localEdges rest
          end
      end
  end.

Definition autoSpineId (n : nat) : string :=
  "spine_" +:+ pretty n +:+ "_auto".

Definition structuralEdge (i s t : string) : Edge :=
  mkEdge i s t None (Some (mkStyle 4 "#475569")) (Some "straight")
         None None None.

(** The block under [if (!targetSpineId && problemNode)]: a new spine
    segment.  Its four steps come first. *)

(** [{ ...problemNode, position: { x: oldProblemX + 350,
    y: problemNode.position.y } }] *)
Definition movedProblem (problemNode : Node) : Node :=
  let oldProblemX := x (position problemNode) in
  mkNode (node_id problemNode) (node_type problemNode)
         (mkPos (JS.add oldProblemX 350) (y (position problemNode)))
         (data problemNode).

(** "Update Problem Node Position locally": the first node with the id
    of the problem node becomes the problem node moved to the right. *)
Definition moveProblem (problemNode : Node) (localNodes : list Node) : list Node :=
  match list_find (λ n, node_id n = node_id problemNode) localNodes with
  | Some (probIdx, _) => <[probIdx := movedProblem problemNode]> localNodes
  | None => localNodes
  end.

(** "Create new Spine Node" *)
Definition newSpineNodeFor (spineNodes : list Node) (problemNode : Node) : Node :=
  let oldProblemX := x (position problemNode) in
  let newSpineX := JS.sub oldProblemX 250 in
  let newSpineId := autoSpineId (length spineNodes + 1) in
  mkNode newSpineId "processNode" (mkPos (JS.add newSpineX 350) 300)
         (mkData newSpineId SPINE "" None [] None).

(** "Connect last spine to new spine" *)
Definition connectLastSpine (env : Env) (spineNodes : list Node)
    (newSpineId : string) (localEdges : list Edge) : list Edge :=
  match last spineNodes with
  | Some lastSpine =>
      localEdges ++
        [structuralEdge ("s-auto-" +:+ pretty (now_s_auto env))
                        (node_id lastSpine) newSpineId]
  | None => localEdges
  end.

(** "Reconnect problem to new spine (remove old connection)": the first
    edge into the problem node is spliced out. *)
Definition removeOldProblemEdge (problemNode : Node) (localEdges : list Edge)
    : list Edge :=
  match list_find (λ e, target e = node_id problemNode) localEdges with
  | Some (oldProbEdgeIdx, _) => delete oldProbEdgeIdx localEdges
  | None => localEdges
  end.

Definition extendSpine (env : Env) (spineNodes : list Node)
    (problemNode : Node) (localNodes : list Node) (localEdges : list Edge)
    : list Node * list Edge * Placement :=
  let newSpineNode := newSpineNodeFor spineNodes problemNode in
  let newSpineId := node_id newSpineNode in
  let localNodes2 := moveProblem problemNode localNodes ++ [newSpineNode] in
  let localEdges3 :=
    removeOldProblemEdge problemNode
      (connectLastSpine env spineNodes newSpineId localEdges) ++
      [structuralEdge ("s-end-" +:+ pretty (now_s_end env))
                      newSpineId (node_id problemNode)] in
  (localNodes2, localEdges3,
   mkPlacement newSpineId
               (mkPos (JS.sub (x (position newSpineNode)) 150) 50) top).

(** The placement part of [addNodeFishbone] (from the computation of
    [spineNodes] to the end of the extension block).  It reads neither
    the title nor the kind of the node that is being added. *)
Definition placeNode (env : Env) (localNodes : list Node)
    (localEdges : list Edge) : list Node * list Edge * Placement :=
  let spineNodes := spineNodes_of localNodes in
  let problemNode :=
    snd <$> list_find (λ n, data_type (data n) = PROBLEM) localNodes in
  let slot := checkSlots localNodes localEdges spineNodes in
  match decide (targetSpineId slot = ""), problemNode with
  | left _, Some problemNode =>
      extendSpine env spineNodes problemNode localNodes localEdges
  | _, _ => (localNodes, localEdges, slot)
  end.

(** [title?.toLowerCase().includes('problem') ? PROBLEM : CATEGORY] *)
Definition classify (env : Env) (title : option string) : NodeType :=
  match title with
  | Some t => if JS.includes (toLowerCase env t) "problem" then PROBLEM else CATEGORY
  | None => CATEGORY
  end.

Definition ribEdgeTo (env : Env) (newNodeId : string) (p : Placement) : Edge :=
  mkEdge ("e-auto-" +:+ pretty (now_e_auto env)) newNodeId (targetSpineId p)
         None (Some (mkStyle 2 "#64748b")) (Some "straight")
         (Some (if decide (handleType p = top) then "bottom" else "top"))
         (Some (if decide (handleType p = top) then "rib-top" else "rib-bottom"))
         None.

(** "Create the Rib Node": the node created for the id [newNodeId] at
    [newPosition]. *)
Definition createdNode (env : Env) (argTitle argDescription : option string)
    (newNodeId : string) (newPosition : XYPosition) : Node :=
  let type := classify env argTitle in
  mkNode newNodeId "processNode" newPosition
         (mkData newNodeId type (JS.or_else argTitle "Category")
                 (Some (JS.or_else argDescription "")) []
                 (Some handleUpdateNode_ref)).

(** [addNodeFishbone(title, description, desiredId)], on the working
    arrays; the third component is the id it returns. *)
Definition addNodeFishbone (env : Env)
    (argTitle argDescription desiredId : option string)
    (localNodes : list Node) (localEdges : list Edge)
    : list Node * list Edge * string :=
  let duplicate :=
    match JS.truthy_value desiredId with
    | Some d =>
        match list_find (λ n, node_id n = d) localNodes with
        | Some _ => Some d
        | None => None
        end
    | None => None
    end in
  match duplicate with
  | Some d => (localNodes, localEdges, d)
  | None =>
      let newNodeId := JS.or_else desiredId ("n-" +:+ pretty (now_node env)) in
      let '(localNodes1, localEdges1, p) := placeNode env localNodes localEdges in
      let newNode :=
        createdNode env argTitle argDescription newNodeId (newPosition p) in
      let localNodes2 := localNodes1 ++ [newNode] in
      let localEdges2 :=
        if decide (targetSpineId p = "") then localEdges1
        else localEdges1 ++ [ribEdgeTo env newNodeId p] in
      (localNodes2, localEdges2, newNodeId)
  end.

(** ** The interpreter of a batch of tool calls ([handleSendMessage]) *)

(** The working copy: [localNodes], [localEdges] and [changeLog].  The
    change log is kept as the list of the strings that were appended to
    it by [changeLog += ...], oldest first; the JavaScript string is
    their concatenation, [renderLog]. *)
Record Working := mkWorking {
  localNodes : list Node;
  localEdges : list Edge;
  changeLog : list string
}.

Definition renderLog (log : list string) : string :=
  foldr String.append "" log.

Definition setData (n : Node) (d : ProcessNodeData) : Node :=
  mkNode (node_id n) (node_type n) (position n) d.

Definition setTitleDescription (d : ProcessNodeData)
    (t : string) (ds : option string) : ProcessNodeData :=
  mkData (data_id d) (data_type d) t ds (causes d) (onEdit d).

Definition setCauses (d : ProcessNodeData) (cs : list Cause) : ProcessNodeData :=
  mkData (data_id d) (data_type d) (title d) (description d) cs (onEdit d).

(** [e.data?.causes || []] *)
Definition edgeCauses (e : Edge) : list Cause :=
  match edge_data e with
  | Some d => default [] (data_causes d)
  | None => []
  end.

(** [{ ...e, data: { ...e.data, causes: cs } }] *)
Definition setEdgeCauses (e : Edge) (cs : list Cause) : Edge :=
  mkEdge (edge_id e) (source e) (target e) (label e) (style e) (edge_type e)
         (sourceHandle e) (targetHandle e)
         (Some (mkEdgeData (edge_data e ≫= data_label) (Some cs))).

(** [targetType === 'NODE' || !targetType] *)
Definition isNodeTarget (targetType : option string) : Prop :=
  targetType = Some "NODE" ∨ targetType = None ∨ targetType = Some "".

Global Instance isNodeTarget_dec t : Decision (isNodeTarget t).
Proof. unfold isNodeTarget. apply _. Defined.

(** [r.name.toLowerCase() === causeName.toLowerCase()] *)
Definition causeMatches (env : Env) (causeName : string) (r : Cause) : Prop :=
  toLowerCase env (cause_name r) = toLowerCase env causeName.

Global Instance causeMatches_dec env c r : Decision (causeMatches env c r).
Proof. unfold causeMatches. apply _. Defined.

(** The [map] over the causes in the [add_evidence] branch. *)
Definition attachEvidence (env : Env) (causeName : string) (newEvidence : Evidence)
    (cs : list Cause) : list Cause :=
  (λ r, if decide (causeMatches env causeName r)
        then mkCause (cause_id r) (cause_name r) (cause_description r)
                     (evidence r ++ [newEvidence])
        else r) <$> cs.

Definition logLine (parts : list string) : string :=
  foldr String.append JS.LF ("• " :: parts).

(** One iteration of [response.toolCalls.forEach]. *)
Definition executeTool (env : Env) (tool : ToolCall) (w : Working) : Working :=
  match tool with
  | clear_graph =>
      mkWorking [] [] (changeLog w ++ [logLine ["Cleared canvas"]])
  | add_node argTitle argDescription id =>
      let '(ns, es, _) :=
        addNodeFishbone env argTitle argDescription id
                        (localNodes w) (localEdges w) in
      mkWorking ns es
        (changeLog w ++ [logLine ["Added Category: "; JS.template argTitle]])
  | connect_nodes sourceId targetId label =>
      let newEdge :=
        mkEdge ("e-ai-" +:+ pretty (now_e_ai env) +:+ "-" +:+ random_e_ai env)
               sourceId targetId (Some (JS.or_else label ""))
               (Some (mkStyle 2 "#64748b")) None None None
               (Some (mkEdgeData None (Some []))) in
      mkWorking (localNodes w) (ReactFlow.addEdge newEdge (localEdges w))
        (changeLog w ++ [logLine ["Connected "; sourceId; " -> "; targetId]])
  | update_node id argTitle argDescription =>
      match list_find (λ n, node_id n = id) (localNodes w) with
      | Some (nodeIndex, n) =>
          let t := JS.or_else argTitle (title (data n)) in
          let d := match argDescription with
                   | Some d => Some d
                   | None => description (data n)
                   end in
          mkWorking
            (<[nodeIndex := setData n (setTitleDescription (data n) t d)]>
               (localNodes w))
            (localEdges w)
            (changeLog w ++ [logLine ["Updated: "; t]])
      | None => w
      end
  | add_cause targetId targetType name argDescription =>
      let newCause := mkCause (uuid env) name argDescription [] in
      if decide (isNodeTarget targetType) then
        match list_find (λ n, node_id n = targetId) (localNodes w) with
        | Some (nIndex, n) =>
            mkWorking
              (<[nIndex := setData n (setCauses (data n)
                                        (causes (data n) ++ [newCause]))]>
                 (localNodes w))
              (localEdges w)
              (changeLog w ++
                 [logLine ["Added Factor to "; title (data n); ": "; name]])
        | None => w
        end
      else if decide (targetType = Some "EDGE") then
        match list_find (λ e, edge_id e = targetId) (localEdges w) with
        | Some (eIndex, e) =>
            mkWorking (localNodes w)
              (<[eIndex := setEdgeCauses e (edgeCauses e ++ [newCause])]>
                 (localEdges w))
              (changeLog w ++ [logLine ["Added Factor to Link: "; name]])
        | None => w
        end
      else w
  | add_evidence targetId targetType causeName name argDescription =>
      let newEvidence := mkEvidence (uuid env) name argDescription in
      if decide (isNodeTarget targetType) then
        match list_find (λ n, node_id n = targetId) (localNodes w) with
        | Some (nIndex, n) =>
            let updatedCauses :=
              attachEvidence env causeName newEvidence (causes (data n)) in
            mkWorking
              (<[nIndex := setData n (setCauses (data n) updatedCauses)]>
                 (localNodes w))
              (localEdges w)
              (changeLog w ++
                 [logLine ["Added Evidence to Factor '"; causeName; "': "; name]])
        | None => w
        end
      else if decide (targetType = Some "EDGE") then
        match list_find (λ e, edge_id e = targetId) (localEdges w) with
        | Some (eIndex, e) =>
            let updatedCauses :=
              attachEvidence env causeName newEvidence (edgeCauses e) in
            mkWorking (localNodes w)
              (<[eIndex := setEdgeCauses e updatedCauses]> (localEdges w))
              (changeLog w ++
                 [logLine ["Added Evidence to Link Factor '"; causeName;
                           "': "; name]])
        | None => w
        end
      else w
  | other_tool _ => w
  end.

(** A batch: the tool calls of one response, each with the environment
    it is interpreted in. *)
Definition Batch := list (Env * ToolCall).

(** [response.toolCalls.forEach(...)] from a given working copy. *)
Definition executeTools (batch : Batch) (w : Working) : Working :=
  foldl (λ w '(env, tool), executeTool env tool w) w batch.

(** The working copy a batch starts from: copies of the committed arrays
    and an empty change log. *)
Definition startWorking (doc : Document) : Working :=
  mkWorking (nodes doc) (edges doc) [].

(** The tool part of [handleSendMessage]: when the response carries tool
    calls they are interpreted on a working copy, which is then committed
    by [setNodes(localNodes); setEdges(localEdges)]; the result is the
    committed document and the change log. *)
Definition applyBatch (batch : Batch) (doc : Document) : Document * list string :=
  match batch with
  | [] => (doc, [])
  | _ =>
      let w := executeTools batch (startWorking doc) in
      (mkDoc (localNodes w) (localEdges w), changeLog w)
  end.

(** The documents committed by a sequence of batches, in order. *)
Fixpoint commits (batches : list Batch) (doc : Document) : list Document :=
  match batches with
  | [] => []
  | b :: rest =>
      let doc' := (applyBatch b doc).1 in
      doc' :: commits rest doc'
  end.

(** ** Import of a saved model ([handleFileChange])

    The import stores the arrays of the parsed file as they are, whatever
    their elements: this part of the program is modelled on JSON values.
    The state of [App] is then the two arrays as JavaScript values, and
    the messages of the chat. *)

Module Snapshot.

Local Unset Elimination Schemes.
Inductive JSON :=
| JNull
| JBool (b : bool)
| JNumber (literal : string)
| JString (s : string)
| JArray (items : list JSON)
| JObject (props : list (string * JSON))
| JFunction (f : Callback).
Local Set Elimination Schemes.

(** The result of an expression that may throw. *)
Inductive Completion (A : Type) :=
| Normal (a : A)
| Throw.
Global Arguments Normal {A} a.
Global Arguments Throw {A}.

(** [v.k] for a key [k] that no prototype defines (here ["nodes"],
    ["edges"] and ["data"]): the own property of an object,
    [undefined] (that is [None]) on any other value, and a TypeError
    on [null]. *)
Definition getProp (v : JSON) (k : string) : Completion (option JSON) :=
  match v with
  | JNull => Throw
  | JObject props => Normal (snd <$> (snd <$> list_find (λ p, p.1 = k) props))
  | _ => Normal None
  end.

(** [Array.isArray] of a possibly undefined value. *)
Definition isArray (v : option JSON) : option (list JSON) :=
  match v with
  | Some (JArray items) => Some items
  | _ => None
  end.

Fixpoint indexed (i : nat) (vs : list JSON) : list (string * JSON) :=
  match vs with
  | [] => []
  | v :: r => (pretty i, v) :: indexed (S i) r
  end.

Fixpoint chars (s : string) : list JSON :=
  match s with
  | EmptyString => []
  | String c r => JString (String c EmptyString) :: chars r
  end.

(** The own enumerable properties that [{...v}] copies. *)
Definition spread (v : option JSON) : list (string * JSON) :=
  match v with
  | Some (JObject props) => props
  | Some (JArray items) => indexed 0 items
  | Some (JString s) => indexed 0 (chars s)
  | _ => []
  end.

(** [{...props, k: v}]: an existing key keeps its place. *)
Fixpoint setProp (k : string) (v : JSON) (props : list (string * JSON))
    : list (string * JSON) :=
  match props with
  | [] => [(k, v)]
  | (k', v') :: r =>
      if decide (k' = k) then (k, v) :: r else (k', v') :: setProp k v r
  end.

(** [n => ({ ...n, data: { ...n.data, onEdit: handleUpdateNode } })] *)
Definition injectHandler (n : JSON) : Completion JSON :=
  match getProp n "data" with
  | Throw => Throw
  | Normal d =>
      Normal (JObject
        (setProp "data"
           (JObject (setProp "onEdit" (JFunction handleUpdateNode_ref) (spread d)))
           (spread (Some n))))
  end.

(** [data.nodes.map(...)]: the first element that throws ends it. *)
Fixpoint mapInject (ns : list JSON) : Completion (list JSON) :=
  match ns with
  | [] => Normal []
  | n :: r =>
      match injectHandler n with
      | Throw => Throw
      | Normal n' =>
          match mapInject r with
          | Throw => Throw
          | Normal r' => Normal (n' :: r')
          end
      end
  end.

Record Store := mkStore {
  storeNodes : list JSON;
  storeEdges : list JSON;
  messages : list string
}.

Definition addMessage (content : string) (st : Store) : Store :=
  mkStore (storeNodes st) (storeEdges st) (messages st ++ [content]).

Section FileImport.

(** [JSON.parse]: [None] when it throws a SyntaxError. *)
Variable JSON_parse : string → option JSON.

(** The body of the [try] block of [reader.onload]; [Throw] is any
    exception, which the [catch] takes. *)
Definition tryImport (content : string) (st : Store) : Completion Store :=
  match JSON_parse content with
  | None => Throw
  | Some data =>
      match getProp data "nodes" with
      | Throw => Throw
      | Normal dataNodes =>
          match isArray dataNodes with
          | None => Normal (addMessage "Invalid file format." st)
          | Some ns =>
              match getProp data "edges" with
              | Throw => Throw
              | Normal dataEdges =>
                  match isArray dataEdges with
                  | None => Normal (addMessage "Invalid file format." st)
                  | Some es =>
                      match mapInject ns with
                      | Throw => Throw
                      | Normal importedNodes =>
                          Normal
                            (addMessage
                               ("Imported fishbone diagram with " +:+
                                pretty (length ns) +:+ " nodes.")
                               (mkStore importedNodes es (messages st)))
                      end
                  end
              end
          end
      end
  end.

(** [handleFileChange] once the file has been read: [file] is its
    text, [None] when no file was chosen. *)
Definition handleFileChange (file : option string) (st : Store) : Store :=
  match file with
  | None => st
  | Some content =>
      match tryImport content st with
      | Normal st' => st'
      | Throw => addMessage "Error parsing file." st
      end
  end.

(** The validation of the import: the parsed value has a [nodes] and
    an [edges] field and both are arrays. *)
Definition validPayload (content : string) : Prop :=
  ∃ data ns es, JSON_parse content = Some data ∧
    getProp data "nodes" = Normal (Some (JArray ns)) ∧
    getProp data "edges" = Normal (Some (JArray es)).

End FileImport.

End Snapshot.

(** ** Notions used to state the properties *)

(** An edge from [s] to [t] that [addEdge] takes for the connection a
    [connect_nodes] asks for (the new edge names no handle). *)
Definition alreadyConnected (s t : string) (es : list Edge) : Prop :=
  Exists (λ el, source el = s ∧ target el = t ∧
                ReactFlow.falsy (sourceHandle el) ∧
                ReactFlow.falsy (targetHandle el)) es.

(** The tool call reaches the assignment of its branch: a
    [clear_graph], an [add_node] and a [connect_nodes] always do; an
    [update_node], an [add_cause] and an [add_evidence] do when the
    lookup of their target id succeeds; an unknown tool never does. *)
Definition applied (tool : ToolCall) (w : Working) : Prop :=
  match tool with
  | clear_graph | add_node _ _ _ | connect_nodes _ _ _ => True
  | update_node id _ _ => id ∈ node_id <$> localNodes w
  | add_cause targetId targetType _ _
  | add_evidence targetId targetType _ _ _ =>
      (isNodeTarget targetType ∧ targetId ∈ node_id <$> localNodes w) ∨
      (targetType = Some "EDGE" ∧ targetId ∈ edge_id <$> localEdges w)
  | other_tool _ => False
  end.

Global Instance applied_dec tool w : Decision (applied tool w).
Proof. destruct tool; simpl; apply _. Defined.

(** The number of tool calls of a batch that are [applied] in the
    working copy they are interpreted in. *)
Fixpoint appliedCount (batch : Batch) (w : Working) : nat :=
  match batch with
  | [] => 0
  | (env, tool) :: rest =>
      ((if decide (applied tool w) then 1 else 0) +
       appliedCount rest (executeTool env tool w))%nat
  end.

(** [add_node] is not stopped by the duplicate test: its [id] is
    falsy or is the id of no node. *)
Definition notSuppressed (desiredId : option string) (ns : list Node) : Prop :=
  ∀ d, JS.truthy_value desiredId = Some d → d ∉ node_id <$> ns.

(** [cs'] is [cs] with the evidence [ev] put at the end of the evidence
    of each cause that matches [causeName], and nothing else changed. *)
Definition evidenceAttached (env : Env) (causeName : string) (ev : Evidence)
    (cs cs' : list Cause) : Prop :=
  length cs' = length cs ∧
  ∀ k r, cs !! k = Some r →
    ∃ r', cs' !! k = Some r' ∧
      (causeMatches env causeName r →
         cause_id r' = cause_id r ∧ cause_name r' = cause_name r ∧
         cause_description r' = cause_description r ∧
         evidence r' = evidence r ++ [ev]) ∧
      (¬ causeMatches env causeName r → r' = r).

(** Two nodes that differ in their causes at most. *)
Definition sameButCauses (n n' : Node) : Prop :=
  node_id n' = node_id n ∧ node_type n' = node_type n ∧
  position n' = position n ∧
  data_id (data n') = data_id (data n) ∧
  data_type (data n') = data_type (data n) ∧
  title (data n') = title (data n) ∧
  description (data n') = description (data n) ∧
  onEdit (data n') = onEdit (data n).

(** Two edges that differ in their causes at most. *)
Definition sameEdgeButCauses (e e' : Edge) : Prop :=
  edge_id e' = edge_id e ∧ source e' = source e ∧ target e' = target e ∧
  label e' = label e ∧ style e' = style e ∧ edge_type e' = edge_type e ∧
  sourceHandle e' = sourceHandle e ∧ targetHandle e' = targetHandle e ∧
  (edge_data e' ≫= data_label) = (edge_data e ≫= data_label).

(** *** The structure of a fishbone document *)

Definition nodeIds (ns : list Node) : list string := node_id <$> ns.

(** The edges into the node [sid] that come from a node above the
    baseline, counted as the slot search sees them. *)
Definition topRibCount (ns : list Node) (es : list Edge) (sid : string) : nat :=
  length (filter (λ e, target e = sid ∧ isTopRib ns e) es).

(** The same, for the nodes below the baseline. *)
Definition bottomRibCount (ns : list Node) (es : list Edge) (sid : string) : nat :=
  length (filter (λ e, target e = sid ∧ isBottomRib ns e) es).

(** Every edge starts and ends at the id of a node. *)
Definition endpointsIn (ns : list Node) (es : list Edge) : Prop :=
  Forall (λ e, source e ∈ nodeIds ns ∧ target e ∈ nodeIds ns) es.

(** The number of nodes of kind PROBLEM. *)
Definition problemCountIn (ns : list Node) : nat :=
  length (filter (λ n, data_type (data n) = PROBLEM) ns).

(** No spine node has more than one rib from above nor more than one
    rib from below. *)
Definition slotsRespected (ns : list Node) (es : list Edge) : Prop :=
  Forall (λ s, data_type (data s) = SPINE →
               (topRibCount ns es (node_id s) ≤ 1)%nat ∧
               (bottomRibCount ns es (node_id s) ≤ 1)%nat) ns.

Definition endpointsExist (doc : Document) : Prop :=
  endpointsIn (nodes doc) (edges doc).

Definition problemCount (doc : Document) : nat := problemCountIn (nodes doc).

Definition ribsWithinSlots (doc : Document) : Prop :=
  slotsRespected (nodes doc) (edges doc).

(** The height of the node an edge starts at, as [sourceNode] finds it. *)
Definition sourceHeight (ns : list Node) (e : Edge) : option Z :=
  (λ n, y (position n)) <$> sourceNode ns e.

(** What the layout reads of a node: its id, its kind, its height. *)
Definition nodeShape (n : Node) : string * NodeType * Z :=
  (node_id n, data_type (data n), y (position n)).

(** What the layout reads of an edge: its two ends. *)
Definition edgeShape (e : Edge) : string * string := (source e, target e).

(** The state of a fishbone document: ids are unique,
    edges end at nodes, there is one PROBLEM node, the spine nodes lie on
    the baseline, the slots are respected, and the ids of the automatic
    spine nodes that are in use are those of the spine nodes counted so
    far. *)
Record Fish (ns : list Node) (es : list Edge) : Prop := mkFish {
  fish_nodup : NoDup (nodeIds ns);
  fish_endpoints : endpointsIn ns es;
  fish_problem : problemCountIn ns = 1%nat;
  fish_baseline : Forall (λ n, data_type (data n) = SPINE → y (position n) = 300) ns;
  fish_slots : slotsRespected ns es;
  fish_auto : ∀ j, autoSpineId j ∈ nodeIds ns → (j ≤ length (spineNodes_of ns))%nat
}.

(** The state of a document after a [clear_graph]: category nodes only,
    and edges that end at nodes. *)
Record Cleared (ns : list Node) (es : list Edge) : Prop := mkCleared {
  cleared_endpoints : endpointsIn ns es;
  cleared_kinds : Forall (λ n, data_type (data n) = CATEGORY) ns
}.

Definition Inv (cleared : bool) (ns : list Node) (es : list Edge) : Prop :=
  if cleared then Cleared ns es else Fish ns es.

(** The state of a document between a [clear_graph] and the next
    PROBLEM node: category nodes only, with ids that are unique and are
    not those of automatic spine nodes to come, and edges that end at
    nodes. *)
Record Blank (ns : list Node) (es : list Edge) : Prop := mkBlank {
  blank_cleared : Cleared ns es;
  blank_nodup : NoDup (nodeIds ns);
  blank_auto : ∀ j, autoSpineId j ∈ nodeIds ns → j = 0%nat
}.

(** The states a run of valid tool calls goes through: a fishbone, or,
    once the graph was cleared, a blank document. *)
Definition Structured (cleared : bool) (ns : list Node) (es : list Edge) : Prop :=
  Fish ns es ∨ (cleared = true ∧ Blank ns es).

(** *** Valid tool calls

    The tool calls for which the structure of the document is kept:
    - an [add_node] that is suppressed as a duplicate; or one whose
      title makes a PROBLEM node only when the document has none, and
      whose id, when it is given, is not the id of an automatic spine
      node beyond those in use, and, when it is generated, is the id of
      no node;
    - a [connect_nodes] that adds no edge, an id being empty or the
      connection being there already; or one between the ids of two
      nodes that, when the second is a spine node and the first lies
      above (below) the baseline, finds the slot above (below) that
      spine node free;
    - every [clear_graph], [update_node], [add_cause], [add_evidence]
      and unknown tool. *)

(** The height of the first node with the id [i]: the node that the
    slot search takes as the source of an edge from [i]. *)
Definition heightOf (ns : list Node) (i : string) : option Z :=
  (λ n, y (position n)) <$> (snd <$> list_find (λ n, node_id n = i) ns).

(** An edge from [sourceId] to [targetId] takes no slot of [targetId]
    that is taken already. *)
Definition slotFreeFor (ns : list Node) (es : list Edge)
    (sourceId targetId : string) : Prop :=
  match heightOf ns sourceId with
  | Some h => (h < 300 → topRibCount ns es targetId = 0%nat) ∧
              (h > 300 → bottomRibCount ns es targetId = 0%nat)
  | None => True
  end.

Global Instance slotFreeFor_dec ns es s t : Decision (slotFreeFor ns es s t).
Proof. unfold slotFreeFor. destruct (heightOf ns s); apply _. Defined.

(** [i] is the id of a spine node. *)
Definition isSpineId (ns : list Node) (i : string) : Prop :=
  Exists (λ n, node_id n = i ∧ data_type (data n) = SPINE) ns.

Definition validTool (env : Env) (tool : ToolCall) (w : Working) : Prop :=
  let ns := localNodes w in
  let es := localEdges w in
  match tool with
  | add_node argTitle _ desiredId =>
      let kindFits :=
        classify env argTitle = PROBLEM → problemCountIn ns = 0%nat in
      match JS.truthy_value desiredId with
      | Some d =>
          d ∈ nodeIds ns ∨
          (kindFits ∧
           ∀ j, d = autoSpineId j → (j ≤ length (spineNodes_of ns))%nat)
      | None => kindFits ∧ ("n-" +:+ pretty (now_node env)) ∉ nodeIds ns
      end
  | connect_nodes sourceId targetId label =>
      (sourceId = "" ∨ targetId = "" ∨ alreadyConnected sourceId targetId es) ∨
      (sourceId ∈ nodeIds ns ∧ targetId ∈ nodeIds ns ∧
       (isSpineId ns targetId → slotFreeFor ns es sourceId targetId))
  | _ => True
  end.

Fixpoint validFrom (batch : Batch) (w : Working) : Prop :=
  match batch with
  | [] => True
  | (env, tool) :: rest =>
      validTool env tool w ∧ validFrom rest (executeTool env tool w)
  end.

Definition validBatch (batch : Batch) (doc : Document) : Prop :=
  validFrom batch (startWorking doc).

Fixpoint validBatches (batches : list Batch) (doc : Document) : Prop :=
  match batches with
  | [] => True
  | b :: rest => validBatch b doc ∧ validBatches rest (applyBatch b doc).1
  end.

Definition isClear (tool : ToolCall) : bool :=
  match tool with clear_graph => true | _ => false end.

(** The batch contains a [clear_graph]. *)
Definition clears (batch : Batch) : bool := existsb (λ c, isClear c.2) batch.

(** *** The slots of a spine node *)

(** Both slots of the spine node [s] are taken. *)
Definition slotsFull (ns : list Node) (es : list Edge) (s : Node) : Prop :=
  topRibCount ns es (node_id s) ≠ 0%nat ∧
  bottomRibCount ns es (node_id s) ≠ 0%nat.

(** The slot above the spine node [s], and the slot below it. *)
Definition slotAbove (s : Node) : Placement :=
  mkPlacement (node_id s) (mkPos (JS.sub (x (position s)) 150) 50) top.

Definition slotBelow (s : Node) : Placement :=
  mkPlacement (node_id s) (mkPos (JS.sub (x (position s)) 150) 550) bottom.

(** ** Sample inputs

    Concrete environments and documents on which the properties below
    are instantiated. *)

Module Samples.

Import Constants.

(** Every clock reads the same millisecond; the strings of the samples
    are ASCII strings, which [toLowerCase] lowers as
    [JS.toLowerCaseASCII] does. *)
Definition env0 : Env :=
  mkEnv 1700000000000 1700000000000 1700000000000 1700000000000
        1700000000000 "0.5" "c0ffee00-0000-4000-8000-000000000001"
        JS.toLowerCaseASCII.

Definition initialWorking : Working := startWorking INITIAL_DOCUMENT.

(** A fishbone whose spine is the tail and one spine node, both slots
    of which are free. *)
Definition oneSpineNode : Node := spineNode "spine_1" SPINE_1_X.

Definition oneSpineProblem : Node :=
  mkNode "problem" "processNode" (mkPos (SPINE_1_X + 250) (SPINE_Y - 35))
    (mkData "problem" PROBLEM "Problem Statement" None [] None).

Definition oneSpineDocument : Document :=
  mkDoc
    [ spineNode "spine_tail" TAIL_X; oneSpineNode; oneSpineProblem ]
    [ spineEdge "s1" "spine_tail" "spine_1";
      spineEdge "s2" "spine_1" "problem" ].

(** A document, as an import can produce it, one node of which has
    the empty string as its id. *)
Definition emptyIdWorking : Working :=
  mkWorking [categoryNode "" 0 0 "Vendors" ""] [] [].

(** The initial document after two factors were added to "people". *)
Definition factorsWorking : Working :=
  executeTools
    [ (env0, add_cause "people" (Some "NODE") "vendor outage" None);
      (env0, add_cause "people" (Some "NODE") "Vendor Outages" None) ]
    initialWorking.

(** The node "people" of [factorsWorking]. *)
Definition peopleWithFactors : Node :=
  mkNode "people" "processNode" (mkPos 250 50)
    (mkData "people" CATEGORY "People" (Some "Training, staffing, roles")
       [ mkCause (uuid env0) "vendor outage" None [];
         mkCause (uuid env0) "Vendor Outages" None [] ]
       None).

(** Three batches: the first one draws a connection along the spine,
    the last one clears the graph and builds a new fishbone. *)
Definition sampleBatches : list Batch :=
  [ [ (env0, add_node (Some "Vendors") (Some "Third parties") (Some "vendors"));
      (env0, add_cause "vendors" (Some "NODE") "vendor outage" None);
      (env0, connect_nodes "vendors" "problem" (Some "drives"));
      (env0, connect_nodes "spine_1" "spine_3" None) ];
    [ (env0, add_node (Some "Suppliers") None None);
      (env0, update_node "problem" (Some "Late deliveries") None) ];
    [ (env0, clear_graph);
      (env0, add_node (Some "People") None (Some "people"));
      (env0, add_node (Some "The problem") None (Some "core"));
      (env0, add_node (Some "Methods") None (Some "methods"));
      (env0, connect_nodes "people" "core" None) ] ].

(** Three [add_node] calls that give no id, interpreted within one
    millisecond: [Date.now()] is the same for the three. *)
Definition sameMillisecondBatch : Batch :=
  [ (env0, add_node (Some "People") None None);
    (env0, add_node (Some "Process") None None);
    (env0, add_node (Some "Technology") None None) ].

(** The same three categories, each with an id of its own. *)
Definition distinctIdsBatch : Batch :=
  [ (env0, add_node (Some "People") None (Some "people"));
    (env0, add_node (Some "Process") None (Some "process"));
    (env0, add_node (Some "Technology") None (Some "technology")) ].

End Samples.

(** ** The other handlers of [App]

    The handlers that the diagram and the node cards call. *)

(** A [Partial<ProcessNodeData>]: each field is [None] when the key is
    absent.  The optional fields [description] and [onEdit] may be
    present with the value [undefined]. *)
Record PartialData := mkPartial {
  partial_id : option string;
  partial_type : option NodeType;
  partial_title : option string;
  partial_description : option (option string);
  partial_causes : option (list Cause);
  partial_onEdit : option (option Callback)
}.

(** [{ ...node.data, ...data }] *)
Definition mergeData (d : ProcessNodeData) (p : PartialData) : ProcessNodeData :=
  mkData (default (data_id d) (partial_id p))
         (default (data_type d) (partial_type p))
         (default (title d) (partial_title p))
         (default (description d) (partial_description p))
         (default (causes d) (partial_causes p))
         (default (onEdit d) (partial_onEdit p)).

(** [handleUpdateNode]: the data of every node with the id is merged
    with the partial data. *)
Definition handleUpdateNode (id : string) (p : PartialData)
    (nds : list Node) : list Node :=
  (λ node, if decide (node_id node = id)
           then setData node (mergeData (data node) p)
           else node) <$> nds.

(** The effect "Inject handleUpdateNode into nodes that don't have it". *)
Definition injectOnEdit (nds : list Node) : list Node :=
  (λ node, match onEdit (data node) with
           | None =>
               setData node
                 (mkData (data_id (data node)) (data_type (data node))
                         (title (data node)) (description (data node))
                         (causes (data node)) (Some handleUpdateNode_ref))
           | Some _ => node
           end) <$> nds.

(** What the environment returns to the handlers of the user interface. *)
Record UiEnv := mkUiEnv {
  ui_now : Z;        (* Date.now() *)
  ui_random : Z;     (* Math.floor(Math.random() * 1000) *)
  ui_uuid : string   (* uuidv4() *)
}.

(** [handleAddNode(type, title, description, desiredId)]; the second
    component is the id it returns. *)
Definition handleAddNode (env : UiEnv) (type : NodeType)
    (argTitle argDescription desiredId : option string)
    (nds : list Node) : list Node * string :=
  let xPos := 100 + Z.of_nat (length nds) * 50 in
  let yPos := 100 + Z.of_nat (length nds) * 50 in
  let newNodeId :=
    JS.or_else desiredId
      ("n-" +:+ pretty (ui_now env) +:+ "-" +:+ pretty (ui_random env)) in
  let newNode :=
    mkNode newNodeId "processNode" (mkPos xPos yPos)
           (mkData newNodeId type
                   (JS.or_else argTitle
                      (if decide (type = PROBLEM) then "Problem" else "Category"))
                   (Some (JS.or_else argDescription "")) []
                   (Some handleUpdateNode_ref)) in
  (nds ++ [newNode], newNodeId).

(** A reactflow [Connection]: each of its four fields may be [null]. *)
Record Connection := mkConnection {
  conn_source : option string;
  conn_target : option string;
  conn_sourceHandle : option string;
  conn_targetHandle : option string
}.

(** [handleConnect]: [{ ...params, id, style, data: { causes: [] } }]
    goes through [addEdge].  A [null] end is the empty string here: both
    are falsy, and [addEdge] then adds nothing. *)
Definition handleConnect (env : UiEnv) (params : Connection)
    (eds : list Edge) : list Edge :=
  let newEdge :=
    mkEdge ("e-" +:+ pretty (ui_now env))
           (default "" (conn_source params)) (default "" (conn_target params))
           None (Some (mkStyle 2 "#64748b")) None
           (conn_sourceHandle params) (conn_targetHandle params)
           (Some (mkEdgeData None (Some []))) in
  ReactFlow.addEdge newEdge eds.

(** The body of the [map] of [handleUpdateEdge] for one edge; [None] is
    the TypeError of [e.data.causes] on an edge without [data]. *)
Definition updateEdge (id : string) (argLabel : option string)
    (argCauses : option (list Cause)) (e : Edge) : option Edge :=
  if decide (edge_id e = id) then
    let newLabel := match argLabel with Some l => Some l | None => label e end in
    match argCauses, edge_data e with
    | Some cs, _ =>
        Some (mkEdge (edge_id e) (source e) (target e) newLabel (style e)
                     (edge_type e) (sourceHandle e) (targetHandle e)
                     (Some (mkEdgeData (edge_data e ≫= data_label) (Some cs))))
    | None, Some d =>
        Some (mkEdge (edge_id e) (source e) (target e) newLabel (style e)
                     (edge_type e) (sourceHandle e) (targetHandle e)
                     (Some (mkEdgeData (data_label d) (data_causes d))))
    | None, None => None
    end
  else Some e.

(** [handleUpdateEdge(id, { label, causes })]; [None] when the [map]
    throws. *)
Definition handleUpdateEdge (id : string) (argLabel : option string)
    (argCauses : option (list Cause)) (eds : list Edge) : option (list Edge) :=
  mapM (updateEdge id argLabel argCauses) eds.

(** The "Factors" counter of the header:
    [nodes.reduce((acc, node) => acc + (node.data.causes?.length || 0), 0)] *)
Definition factorCount (nds : list Node) : nat :=
  foldl (λ acc node, (acc + length (causes (data node)))%nat) 0%nat nds.

(** ** The resizing of the side bar *)

Record Sidebar := mkSidebar {
  sidebarWidth : Z;
  isResizing : bool
}.

Definition initialSidebar : Sidebar := mkSidebar 450 false.

Inductive MouseEvent :=
| mouseDownOnHandle
| mouseMove (innerWidth clientX : Z)
| mouseUp.

(** [startResizing], and the [handleMouseMove] and [handleMouseUp]
    listeners, which are registered while [isResizing] holds. *)
Definition sidebarStep (st : Sidebar) (ev : MouseEvent) : Sidebar :=
  match ev with
  | mouseDownOnHandle => mkSidebar (sidebarWidth st) true
  | mouseMove innerWidth clientX =>
      if isResizing st then
        let newWidth := innerWidth - clientX in
        if decide (300 ≤ newWidth ∧ newWidth ≤ 800)
        then mkSidebar newWidth (isResizing st)
        else st
      else st
  | mouseUp => if isResizing st then mkSidebar (sidebarWidth st) false else st
  end.

(** ** The editors of the diagram ([ProcessGraphContent], [ProcessNode]) *)

(** [!s.trim()]: what [trim] leaves of the string is empty.  [trim] is
    [String.prototype.trim]: library code, a parameter of the editors of
    which nothing is assumed. *)
Definition isBlank (trim : string → string) (s : string) : Prop := trim s = "".

Global Instance isBlank_dec trim s : Decision (isBlank trim s).
Proof. unfold isBlank. apply _. Defined.

(** The state of the connection editor. *)
Record EdgeEditor := mkEdgeEditor {
  editingEdge : option Edge;
  edgeLabelInput : string;
  editorCauses : list Cause;
  newCauseName : string
}.

Definition onEdgeClick (edge : Edge) (st : EdgeEditor) : EdgeEditor :=
  mkEdgeEditor (Some edge) (JS.or_else (label edge) "") (edgeCauses edge)
               (newCauseName st).

(** [saveEdgeEdit], with [onUpdateEdge] bound to [handleUpdateEdge]. *)
Definition saveEdgeEdit (st : EdgeEditor) (eds : list Edge)
    : EdgeEditor * option (list Edge) :=
  match editingEdge st with
  | Some e =>
      (mkEdgeEditor None (edgeLabelInput st) (editorCauses st) (newCauseName st),
       handleUpdateEdge (edge_id e) (Some (edgeLabelInput st))
                        (Some (editorCauses st)) eds)
  | None => (st, Some eds)
  end.

(** [addCause] of the connection editor and [addNewCause] of the node
    editor, on the list of causes and the input field. *)
Definition addCauseTo (trim : string → string) (uuid : string)
    (cs : list Cause) (input : string) : list Cause * string :=
  if decide (isBlank trim input) then (cs, input)
  else (cs ++ [mkCause uuid input None []], "").

(** [updateCause]: [causes.map(r => r.id === causeId ? updatedCause : r)] *)
Definition updateCause (causeId : string) (updatedCause : Cause)
    (cs : list Cause) : list Cause :=
  (λ r, if decide (cause_id r = causeId) then updatedCause else r) <$> cs.

(** [removeCause]: [causes.filter(r => r.id !== causeId)] *)
Definition removeCause (causeId : string) (cs : list Cause) : list Cause :=
  filter (λ r, cause_id r ≠ causeId) cs.

(** [addEvidence] of a cause item: the cause it hands to [onUpdate] or
    [onChange], if any. *)
Definition addEvidenceTo (trim : string → string) (uuid : string)
    (cause : Cause) (input : string) : option Cause :=
  if decide (isBlank trim input) then None
  else Some (mkCause (cause_id cause) (cause_name cause) (cause_description cause)
                     (evidence cause ++ [mkEvidence uuid input (Some "")])).

(** [deleteEvidence] of a cause item. *)
Definition deleteEvidence (evId : string) (cause : Cause) : Cause :=
  mkCause (cause_id cause) (cause_name cause) (cause_description cause)
          (filter (λ c, ev_id c ≠ evId) (evidence cause)).

(** The state of the editor of a node card. *)
Record NodeEditor := mkNodeEditor {
  isEditing : bool;
  tempTitle : string;
  tempCauses : list Cause
}.

(** "Sync local state with props when they change" *)
Definition syncNodeEditor (d : ProcessNodeData) (st : NodeEditor) : NodeEditor :=
  mkNodeEditor (isEditing st) (title d) (causes d).

(** [handleSave] of the node card [id] whose data is [d]; [data.onEdit],
    when it is there, is [handleUpdateNode]. *)
Definition handleSave (id : string) (d : ProcessNodeData) (st : NodeEditor)
    (nds : list Node) : NodeEditor * list Node :=
  (mkNodeEditor false (tempTitle st) (tempCauses st),
   match onEdit d with
   | Some handleUpdateNode_ref =>
       handleUpdateNode id
         (mkPartial None None (Some (tempTitle st)) None
                    (Some (tempCauses st)) None) nds
   | None => nds
   end).

(** ** The response of the service and the message of the chat *)

Record GeminiResponse := mkResponse {
  response_text : string;
  toolCalls : option Batch
}.

(** What [ai.models.generateContent] does: it throws, or it returns a
    response with its text and its function calls. *)
Inductive ApiOutcome :=
| apiThrows
| apiReturns (text : option string) (functionCalls : option Batch).

(** [generateProcessResponse]; [ai] tells whether the client was
    configured. *)
Definition generateProcessResponse (ai : bool) (api : ApiOutcome) : GeminiResponse :=
  if ai then
    match api with
    | apiReturns text functionCalls =>
        mkResponse (JS.or_else text "")
          (Some (match functionCalls with
                 | Some (c :: cs) => c :: cs
                 | _ => []
                 end))
    | apiThrows => mkResponse "I encountered an error processing the request." None
    end
  else
    mkResponse "API Key not configured. Please ensure process.env.API_KEY is set."
               None.

(** The part of [handleSendMessage] that follows the response: the
    committed document and the content of the message that is posted. *)
Definition handleResponse (response : GeminiResponse) (doc : Document)
    : Document * string :=
  let '(doc', text) :=
    match toolCalls response with
    | Some (c :: cs) =>
        let '(doc', log) := applyBatch (c :: cs) doc in
        let changeLog := renderLog log in
        (doc',
         if decide (changeLog = "") then response_text response
         else response_text response +:+ JS.LF +:+ JS.LF +:+
              "**Diagram Updates:**" +:+ JS.LF +:+ changeLog)
    | _ => (doc, response_text response)
    end in
  (doc', JS.or_else (Some text) "Diagram updated.").

(** ** Saving a model ([handleSaveModel])

    The nodes and edges as JavaScript values, and the value that
    [JSON.stringify] writes for them: a key whose value is [undefined]
    or a function is left out. *)

Module SavedModel.

Definition optional (k : string) (v : option Snapshot.JSON) : list (string * Snapshot.JSON) :=
  match v with Some j => [(k, j)] | None => [] end.

Definition evidenceValue (ev : Evidence) : Snapshot.JSON :=
  Snapshot.JObject ([("id", Snapshot.JString (ev_id ev)); ("name", Snapshot.JString (ev_name ev))] ++
           optional "description" (Snapshot.JString <$> ev_description ev)).

Definition causeValue (c : Cause) : Snapshot.JSON :=
  Snapshot.JObject ([("id", Snapshot.JString (cause_id c)); ("name", Snapshot.JString (cause_name c))] ++
           optional "description" (Snapshot.JString <$> cause_description c) ++
           [("evidence", Snapshot.JArray (evidenceValue <$> evidence c))]).

Definition typeValue (t : NodeType) : Snapshot.JSON :=
  Snapshot.JString (match t with
           | PROBLEM => "PROBLEM" | CATEGORY => "CATEGORY" | SPINE => "SPINE"
           end).

(** The properties of [node.data] but [onEdit]. *)
Definition dataProps (d : ProcessNodeData) : list (string * Snapshot.JSON) :=
  [("id", Snapshot.JString (data_id d)); ("type", typeValue (data_type d));
   ("title", Snapshot.JString (title d))] ++
  optional "description" (Snapshot.JString <$> description d) ++
  [("causes", Snapshot.JArray (causeValue <$> causes d))].

Definition positionValue (p : XYPosition) : Snapshot.JSON :=
  Snapshot.JObject [("x", Snapshot.JNumber (pretty (x p))); ("y", Snapshot.JNumber (pretty (y p)))].

(** The node object of the state. *)
Definition nodeValue (n : Node) : Snapshot.JSON :=
  Snapshot.JObject [("id", Snapshot.JString (node_id n)); ("type", Snapshot.JString (node_type n));
           ("position", positionValue (position n));
           ("data", Snapshot.JObject (dataProps (data n) ++
                             optional "onEdit" (Snapshot.JFunction <$> onEdit (data n))))].

(** The node object as it is written to the file: without its handler. *)
Definition savedNode (n : Node) : Snapshot.JSON :=
  Snapshot.JObject [("id", Snapshot.JString (node_id n)); ("type", Snapshot.JString (node_type n));
           ("position", positionValue (position n));
           ("data", Snapshot.JObject (dataProps (data n)))].

Definition styleValue (s : Style) : Snapshot.JSON :=
  Snapshot.JObject [("strokeWidth", Snapshot.JNumber (pretty (strokeWidth s)));
           ("stroke", Snapshot.JString (stroke s))].

Definition edgeDataValue (d : EdgeData) : Snapshot.JSON :=
  Snapshot.JObject (optional "label" (Snapshot.JString <$> data_label d) ++
           optional "causes" ((λ cs, Snapshot.JArray (causeValue <$> cs)) <$> data_causes d)).

(** The edge object, of the state and of the file. *)
Definition edgeValue (e : Edge) : Snapshot.JSON :=
  Snapshot.JObject ([("id", Snapshot.JString (edge_id e)); ("source", Snapshot.JString (source e));
            ("target", Snapshot.JString (target e))] ++
           optional "label" (Snapshot.JString <$> label e) ++
           optional "style" (styleValue <$> style e) ++
           optional "type" (Snapshot.JString <$> edge_type e) ++
           optional "sourceHandle" (Snapshot.JString <$> sourceHandle e) ++
           optional "targetHandle" (Snapshot.JString <$> targetHandle e) ++
           optional "data" (edgeDataValue <$> edge_data e)).

(** [modelData] of [handleSaveModel], as the file holds it; [timestamp]
    is [new Date().toISOString()]. *)
Definition savedModel (timestamp : string) (doc : Document) : Snapshot.JSON :=
  Snapshot.JObject
    [("metadata",
      Snapshot.JObject [("version", Snapshot.JString "3.0"); ("timestamp", Snapshot.JString timestamp);
               ("appName", Snapshot.JString "Root Cause Fishbone")]);
     ("nodes", Snapshot.JArray (savedNode <$> nodes doc));
     ("edges", Snapshot.JArray (edgeValue <$> edges doc))].

End SavedModel.

(** ** Notions used to state the further properties *)

(** Two edges that [addEdge] takes for the same connection. *)
Definition sameEnds (e e' : Edge) : Prop :=
  source e' = source e ∧ target e' = target e ∧
  ReactFlow.sameHandle (sourceHandle e) (sourceHandle e') ∧
  ReactFlow.sameHandle (targetHandle e) (targetHandle e').

(** What [handleUpdateEdge] leaves of an edge: all but its label and
    its data. *)
Definition edgeWiring (e : Edge)
    : string * string * string * option Style * option string *
      option string * option string :=
  (edge_id e, source e, target e, style e, edge_type e,
   sourceHandle e, targetHandle e).

(** The number of causes that a tool call adds to the nodes: one, for
    an [add_cause] that aims at a node and finds it. *)
Definition addedFactors (tool : ToolCall) (w : Working) : nat :=
  match tool with
  | add_cause targetId targetType _ _ =>
      if decide (isNodeTarget targetType ∧ targetId ∈ nodeIds (localNodes w))
      then 1%nat else 0%nat
  | _ => 0%nat
  end.

(** A coordinate from which the layout computes its offsets without
    rounding: the sums and differences it forms stay below 2^53. *)
Definition safeCoordinate (z : Z) : Prop := Z.abs z ≤ 2 ^ 52.

Global Instance safeCoordinate_dec z : Decision (safeCoordinate z).
Proof. unfold safeCoordinate. apply _. Defined.

(** The tool calls that annotate the diagram: they add no node and no
    edge. *)
Definition isAnnotation (tool : ToolCall) : bool :=
  match tool with
  | update_node _ _ _ | add_cause _ _ _ _ | add_evidence _ _ _ _ _
  | other_tool _ => true
  | _ => false
  end.

(** What an annotation leaves of a node: all but its title, its
    description and its causes. *)
Definition nodeFrame (n : Node)
    : string * string * XYPosition * string * NodeType * option Callback :=
  (node_id n, node_type n, position n, data_id (data n), data_type (data n),
   onEdit (data n)).

(** What an annotation leaves of an edge: all but its causes. *)
Definition edgeFrame (e : Edge)
    : string * string * string * option string * option Style *
      option string * option string * option string :=
  (edge_id e, source e, target e, label e, style e, edge_type e,
   sourceHandle e, targetHandle e).

(** * Properties *)

(** ** Deleting a node *)

(** C8. Deleting a node keeps exactly the nodes with another id and
    exactly the edges that neither start nor end at the deleted id, in
    their order and with their multiplicity; every edge that starts or
    ends at the id is removed. *)
Theorem handleDeleteNode_cascade (id : string) (doc : Document) :
  let doc' := handleDeleteNode id doc in
  (∀ n, n ∈ nodes doc' ↔ n ∈ nodes doc ∧ node_id n ≠ id) ∧
  (∀ e, e ∈ edges doc' ↔ e ∈ edges doc ∧ source e ≠ id ∧ target e ≠ id) ∧
  (∀ e, e ∈ edges doc → source e = id ∨ target e = id → e ∉ edges doc') ∧
  nodes doc' `sublist_of` nodes doc ∧
  edges doc' `sublist_of` edges doc ∧
  edges doc' ++ filter (λ e, ¬ (source e ≠ id ∧ target e ≠ id)) (edges doc)
    ≡ₚ edges doc ∧
  nodes doc' ++ filter (λ n, ¬ (node_id n ≠ id)) (nodes doc) ≡ₚ nodes doc.
Proof.
  simpl. split_and!.
  - intros n. rewrite list_elem_of_filter. tauto.
  - intros e. rewrite list_elem_of_filter. tauto.
  - intros e _ Hid. rewrite list_elem_of_filter. intros [[Hs Ht] _].
    destruct Hid; contradiction.
  - apply sublist_filter.
  - apply sublist_filter.
  - apply filter_app_complement.
  - apply filter_app_complement.
Qed.

(** ** [update_node] *)

(** C10. For an [update_node] whose id is found, an empty [title] leaves
    the title of the node as it was, an empty [description] replaces the
    description by the empty string, and nothing else changes: the other
    fields of the node, the other nodes, the edges. *)
Theorem update_node_empty_strings (env : Env) (w : Working) (id : string)
    (argTitle argDescription : option string) (i : nat) (n : Node) :
  list_find (λ n, node_id n = id) (localNodes w) = Some (i, n) →
  let w' := executeTool env (update_node id argTitle argDescription) w in
  ∃ n', localNodes w' !! i = Some n' ∧
    (argTitle = Some "" → title (data n') = title (data n)) ∧
    (argDescription = Some "" → description (data n') = Some "") ∧
    node_id n' = node_id n ∧ node_type n' = node_type n ∧
    position n' = position n ∧
    data_id (data n') = data_id (data n) ∧
    data_type (data n') = data_type (data n) ∧
    causes (data n') = causes (data n) ∧
    onEdit (data n') = onEdit (data n) ∧
    length (localNodes w') = length (localNodes w) ∧
    (∀ j, j ≠ i → localNodes w' !! j = localNodes w !! j) ∧
    localEdges w' = localEdges w.
Proof.
  intros Hfind. simpl. rewrite Hfind. simpl.
  apply list_find_Some in Hfind as (Hi & _ & _).
  eexists. split.
  { apply list_lookup_insert_eq. by eapply lookup_lt_Some. }
  simpl. split_and!; try done.
  - by intros ->.
  - by intros ->.
  - by rewrite length_insert.
  - intros j Hj. by rewrite list_lookup_insert_ne.
Qed.

(** The property at the "problem" node of the initial document. *)
Lemma update_node_empty_strings_witness :
  let w' := executeTool Samples.env0 (update_node "problem" (Some "") (Some ""))
                        Samples.initialWorking in
  ∃ n', localNodes w' !! 4%nat = Some n' ∧
    title (data n') = "Problem Statement" ∧
    description (data n') = Some "".
Proof.
  destruct (update_node_empty_strings Samples.env0 Samples.initialWorking
              "problem" (Some "") (Some "") 4
              (mkNode "problem" "processNode" (mkPos 1350 265)
                 (mkData "problem" PROBLEM "Problem Statement"
                    (Some "Define the issue here") [] None)))
    as (n' & Hn' & Ht & Hd & _).
  - reflexivity.
  - exists n'. split; [exact Hn'|]. split; [exact (Ht eq_refl)|exact (Hd eq_refl)].
Defined.

(** ** Strings *)

Lemma app_String (a : ascii) (s t : string) :
  String a s +:+ t = String a (s +:+ t).
Proof. reflexivity. Qed.

Lemma app_empty_l (t : string) : "" +:+ t = t.
Proof. reflexivity. Qed.

Lemma prefix_spec (p s : string) :
  String.prefix p s = true ↔ ∃ post, s = p +:+ post.
Proof.
  revert s. induction p as [|a p IH]; intros s.
  - destruct s; simpl; split; eauto.
  - destruct s as [|b s]; simpl.
    + split; [done|]. intros [post Hpost]. rewrite app_String in Hpost. done.
    + destruct (ascii_dec a b) as [->|Hne].
      * rewrite IH. split.
        -- intros [post ->]. by exists post.
        -- intros [post Hpost]. rewrite app_String in Hpost.
           injection Hpost as ->. by exists post.
      * split; [done|]. intros [post Hpost]. rewrite app_String in Hpost.
        injection Hpost as ? ?. congruence.
Qed.


Lemma length_app_string (s t : string) :
  String.length (s +:+ t) = (String.length s + String.length t)%nat.
Proof. induction s as [|a s IH]; [done|]. rewrite app_String. simpl. by rewrite IH. Qed.

Lemma app_inj_r (s1 s2 t : string) : s1 +:+ t = s2 +:+ t → s1 = s2.
Proof.
  revert s2. induction s1 as [|a s1 IH]; intros [|b s2] H.
  - done.
  - apply (f_equal String.length) in H.
    rewrite !length_app_string in H. simpl in H. lia.
  - apply (f_equal String.length) in H.
    rewrite !length_app_string in H. simpl in H. lia.
  - rewrite !app_String in H. injection H as -> H. f_equal. by apply IH.
Qed.

Lemma autoSpineId_inj (i j : nat) : autoSpineId i = autoSpineId j → i = j.
Proof.
  unfold autoSpineId. intros H.
  apply (inj (String.app "spine_")) in H.
  apply app_inj_r in H. by apply (inj pretty) in H.
Qed.

Lemma autoSpineId_prefix (j : nat) : String.prefix "spine_" (autoSpineId j) = true.
Proof. apply prefix_spec. by eexists. Qed.

Lemma autoSpineId_not_tail (j : nat) : autoSpineId j ≠ "spine_tail".
Proof.
  unfold autoSpineId. intros H. apply (f_equal String.length) in H.
  rewrite !length_app_string in H. simpl in H. lia.
Qed.

Lemma autoSpineId_nonempty (j : nat) : autoSpineId j ≠ "".
Proof. unfold autoSpineId. by rewrite !app_String. Qed.

Lemma generatedId_prefix (t : Z) : String.prefix "spine_" ("n-" +:+ pretty t) = false.
Proof. reflexivity. Qed.

(** ** Lookups by id *)

Lemma list_find_id_is_Some {A} (f : A → string) (l : list A) (id : string) :
  id ∈ f <$> l → is_Some (list_find (λ a, f a = id) l).
Proof.
  intros (a & -> & Ha)%list_elem_of_fmap. by eapply list_find_elem_of.
Qed.

Lemma list_find_id_None {A} (f : A → string) (l : list A) (id : string) :
  id ∉ f <$> l → list_find (λ a, f a = id) l = None.
Proof.
  intros Hid. apply list_find_None, Forall_forall. intros a Ha <-.
  apply Hid, list_elem_of_fmap. eauto.
Qed.

Lemma list_find_id_elem {A} (f : A → string) (l : list A) (id : string) i a :
  list_find (λ a, f a = id) l = Some (i, a) → id ∈ f <$> l.
Proof.
  intros (Hi & <- & _)%list_find_Some.
  apply list_elem_of_fmap. eauto using list_elem_of_lookup_2.
Qed.

(** ** [add_node] with the id of an existing node *)

Lemma addNodeFishbone_duplicate (env : Env) (argTitle argDescription : option string)
    (d : string) (ns : list Node) (es : list Edge) :
  d ≠ "" → d ∈ node_id <$> ns →
  addNodeFishbone env argTitle argDescription (Some d) ns es = (ns, es, d).
Proof.
  intros Hd Hin. unfold addNodeFishbone. simpl.
  destruct (decide (d = "")) as [|_]; [done|].
  destruct (list_find_id_is_Some node_id ns d Hin) as [[i n] ->]. done.
Qed.

(** C4, amended. An [add_node] whose [id] is not the empty string and is
    the id of a node of the working copy adds nothing: it returns that
    id, and the nodes, their number and the edges are what they were. *)
Theorem add_node_duplicate_noop (env : Env) (argTitle argDescription : option string)
    (d : string) (w : Working) :
  d ≠ "" → d ∈ node_id <$> localNodes w →
  addNodeFishbone env argTitle argDescription (Some d)
                  (localNodes w) (localEdges w)
    = (localNodes w, localEdges w, d) ∧
  let w' := executeTool env (add_node argTitle argDescription (Some d)) w in
  localNodes w' = localNodes w ∧ localEdges w' = localEdges w ∧
  length (localNodes w') = length (localNodes w).
Proof.
  intros Hd Hin. split; [by apply addNodeFishbone_duplicate|].
  simpl. rewrite addNodeFishbone_duplicate by done. done.
Qed.

(** The property at the id "people" of the initial document. *)
Lemma add_node_duplicate_noop_witness :
  let w' := executeTool Samples.env0
              (add_node (Some "People") None (Some "people"))
              Samples.initialWorking in
  localNodes w' = localNodes Samples.initialWorking ∧
  localEdges w' = localEdges Samples.initialWorking ∧
  length (localNodes w') = length (localNodes Samples.initialWorking).
Proof.
  refine (proj2 (add_node_duplicate_noop Samples.env0 (Some "People") None
                   "people" Samples.initialWorking _ _)).
  - discriminate.
  - vm_compute. do 5 apply list_elem_of_further. apply list_elem_of_here.
Defined.

(** C4 as stated fails when the id is the empty string: the duplicate
    test [desiredId && ...] takes it for an absent id, and a node is
    added although a node with that id is present. *)
Lemma add_node_empty_id_counterexample :
  let w := Samples.emptyIdWorking in
  let w' := executeTool Samples.env0 (add_node (Some "Vendors") None (Some "")) w in
  "" ∈ node_id <$> localNodes w ∧
  length (localNodes w') = S (length (localNodes w)) ∧
  localNodes w' ≠ localNodes w.
Proof.
  split; [|split].
  - vm_compute. apply list_elem_of_here.
  - reflexivity.
  - intros H. apply (f_equal length) in H. vm_compute in H. discriminate.
Qed.

(** ** [connect_nodes] *)

Lemma sameHandle_None (a : option string) :
  ReactFlow.sameHandle a None ↔ ReactFlow.falsy a.
Proof.
  unfold ReactFlow.sameHandle, ReactFlow.falsy. split.
  - intros [->|[H _]]; auto.
  - intros H. right. auto.
Qed.

Lemma connectionExists_alreadyConnected (newEdge : Edge) (es : list Edge) :
  sourceHandle newEdge = None → targetHandle newEdge = None →
  ReactFlow.connectionExists newEdge es ↔
  alreadyConnected (source newEdge) (target newEdge) es.
Proof.
  intros Hs Ht. unfold ReactFlow.connectionExists, alreadyConnected.
  rewrite !Exists_exists. unfold ReactFlow.sameConnection.
  setoid_rewrite Hs. setoid_rewrite Ht. setoid_rewrite sameHandle_None. done.
Qed.

Lemma addEdge_nothing (newEdge : Edge) (es : list Edge) :
  sourceHandle newEdge = None → targetHandle newEdge = None →
  source newEdge = "" ∨ target newEdge = "" ∨
    alreadyConnected (source newEdge) (target newEdge) es →
  ReactFlow.addEdge newEdge es = es.
Proof.
  intros Hs Ht H. unfold ReactFlow.addEdge.
  destruct (decide (source newEdge = "" ∨ target newEdge = "")) as [|Hne];
    [done|].
  rewrite decide_True; [done|].
  apply connectionExists_alreadyConnected; [done..|]. tauto.
Qed.

(** C1, amended. A [connect_nodes] never reads the nodes.  It leaves the
    nodes as they are; it leaves the edges as they are when [sourceId]
    or [targetId] is the empty string or when an edge without handles
    already runs from [sourceId] to [targetId]; in every other case it
    appends exactly one edge from [sourceId] to [targetId], with the
    label (the empty string when none is given) and no causes, whether
    or not the two ids are ids of nodes. *)
Theorem connect_nodes_effect (env : Env) (w : Working)
    (sourceId targetId : string) (argLabel : option string) :
  let w' := executeTool env (connect_nodes sourceId targetId argLabel) w in
  localNodes w' = localNodes w ∧
  (sourceId = "" ∨ targetId = "" ∨
   alreadyConnected sourceId targetId (localEdges w) →
   localEdges w' = localEdges w) ∧
  (sourceId ≠ "" → targetId ≠ "" →
   ¬ alreadyConnected sourceId targetId (localEdges w) →
   ∃ e, localEdges w' = localEdges w ++ [e] ∧
        source e = sourceId ∧ target e = targetId ∧
        label e = Some (JS.or_else argLabel "") ∧
        edgeCauses e = []) ∧
  (∀ ns, localEdges
           (executeTool env (connect_nodes sourceId targetId argLabel)
              (mkWorking ns (localEdges w) (changeLog w)))
         = localEdges w').
Proof.
  simpl. split_and!; [done|..|done].
  - intros H. unfold ReactFlow.addEdge. simpl.
    destruct (decide (sourceId = "" ∨ targetId = "")) as [|Hne]; [done|].
    rewrite decide_True; [done|].
    apply connectionExists_alreadyConnected; [done..|]. simpl.
    destruct H as [?|[?|?]]; [tauto..|done].
  - intros Hs Ht Hnew. unfold ReactFlow.addEdge. simpl.
    rewrite decide_False by tauto.
    rewrite decide_False.
    2:{ intros H. by apply connectionExists_alreadyConnected in H. }
    eexists. split; [done|]. done.
Qed.

(** The property at a source id that no node of the initial document
    has: the edge is appended. *)
Lemma connect_nodes_effect_witness :
  let w := Samples.initialWorking in
  let w' := executeTool Samples.env0 (connect_nodes "ghost" "problem" None) w in
  ∃ e, localEdges w' = localEdges w ++ [e] ∧
       source e = "ghost" ∧ target e = "problem" ∧
       label e = Some "" ∧ edgeCauses e = [].
Proof.
  refine (proj1 (proj2 (proj2 (connect_nodes_effect Samples.env0
            Samples.initialWorking "ghost" "problem" None))) _ _ _).
  - discriminate.
  - discriminate.
  - unfold alreadyConnected. apply (bool_decide_unpack _). vm_compute. exact I.
Defined.

(** C1 as stated fails: no branch of [connect_nodes] looks an id up in
    the nodes.  With a source id that no node has, the edge is added. *)
Lemma connect_nodes_missing_id_counterexample :
  let w := Samples.initialWorking in
  let w' := executeTool Samples.env0 (connect_nodes "ghost" "problem" None) w in
  ("ghost" ∉ node_id <$> localNodes w) ∧
  length (localEdges w') = S (length (localEdges w)) ∧
  localEdges w' ≠ localEdges w.
Proof.
  split; [|split].
  - apply (bool_decide_unpack _). vm_compute. exact I.
  - reflexivity.
  - intros H. apply (f_equal length) in H. vm_compute in H. discriminate.
Qed.

(** ** The change log *)

Lemma executeTool_log (env : Env) (tool : ToolCall) (w : Working) :
  let w' := executeTool env tool w in
  (applied tool w → ∃ line, changeLog w' = changeLog w ++ [line]) ∧
  (¬ applied tool w → w' = w).
Proof.
  destruct tool as [|t d i|s t l|i t d|ti ty nm d|ti ty cn nm d|nm]; simpl.
  - split; [eauto|]. intros H. by destruct H.
  - destruct (addNodeFishbone env t d i (localNodes w) (localEdges w))
      as [[ns es] r]. simpl. split; [eauto|]. intros H. by destruct H.
  - split; [eauto|]. intros H. by destruct H.
  - destruct (list_find _ (localNodes w)) as [[k n]|] eqn:Hfind; simpl.
    + split; [eauto|]. intros H. destruct H. by eapply list_find_id_elem.
    + split; [|done]. intros [? H]%(list_find_id_is_Some node_id). congruence.
  - destruct (decide (isNodeTarget ty)) as [Hn|Hn].
    + destruct (list_find _ (localNodes w)) as [[k n]|] eqn:Hfind; simpl.
      * split; [eauto|]. intros H. destruct H. left.
        split; [done|]. by eapply list_find_id_elem.
      * split; [|done]. intros [[_ H]|[-> _]].
        -- apply (list_find_id_is_Some node_id) in H as [? H]. congruence.
        -- destruct Hn as [?|[?|?]]; done.
    + destruct (decide (ty = Some "EDGE")) as [He|He].
      * destruct (list_find _ (localEdges w)) as [[k e]|] eqn:Hfind; simpl.
        -- split; [eauto|]. intros H. destruct H. right.
           split; [done|]. by eapply list_find_id_elem.
        -- split; [|done]. intros [[? _]|[_ H]]; [done|].
           apply (list_find_id_is_Some edge_id) in H as [? H]. congruence.
      * split; [|done]. intros [[? _]|[? _]]; done.
  - destruct (decide (isNodeTarget ty)) as [Hn|Hn].
    + destruct (list_find _ (localNodes w)) as [[k n]|] eqn:Hfind; simpl.
      * split; [eauto|]. intros H. destruct H. left.
        split; [done|]. by eapply list_find_id_elem.
      * split; [|done]. intros [[_ H]|[-> _]].
        -- apply (list_find_id_is_Some node_id) in H as [? H]. congruence.
        -- destruct Hn as [?|[?|?]]; done.
    + destruct (decide (ty = Some "EDGE")) as [He|He].
      * destruct (list_find _ (localEdges w)) as [[k e]|] eqn:Hfind; simpl.
        -- split; [eauto|]. intros H. destruct H. right.
           split; [done|]. by eapply list_find_id_elem.
        -- split; [|done]. intros [[? _]|[_ H]]; [done|].
           apply (list_find_id_is_Some edge_id) in H as [? H]. congruence.
      * split; [|done]. intros [[? _]|[? _]]; done.
  - split; [done|done].
Qed.

Lemma executeTools_cons (env : Env) (tool : ToolCall) (rest : Batch) (w : Working) :
  executeTools ((env, tool) :: rest) w = executeTools rest (executeTool env tool w).
Proof. reflexivity. Qed.

Lemma executeTools_log_length (batch : Batch) (w : Working) :
  length (changeLog (executeTools batch w))
  = (length (changeLog w) + appliedCount batch w)%nat.
Proof.
  revert w. induction batch as [|[env tool] rest IH]; intros w.
  - simpl. lia.
  - rewrite executeTools_cons, IH. simpl.
    destruct (executeTool_log env tool w) as [Hyes Hno].
    destruct (decide (applied tool w)) as [Ha|Ha].
    + destruct (Hyes Ha) as [line ->]. rewrite length_app. simpl. lia.
    + rewrite (Hno Ha). lia.
Qed.

(** C7, amended. The change log of a batch has exactly one line for
    each tool call that is applied (every [clear_graph], [add_node] and
    [connect_nodes]; an [update_node], [add_cause] or [add_evidence] whose
    target id is found) and none for the others (a target id that is not
    found, an unknown tool), which leave the working copy as it is.  A
    tool call that changes the nodes or the edges is always among the
    applied ones, so it has its line. *)
Theorem changeLog_one_line_per_applied (batch : Batch) (doc : Document) :
  length (applyBatch batch doc).2 = appliedCount batch (startWorking doc) ∧
  ∀ env tool w,
    let w' := executeTool env tool w in
    (applied tool w → ∃ line, changeLog w' = changeLog w ++ [line]) ∧
    (¬ applied tool w → w' = w) ∧
    (localNodes w' ≠ localNodes w ∨ localEdges w' ≠ localEdges w →
     applied tool w).
Proof.
  split.
  - destruct batch as [|c rest]; [done|].
    unfold applyBatch. cbn [snd]. by rewrite executeTools_log_length.
  - intros env tool w. destruct (executeTool_log env tool w) as [Hyes Hno].
    split_and!; [done..|].
    intros Hchange. destruct (decide (applied tool w)) as [|Hna]; [done|].
    simpl in Hchange. rewrite (Hno Hna) in Hchange. tauto.
Qed.

(** C7 as stated fails: an [add_node] that is suppressed as a duplicate,
    and an [add_evidence] whose cause name matches no cause of its
    target, leave the document as it is and still append their line. *)
Lemma changeLog_noop_counterexample :
  let r := applyBatch [(Samples.env0, add_node (Some "People") None (Some "people"))]
                      Constants.INITIAL_DOCUMENT in
  let r' := applyBatch
              [(Samples.env0,
                add_evidence "people" (Some "NODE") "no such factor" "Log 12" None)]
              Constants.INITIAL_DOCUMENT in
  (r.1 = Constants.INITIAL_DOCUMENT ∧ length r.2 = 1%nat) ∧
  (r'.1 = Constants.INITIAL_DOCUMENT ∧ length r'.2 = 1%nat).
Proof. repeat split; reflexivity. Qed.

(** ** [add_evidence] *)

Lemma attachEvidence_spec (env : Env) (causeName : string) (ev : Evidence)
    (cs : list Cause) :
  evidenceAttached env causeName ev cs (attachEvidence env causeName ev cs).
Proof.
  unfold evidenceAttached, attachEvidence. split; [by rewrite length_fmap|].
  intros k r Hk. rewrite list_lookup_fmap, Hk. simpl.
  eexists. split; [done|].
  destruct (decide (causeMatches env causeName r)); simpl; split; done.
Qed.

Lemma attachEvidence_no_match (env : Env) (causeName : string) (ev : Evidence)
    (cs : list Cause) :
  Forall (λ r, ¬ causeMatches env causeName r) cs →
  attachEvidence env causeName ev cs = cs.
Proof.
  unfold attachEvidence. induction 1 as [|r cs Hr _ IH]; [done|].
  rewrite fmap_cons, IH. by rewrite decide_False.
Qed.

Lemma setData_setCauses_id (n : Node) : setData n (setCauses (data n) (causes (data n))) = n.
Proof. by destruct n as [? ? ? []]. Qed.

(** C6. For an [add_evidence] whose target is found (a node, for the
    target type NODE or none; an edge, for the target type EDGE), the new
    evidence is put at the end of the evidence of every cause of the
    target whose name is [causeName] up to the case of letters, that
    is, of which [toLowerCase] gives what it gives of [causeName], the
    whole name being compared; the other causes, the other fields of the
    target, the other nodes and the edges (the other edges and the nodes)
    are what they were, and when no cause matches no evidence list
    changes. *)
Theorem add_evidence_matching (env : Env) (w : Working)
    (targetId : string) (targetType : option string)
    (causeName name : string) (argDescription : option string) :
  let w' := executeTool env
              (add_evidence targetId targetType causeName name argDescription) w in
  let newEvidence := mkEvidence (uuid env) name argDescription in
  (∀ i n, isNodeTarget targetType →
     list_find (λ n, node_id n = targetId) (localNodes w) = Some (i, n) →
     ∃ n', localNodes w' !! i = Some n' ∧ sameButCauses n n' ∧
       evidenceAttached env causeName newEvidence
         (causes (data n)) (causes (data n')) ∧
       length (localNodes w') = length (localNodes w) ∧
       (∀ j, j ≠ i → localNodes w' !! j = localNodes w !! j) ∧
       localEdges w' = localEdges w ∧
       (Forall (λ r, ¬ causeMatches env causeName r) (causes (data n)) →
        localNodes w' = localNodes w)) ∧
  (∀ k e, targetType = Some "EDGE" →
     list_find (λ e, edge_id e = targetId) (localEdges w) = Some (k, e) →
     ∃ e', localEdges w' !! k = Some e' ∧ sameEdgeButCauses e e' ∧
       evidenceAttached env causeName newEvidence (edgeCauses e) (edgeCauses e') ∧
       length (localEdges w') = length (localEdges w) ∧
       (∀ j, j ≠ k → localEdges w' !! j = localEdges w !! j) ∧
       localNodes w' = localNodes w ∧
       (Forall (λ r, ¬ causeMatches env causeName r) (edgeCauses e) →
        edgeCauses e' = edgeCauses e)) ∧
  (JS.lowersASCII (toLowerCase env) →
   (∀ i d evs, causeMatches env "Vendor Outage" (mkCause i "vendor outage" d evs)) ∧
   (∀ i d evs, ¬ causeMatches env "Vendor Outage" (mkCause i "Vendor Outages" d evs))).
Proof.
  simpl. split_and!.
  - intros i n Hty Hfind. rewrite decide_True by done. rewrite Hfind. simpl.
    pose proof Hfind as (Hi & _ & _)%list_find_Some.
    eexists. split.
    { apply list_lookup_insert_eq. by eapply lookup_lt_Some. }
    split_and!; try done.
    + apply attachEvidence_spec.
    + by rewrite length_insert.
    + intros j Hj. by rewrite list_lookup_insert_ne.
    + intros Hnone. rewrite attachEvidence_no_match by done.
      rewrite setData_setCauses_id. by apply list_insert_id.
  - intros k e Hty Hfind. rewrite decide_False by (subst; intros [?|[?|?]]; done).
    rewrite decide_True by done. rewrite Hfind. simpl.
    pose proof Hfind as (Hk & _ & _)%list_find_Some.
    eexists. split.
    { apply list_lookup_insert_eq. by eapply lookup_lt_Some. }
    split_and!; try done.
    + apply attachEvidence_spec.
    + by rewrite length_insert.
    + intros j Hj. by rewrite list_lookup_insert_ne.
    + intros Hnone. unfold edgeCauses at 1. simpl.
      by apply attachEvidence_no_match.
  - intros Hlow. unfold causeMatches. simpl.
    rewrite !Hlow by reflexivity.
    split; intros i d evs; [reflexivity|discriminate].
Qed.

(** The ASCII fold is one of the functions that the last part of the
    property speaks of. *)
Lemma toLowerCaseASCII_lowersASCII : JS.lowersASCII JS.toLowerCaseASCII.
Proof. by intros s _. Qed.

(** The property at the node "people" with the factors "vendor outage"
    and "Vendor Outages". *)
Lemma add_evidence_matching_witness :
  let w := Samples.factorsWorking in
  let w' := executeTool Samples.env0
              (add_evidence "people" (Some "NODE") "Vendor Outage" "Log 12" None) w in
  (∃ n', localNodes w' !! 5%nat = Some n' ∧
     sameButCauses Samples.peopleWithFactors n' ∧
     evidenceAttached Samples.env0 "Vendor Outage"
       (mkEvidence (uuid Samples.env0) "Log 12" None)
       (causes (data Samples.peopleWithFactors)) (causes (data n'))) ∧
  (∀ i d evs,
     causeMatches Samples.env0 "Vendor Outage" (mkCause i "vendor outage" d evs)).
Proof.
  pose proof (add_evidence_matching Samples.env0 Samples.factorsWorking
                "people" (Some "NODE") "Vendor Outage" "Log 12" None) as H.
  cbv zeta in H. destruct H as (Hnode & _ & Hexample).
  split.
  - destruct (Hnode 5%nat Samples.peopleWithFactors)
      as (n' & Hn' & Hsame & Hatt & _).
    + left. reflexivity.
    + vm_compute. reflexivity.
    + exists n'. split; [exact Hn'|]. split; [exact Hsame|exact Hatt].
  - apply Hexample. exact toLowerCaseASCII_lowersASCII.
Defined.

(** ** Classification and placement of a new node *)


Lemma classify_cases (env : Env) (argTitle : option string) :
  classify env argTitle = PROBLEM ∨ classify env argTitle = CATEGORY.
Proof.
  unfold classify. destruct argTitle as [t|]; [|by right].
  destruct (JS.includes _ _); auto.
Qed.

Lemma notSuppressed_duplicate_None (desiredId : option string) (ns : list Node) :
  notSuppressed desiredId ns →
  match JS.truthy_value desiredId with
  | Some d =>
      match list_find (λ n, node_id n = d) ns with
      | Some _ => Some d
      | None => None
      end
  | None => None
  end = None.
Proof.
  intros Hns. destruct (JS.truthy_value desiredId) as [d|] eqn:Hd; [|done].
  by rewrite (list_find_id_None node_id ns d) by by apply Hns.
Qed.

Lemma addNodeFishbone_notSuppressed (env : Env)
    (argTitle argDescription desiredId : option string)
    (ns : list Node) (es : list Edge) :
  notSuppressed desiredId ns →
  addNodeFishbone env argTitle argDescription desiredId ns es
  = (let '(ns1, es1, p) := placeNode env ns es in
     (ns1 ++ [createdNode env argTitle argDescription
                (JS.or_else desiredId ("n-" +:+ pretty (now_node env)))
                (newPosition p)],
      if decide (targetSpineId p = "") then es1
      else es1 ++ [ribEdgeTo env
                     (JS.or_else desiredId ("n-" +:+ pretty (now_node env))) p],
      JS.or_else desiredId ("n-" +:+ pretty (now_node env)))).
Proof.
  intros Hns. unfold addNodeFishbone.
  rewrite notSuppressed_duplicate_None by done.
  by destruct (placeNode env ns es) as [[ns1 es1] p].
Qed.

(** ** Import *)

Lemma isArray_Some (v : option Snapshot.JSON) (items : list Snapshot.JSON) :
  Snapshot.isArray v = Some items ↔ v = Some (Snapshot.JArray items).
Proof.
  destruct v as [[]|]; simpl; split; intros H; try done; by simplify_eq.
Qed.

(** C9. The import replaces the nodes and edges only when the parsed
    file has a [nodes] and an [edges] field that are both arrays.  For
    every other file, the text that does not parse included, one of the
    two error messages is posted and the nodes and edges stay what they
    were.  (A valid file replaces them by its arrays, each node with the
    edit handler attached, unless attaching it throws, which a [null]
    element does: then too the error message is posted and nothing is
    replaced.) *)
Theorem import_validation (JSON_parse : string → option Snapshot.JSON)
    (content : string) (st : Snapshot.Store) :
  let st' := Snapshot.handleFileChange JSON_parse (Some content) st in
  (¬ Snapshot.validPayload JSON_parse content →
     Snapshot.storeNodes st' = Snapshot.storeNodes st ∧
     Snapshot.storeEdges st' = Snapshot.storeEdges st ∧
     (Snapshot.messages st' = Snapshot.messages st ++ ["Invalid file format."] ∨
      Snapshot.messages st' = Snapshot.messages st ++ ["Error parsing file."])) ∧
  (Snapshot.storeNodes st' ≠ Snapshot.storeNodes st ∨
   Snapshot.storeEdges st' ≠ Snapshot.storeEdges st →
     Snapshot.validPayload JSON_parse content) ∧
  (∀ data ns es,
     JSON_parse content = Some data →
     Snapshot.getProp data "nodes" = Snapshot.Normal (Some (Snapshot.JArray ns)) →
     Snapshot.getProp data "edges" = Snapshot.Normal (Some (Snapshot.JArray es)) →
     match Snapshot.mapInject ns with
     | Snapshot.Normal importedNodes =>
         Snapshot.storeNodes st' = importedNodes ∧
         Snapshot.storeEdges st' = es ∧
         Snapshot.messages st' =
           Snapshot.messages st ++
             ["Imported fishbone diagram with " +:+ pretty (length ns) +:+ " nodes."]
     | Snapshot.Throw =>
         Snapshot.storeNodes st' = Snapshot.storeNodes st ∧
         Snapshot.storeEdges st' = Snapshot.storeEdges st ∧
         Snapshot.messages st' = Snapshot.messages st ++ ["Error parsing file."]
     end).
Proof.
  assert (∀ st' : Snapshot.Store,
    st' = Snapshot.handleFileChange JSON_parse (Some content) st →
    Snapshot.validPayload JSON_parse content ∨
    Snapshot.storeNodes st' = Snapshot.storeNodes st ∧
    Snapshot.storeEdges st' = Snapshot.storeEdges st ∧
    (Snapshot.messages st' = Snapshot.messages st ++ ["Invalid file format."] ∨
     Snapshot.messages st' = Snapshot.messages st ++ ["Error parsing file."]))
    as Hcases.
  { intros st' ->. unfold Snapshot.handleFileChange, Snapshot.tryImport.
    destruct (JSON_parse content) as [data|] eqn:Hparse; [|simpl; auto].
    destruct (Snapshot.getProp data "nodes") as [dataNodes|] eqn:Hn; [|simpl; auto].
    destruct (Snapshot.isArray dataNodes) as [ns|] eqn:Hns; [|simpl; auto].
    apply isArray_Some in Hns as ->.
    destruct (Snapshot.getProp data "edges") as [dataEdges|] eqn:He; [|simpl; auto].
    destruct (Snapshot.isArray dataEdges) as [es|] eqn:Hes; [|simpl; auto].
    apply isArray_Some in Hes as ->.
    left. by exists data, ns, es. }
  split_and!.
  - intros Hnot. by destruct (Hcases _ eq_refl) as [|?].
  - intros Hchanged. destruct (Hcases _ eq_refl) as [|(Hn & He & _)]; [done|].
    simpl in Hchanged. tauto.
  - intros data ns es Hparse Hn He. simpl.
    unfold Snapshot.handleFileChange, Snapshot.tryImport.
    rewrite Hparse, Hn. simpl. rewrite He. simpl.
    destruct (Snapshot.mapInject ns) as [importedNodes|]; simpl; done.
Qed.

(** The property at a file whose [nodes] field is a string. *)
Lemma import_validation_witness :
  let parse := λ _ : string,
    Some (Snapshot.JObject [("nodes", Snapshot.JString "none");
                            ("edges", Snapshot.JArray [])]) in
  let st := Snapshot.mkStore [Snapshot.JNull] [] [] in
  let st' := Snapshot.handleFileChange parse (Some "{}") st in
  Snapshot.storeNodes st' = [Snapshot.JNull] ∧ Snapshot.storeEdges st' = [] ∧
  (Snapshot.messages st' = ["Invalid file format."] ∨
   Snapshot.messages st' = ["Error parsing file."]).
Proof.
  refine (proj1 (import_validation
            (λ _, Some (Snapshot.JObject [("nodes", Snapshot.JString "none");
                                          ("edges", Snapshot.JArray [])]))
            "{}" (Snapshot.mkStore [Snapshot.JNull] [] [])) _).
  intros (data & ns & es & Hparse & Hn & _).
  injection Hparse as <-. vm_compute in Hn. discriminate Hn.
Defined.

(** ** The structure of the document is kept by valid tool calls *)

(** *** Lists *)

Section ListFacts.
Context {A : Type}.
Implicit Types l : list A.

Lemma filter_ext_Forall (P Q : A → Prop)
    `{!∀ x, Decision (P x)} `{!∀ x, Decision (Q x)} l :
  Forall (λ x, P x ↔ Q x) l → filter P l = filter Q l.
Proof.
  induction 1 as [|a l Ha _ IH]; [done|].
  rewrite !filter_cons, IH.
  destruct (decide (P a)), (decide (Q a)); tauto.
Qed.

Lemma length_filter_delete (P : A → Prop) `{!∀ x, Decision (P x)} l i :
  (length (filter P (delete i l)) ≤ length (filter P l))%nat.
Proof.
  revert i. induction l as [|a l IH]; intros [|i]; simpl; try done.
  - rewrite filter_cons. destruct (decide (P a)); simpl; lia.
  - rewrite !filter_cons. specialize (IH i).
    destruct (decide (P a)); simpl; lia.
Qed.

Lemma list_find_filter_None (P Q : A → Prop)
    `{!∀ x, Decision (P x)} `{!∀ x, Decision (Q x)} l :
  list_find P (filter Q l) = None → filter (λ a, Q a ∧ P a) l = [].
Proof.
  rewrite list_find_None. induction l as [|a l IH]; [done|].
  rewrite !filter_cons. destruct (decide (Q a)) as [Hq|Hq].
  - intros [Hp Hl]%Forall_cons. rewrite decide_False by tauto. by apply IH.
  - intros Hl. rewrite decide_False by tauto. by apply IH.
Qed.

Lemma length_filter_fmap_eq {B} (f : A → B) (P Q : A → Prop)
    `{!∀ x, Decision (P x)} `{!∀ x, Decision (Q x)} l1 l2 :
  f <$> l1 = f <$> l2 →
  (∀ a b, f a = f b → (P a ↔ Q b)) →
  length (filter P l1) = length (filter Q l2).
Proof.
  intros Hf HPQ. revert l2 Hf.
  induction l1 as [|a l1 IH]; intros [|b l2] Hf; try done.
  rewrite !fmap_cons in Hf. injection Hf as Hab Hf.
  rewrite !filter_cons. specialize (IH _ Hf). specialize (HPQ _ _ Hab).
  destruct (decide (P a)), (decide (Q b)); simpl; try tauto; lia.
Qed.

Lemma Forall_fmap_eq {B} (f : A → B) (P : A → Prop) l1 l2 :
  f <$> l1 = f <$> l2 →
  (∀ a b, f a = f b → P a → P b) →
  Forall P l1 → Forall P l2.
Proof.
  intros Hf HP Hl. revert l2 Hf.
  induction Hl as [|a l1 Ha _ IH]; intros [|b l2] Hf; try done.
  rewrite !fmap_cons in Hf. injection Hf as Hab Hf.
  constructor; eauto.
Qed.

End ListFacts.

(** *** The sorted spine *)

Lemma insert_by_x_perm (a : Node) (l : list Node) : insert_by_x a l ≡ₚ a :: l.
Proof.
  induction l as [|b l IH]; simpl; [done|].
  destruct (decide _); [done|]. rewrite IH. apply Permutation_swap.
Qed.

Lemma sort_by_x_perm (l : list Node) : sort_by_x l ≡ₚ l.
Proof.
  induction l as [|a l IH]; simpl; [done|].
  by rewrite insert_by_x_perm, IH.
Qed.

Lemma spineNodes_of_elem (ns : list Node) (s : Node) :
  s ∈ spineNodes_of ns ↔
  s ∈ ns ∧ data_type (data s) = SPINE ∧ node_id s ≠ "spine_tail".
Proof.
  unfold spineNodes_of. rewrite sort_by_x_perm, list_elem_of_filter. tauto.
Qed.

Lemma spineNodes_of_length (ns : list Node) :
  length (spineNodes_of ns)
  = length (filter (λ n, data_type (data n) = SPINE ∧ node_id n ≠ "spine_tail") ns).
Proof. unfold spineNodes_of. by rewrite sort_by_x_perm. Qed.

Lemma spineNodes_length_snoc_other (ns : list Node) (n : Node) :
  data_type (data n) ≠ SPINE →
  length (spineNodes_of (ns ++ [n])) = length (spineNodes_of ns).
Proof.
  intros Hn. rewrite !spineNodes_of_length, filter_app, length_app.
  rewrite filter_cons, decide_False by tauto. simpl. lia.
Qed.

Lemma spineNodes_length_snoc_spine (ns : list Node) (n : Node) :
  data_type (data n) = SPINE → node_id n ≠ "spine_tail" →
  length (spineNodes_of (ns ++ [n])) = S (length (spineNodes_of ns)).
Proof.
  intros Hn Hid. rewrite !spineNodes_of_length, filter_app, length_app.
  rewrite filter_cons, decide_True by tauto. simpl. lia.
Qed.

Lemma spineNodes_length_shape (ns1 ns2 : list Node) :
  nodeShape <$> ns1 = nodeShape <$> ns2 →
  length (spineNodes_of ns1) = length (spineNodes_of ns2).
Proof.
  intros Hs. rewrite !spineNodes_of_length.
  apply (length_filter_fmap_eq nodeShape); [done|].
  intros a b [= -> -> _]. done.
Qed.

(** *** The node an edge starts at *)

Lemma sourceNode_app_l (ns ns' : list Node) (e : Edge) :
  source e ∈ nodeIds ns → sourceNode (ns ++ ns') e = sourceNode ns e.
Proof.
  intros [[i n] Hfind]%(list_find_id_is_Some node_id). unfold sourceNode.
  by rewrite (list_find_app_l _ _ _ _ _ Hfind), Hfind.
Qed.

Lemma sourceNode_snoc_fresh (ns : list Node) (n : Node) (e : Edge) :
  source e ∉ nodeIds ns → node_id n = source e →
  sourceNode (ns ++ [n]) e = Some n.
Proof.
  intros Hfresh Hid. unfold sourceNode.
  rewrite list_find_app_r by by apply list_find_id_None.
  simpl. by rewrite decide_True.
Qed.

Lemma sourceNode_unique (ns : list Node) (n : Node) (e : Edge) :
  NoDup (nodeIds ns) → n ∈ ns → node_id n = source e →
  sourceNode ns e = Some n.
Proof.
  intros Hnd Hn Hid. unfold sourceNode.
  destruct (list_find _ ns) as [[i n']|] eqn:Hfind.
  - apply list_find_Some in Hfind as (Hi & Hid' & _). simpl. f_equal.
    apply list_elem_of_lookup in Hn as [j Hj].
    assert (i = j) as ->; [|congruence].
    eapply (NoDup_lookup (nodeIds ns)); [done|..].
    + unfold nodeIds. by rewrite list_lookup_fmap, Hi.
    + unfold nodeIds. rewrite list_lookup_fmap, Hj. simpl. congruence.
  - apply list_find_None in Hfind. rewrite Forall_forall in Hfind.
    by destruct (Hfind n Hn).
Qed.

Lemma sourceHeight_shape (ns1 ns2 : list Node) (e : Edge) :
  nodeShape <$> ns1 = nodeShape <$> ns2 →
  sourceHeight ns1 e = sourceHeight ns2 e.
Proof.
  unfold sourceHeight, sourceNode. revert ns2.
  induction ns1 as [|a ns1 IH]; intros [|b ns2] Hs; try done.
  rewrite !fmap_cons in Hs. injection Hs as Hid _ Hy Hs.
  simpl. rewrite <-Hid.
  destruct (decide (node_id a = source e)); simpl; [by f_equal|].
  specialize (IH _ Hs).
  destruct (list_find _ ns1) as [[??]|], (list_find _ ns2) as [[??]|];
    simpl in *; congruence.
Qed.

Lemma isTopRib_height (ns : list Node) (e : Edge) :
  isTopRib ns e ↔ ∃ v, sourceHeight ns e = Some v ∧ v < 300.
Proof.
  unfold isTopRib, sourceHeight. destruct (sourceNode ns e) as [n|]; simpl.
  - split; [eauto|]. by intros (v & [= <-] & ?).
  - split; [done|]. by intros (v & ? & _).
Qed.

Lemma isBottomRib_height (ns : list Node) (e : Edge) :
  isBottomRib ns e ↔ ∃ v, sourceHeight ns e = Some v ∧ v > 300.
Proof.
  unfold isBottomRib, sourceHeight. destruct (sourceNode ns e) as [n|]; simpl.
  - split; [eauto|]. by intros (v & [= <-] & ?).
  - split; [done|]. by intros (v & ? & _).
Qed.

Lemma ribCounts_ext (ns ns' : list Node) (es : list Edge) (sid : string) :
  Forall (λ e, sourceHeight ns e = sourceHeight ns' e) es →
  topRibCount ns es sid = topRibCount ns' es sid ∧
  bottomRibCount ns es sid = bottomRibCount ns' es sid.
Proof.
  intros Hes. unfold topRibCount, bottomRibCount. split; f_equal.
  - apply filter_ext_Forall. eapply Forall_impl; [done|]. intros e He. simpl.
    by rewrite !isTopRib_height, He.
  - apply filter_ext_Forall. eapply Forall_impl; [done|]. intros e He. simpl.
    by rewrite !isBottomRib_height, He.
Qed.

(** *** Counting ribs *)

Lemma topRibCount_snoc (ns : list Node) (es : list Edge) (e : Edge) (sid : string) :
  topRibCount ns (es ++ [e]) sid
  = (topRibCount ns es sid +
     if decide (target e = sid ∧ isTopRib ns e) then 1 else 0)%nat.
Proof.
  unfold topRibCount. rewrite filter_app, length_app, filter_cons, filter_nil.
  by destruct (decide _).
Qed.

Lemma bottomRibCount_snoc (ns : list Node) (es : list Edge) (e : Edge) (sid : string) :
  bottomRibCount ns (es ++ [e]) sid
  = (bottomRibCount ns es sid +
     if decide (target e = sid ∧ isBottomRib ns e) then 1 else 0)%nat.
Proof.
  unfold bottomRibCount. rewrite filter_app, length_app, filter_cons, filter_nil.
  by destruct (decide _).
Qed.

Lemma ribCounts_delete (ns : list Node) (es : list Edge) (i : nat) (sid : string) :
  (topRibCount ns (delete i es) sid ≤ topRibCount ns es sid)%nat ∧
  (bottomRibCount ns (delete i es) sid ≤ bottomRibCount ns es sid)%nat.
Proof. split; apply length_filter_delete. Qed.

Lemma endpointsIn_heights (ns ns' : list Node) (es : list Edge) :
  endpointsIn ns es →
  Forall (λ e, sourceHeight ns e = sourceHeight (ns ++ ns') e) es.
Proof.
  intros Hes. eapply Forall_impl; [exact Hes|]. intros e [Hs _]. simpl.
  unfold sourceHeight. by rewrite sourceNode_app_l.
Qed.

Lemma ribCounts_app_nodes (ns ns' : list Node) (es : list Edge) (sid : string) :
  endpointsIn ns es →
  topRibCount (ns ++ ns') es sid = topRibCount ns es sid ∧
  bottomRibCount (ns ++ ns') es sid = bottomRibCount ns es sid.
Proof.
  intros Hes.
  destruct (ribCounts_ext ns (ns ++ ns') es sid) as [-> ->];
    [by apply endpointsIn_heights|done].
Qed.

Lemma ribCounts_no_target (ns : list Node) (es : list Edge) (sid : string) :
  Forall (λ e, target e ≠ sid) es →
  topRibCount ns es sid = 0%nat ∧ bottomRibCount ns es sid = 0%nat.
Proof.
  intros Hes. unfold topRibCount, bottomRibCount.
  split; apply length_zero_iff_nil.
  - induction Hes as [|e es He _ IH]; [done|].
    by rewrite filter_cons, decide_False by tauto.
  - induction Hes as [|e es He _ IH]; [done|].
    by rewrite filter_cons, decide_False by tauto.
Qed.

Lemma endpointsIn_fresh_target (ns : list Node) (es : list Edge) (sid : string) :
  endpointsIn ns es → sid ∉ nodeIds ns → Forall (λ e, target e ≠ sid) es.
Proof.
  intros Hes Hsid. eapply Forall_impl; [exact Hes|].
  intros e [_ Ht] Heq. by rewrite Heq in Ht.
Qed.

Lemma endpointsIn_app_nodes (ns ns' : list Node) (es : list Edge) :
  endpointsIn ns es → endpointsIn (ns ++ ns') es.
Proof.
  intros Hes. eapply Forall_impl; [exact Hes|].
  intros e [Hs Ht]. unfold nodeIds. rewrite fmap_app, !elem_of_app. auto.
Qed.

(** *** Shapes *)

Lemma nodeIds_shape (ns1 ns2 : list Node) :
  nodeShape <$> ns1 = nodeShape <$> ns2 → nodeIds ns1 = nodeIds ns2.
Proof.
  intros Hs. unfold nodeIds.
  change node_id with ((λ s : string * NodeType * Z, s.1.1) ∘ nodeShape).
  by rewrite !list_fmap_compose, Hs.
Qed.

Lemma shape_insert (ns : list Node) (i : nat) (n n' : Node) :
  ns !! i = Some n → nodeShape n' = nodeShape n →
  nodeShape <$> <[i:=n']> ns = nodeShape <$> ns.
Proof.
  intros Hi Hs. rewrite list_fmap_insert, Hs.
  apply list_insert_id. by rewrite list_lookup_fmap, Hi.
Qed.

Lemma edgeShape_insert (es : list Edge) (i : nat) (e e' : Edge) :
  es !! i = Some e → edgeShape e' = edgeShape e →
  edgeShape <$> <[i:=e']> es = edgeShape <$> es.
Proof.
  intros Hi Hs. rewrite list_fmap_insert, Hs.
  apply list_insert_id. by rewrite list_lookup_fmap, Hi.
Qed.

Lemma ribCounts_edgeShape (ns : list Node) (es es' : list Edge) (sid : string) :
  edgeShape <$> es' = edgeShape <$> es →
  topRibCount ns es' sid = topRibCount ns es sid ∧
  bottomRibCount ns es' sid = bottomRibCount ns es sid.
Proof.
  intros Hs. unfold topRibCount, bottomRibCount.
  split; apply (length_filter_fmap_eq edgeShape); try done.
  - intros a b [= Hsrc Htgt]. unfold isTopRib, sourceNode. by rewrite Hsrc, Htgt.
  - intros a b [= Hsrc Htgt]. unfold isBottomRib, sourceNode. by rewrite Hsrc, Htgt.
Qed.

Lemma endpointsIn_edgeShape (ns : list Node) (es es' : list Edge) :
  edgeShape <$> es' = edgeShape <$> es → endpointsIn ns es → endpointsIn ns es'.
Proof.
  intros Hs. apply (Forall_fmap_eq edgeShape); [done|].
  by intros a b [= -> ->].
Qed.

Lemma Fish_nodes_shape (ns ns' : list Node) (es : list Edge) :
  nodeShape <$> ns' = nodeShape <$> ns → Fish ns es → Fish ns' es.
Proof.
  intros Hs [Hnd Hep Hpb Hbl Hsl Hau].
  pose proof (nodeIds_shape _ _ Hs) as Hids.
  split.
  - by rewrite Hids.
  - unfold endpointsIn. by rewrite Hids.
  - rewrite <-Hpb. unfold problemCountIn.
    apply (length_filter_fmap_eq nodeShape); [done|].
    by intros a b [= _ -> _].
  - eapply (Forall_fmap_eq nodeShape); [symmetry; exact Hs| |exact Hbl].
    intros a b [= _ -> ->]. done.
  - unfold slotsRespected in *.
    assert (Forall (λ s, data_type (data s) = SPINE →
                         (topRibCount ns es (node_id s) ≤ 1)%nat ∧
                         (bottomRibCount ns es (node_id s) ≤ 1)%nat) ns') as Hsl'.
    { eapply (Forall_fmap_eq nodeShape); [symmetry; exact Hs| |exact Hsl].
      intros a b [= -> -> _] Ha Hb. by apply Ha. }
    eapply Forall_impl; [exact Hsl'|]. intros s Hcount Hspine. simpl in *.
    destruct (ribCounts_ext ns' ns es (node_id s)) as [-> ->]; [|by apply Hcount].
    apply Forall_forall. intros e _. by apply sourceHeight_shape.
  - intros j Hj. rewrite Hids in Hj.
    rewrite (spineNodes_length_shape _ _ Hs). by apply Hau.
Qed.

Lemma Fish_edges_shape (ns : list Node) (es es' : list Edge) :
  edgeShape <$> es' = edgeShape <$> es → Fish ns es → Fish ns es'.
Proof.
  intros Hs [Hnd Hep Hpb Hbl Hsl Hau].
  split; try done.
  - by eapply endpointsIn_edgeShape.
  - unfold slotsRespected in *. eapply Forall_impl; [exact Hsl|].
    intros s Hcount Hspine. simpl in *.
    destruct (ribCounts_edgeShape ns es es' (node_id s) Hs) as [-> ->]. auto.
Qed.

Lemma Cleared_nodes_shape (ns ns' : list Node) (es : list Edge) :
  nodeShape <$> ns' = nodeShape <$> ns → Cleared ns es → Cleared ns' es.
Proof.
  intros Hs [Hep Hk]. split.
  - unfold endpointsIn. by rewrite (nodeIds_shape _ _ Hs).
  - eapply (Forall_fmap_eq nodeShape); [symmetry; exact Hs| |exact Hk].
    by intros a b [= _ -> _].
Qed.

Lemma Cleared_edges_shape (ns : list Node) (es es' : list Edge) :
  edgeShape <$> es' = edgeShape <$> es → Cleared ns es → Cleared ns es'.
Proof.
  intros Hs [Hep Hk]. split; [|done]. by eapply endpointsIn_edgeShape.
Qed.

(** *** Steps that keep the structure *)

Lemma Fish_delete_edge (ns : list Node) (es : list Edge) (i : nat) :
  Fish ns es → Fish ns (delete i es).
Proof.
  intros [Hnd Hep Hpb Hbl Hsl Hau]. split; try done.
  - by apply Forall_delete.
  - unfold slotsRespected in *. eapply Forall_impl; [exact Hsl|].
    intros s Hcount Hspine. simpl in *.
    destruct (ribCounts_delete ns es i (node_id s)).
    destruct (Hcount Hspine). lia.
Qed.

Lemma Fish_snoc_edge (ns : list Node) (es : list Edge) (e : Edge) :
  Fish ns es →
  source e ∈ nodeIds ns → target e ∈ nodeIds ns →
  (∀ s, s ∈ ns → data_type (data s) = SPINE → target e = node_id s →
        ¬ isTopRib ns e ∧ ¬ isBottomRib ns e) →
  Fish ns (es ++ [e]).
Proof.
  intros [Hnd Hep Hpb Hbl Hsl Hau] Hs Ht Hneutral. split; try done.
  - apply Forall_app. split; [done|]. by constructor.
  - unfold slotsRespected in *. rewrite Forall_forall in Hsl.
    apply Forall_forall. intros s Hin Hspine.
    rewrite topRibCount_snoc, bottomRibCount_snoc.
    destruct (Hsl s Hin Hspine) as [Htop Hbot].
    destruct (decide (target e = node_id s ∧ isTopRib ns e)) as [[Heq Hr]|_];
      [by destruct (Hneutral s Hin Hspine Heq)|].
    destruct (decide (target e = node_id s ∧ isBottomRib ns e)) as [[Heq Hr]|_];
      [by destruct (Hneutral s Hin Hspine Heq)|].
    lia.
Qed.

Lemma Fish_snoc_edge_slot (ns : list Node) (es : list Edge) (e : Edge) :
  Fish ns es →
  source e ∈ nodeIds ns → target e ∈ nodeIds ns →
  (∀ s, s ∈ ns → data_type (data s) = SPINE → target e = node_id s →
        (isTopRib ns e → topRibCount ns es (node_id s) = 0%nat) ∧
        (isBottomRib ns e → bottomRibCount ns es (node_id s) = 0%nat)) →
  Fish ns (es ++ [e]).
Proof.
  intros [Hnd Hep Hpb Hbl Hsl Hau] Hs Ht Hfree. split; try done.
  - apply Forall_app. split; [done|]. by constructor.
  - unfold slotsRespected in *. rewrite Forall_forall in Hsl.
    apply Forall_forall. intros s Hin Hspine.
    rewrite topRibCount_snoc, bottomRibCount_snoc.
    destruct (Hsl s Hin Hspine) as [Htop Hbot].
    destruct (decide (target e = node_id s ∧ isTopRib ns e)) as [[Heq Hr]|_];
    destruct (decide (target e = node_id s ∧ isBottomRib ns e)) as [[Heq' Hr']|_];
      try (destruct (Hfree s Hin Hspine Heq) as [Hft Hfb]);
      try (destruct (Hfree s Hin Hspine Heq') as [Hft Hfb]);
      try specialize (Hft Hr); try specialize (Hfb Hr'); lia.
Qed.

Lemma Fish_snoc_spine (ns : list Node) (es : list Edge) (N : Node) :
  Fish ns es →
  data_type (data N) = SPINE → y (position N) = 300 →
  node_id N = autoSpineId (S (length (spineNodes_of ns))) →
  Fish (ns ++ [N]) es ∧
  (node_id N ∉ nodeIds ns) ∧
  topRibCount (ns ++ [N]) es (node_id N) = 0%nat ∧
  bottomRibCount (ns ++ [N]) es (node_id N) = 0%nat.
Proof.
  intros [Hnd Hep Hpb Hbl Hsl Hau] Hkind Hy Hid.
  assert (node_id N ∉ nodeIds ns) as Hfresh.
  { rewrite Hid. intros Hin%Hau. lia. }
  assert (length (spineNodes_of (ns ++ [N])) = S (length (spineNodes_of ns)))
    as Hlen.
  { apply spineNodes_length_snoc_spine; [done|].
    rewrite Hid. apply autoSpineId_not_tail. }
  destruct (ribCounts_no_target (ns ++ [N]) es (node_id N)) as [Htop0 Hbot0].
  { by eapply endpointsIn_fresh_target. }
  split_and!; try done. split.
  - unfold nodeIds. rewrite fmap_app. apply NoDup_app. split_and!; [done| |].
    + intros i Hi [->|[]%elem_of_nil]%elem_of_cons. done.
    + apply NoDup_singleton.
  - by apply endpointsIn_app_nodes.
  - unfold problemCountIn in *. rewrite filter_app, length_app, filter_cons.
    rewrite decide_False by congruence. simpl. lia.
  - apply Forall_app. split; [done|]. by constructor.
  - unfold slotsRespected in *. apply Forall_app. split.
    + eapply Forall_impl; [exact Hsl|]. intros s Hcount Hspine. simpl in *.
      destruct (ribCounts_app_nodes ns [N] es (node_id s) Hep) as [-> ->]. auto.
    + constructor; [|done]. intros _. rewrite Htop0, Hbot0. lia.
  - intros j. unfold nodeIds. rewrite fmap_app, elem_of_app, Hlen.
    intros [Hin|[Hj|[]%elem_of_nil]%elem_of_cons].
    + apply Hau in Hin. lia.
    + simpl in Hj. rewrite Hid in Hj. apply autoSpineId_inj in Hj. lia.
Qed.

Lemma Fish_snoc_rib (ns : list Node) (es : list Edge) (new : Node) (rib : Edge)
    (sid : string) :
  Fish ns es →
  node_id new ∉ nodeIds ns →
  (∀ j, node_id new = autoSpineId j → (j ≤ length (spineNodes_of ns))%nat) →
  data_type (data new) = CATEGORY →
  source rib = node_id new → target rib = sid → sid ∈ nodeIds ns →
  (y (position new) < 300 ∧ topRibCount ns es sid = 0%nat) ∨
  (y (position new) > 300 ∧ bottomRibCount ns es sid = 0%nat) →
  Fish (ns ++ [new]) (es ++ [rib]).
Proof.
  intros [Hnd Hep Hpb Hbl Hsl Hau] Hfresh Hnotauto Hkind Hsrc Htgt Hsid Hslot.
  assert (sourceNode (ns ++ [new]) rib = Some new) as Hsn.
  { apply sourceNode_snoc_fresh; [by rewrite Hsrc|done]. }
  assert (isTopRib (ns ++ [new]) rib ↔ y (position new) < 300) as Htr
    by (unfold isTopRib; by rewrite Hsn).
  assert (isBottomRib (ns ++ [new]) rib ↔ y (position new) > 300) as Hbr
    by (unfold isBottomRib; by rewrite Hsn).
  split.
  - unfold nodeIds. rewrite fmap_app. apply NoDup_app. split_and!; [done| |].
    + intros i Hi [->|[]%elem_of_nil]%elem_of_cons. done.
    + apply NoDup_singleton.
  - apply Forall_app. split; [by apply endpointsIn_app_nodes|].
    constructor; [|done]. unfold nodeIds.
    rewrite fmap_app, !elem_of_app, Hsrc, Htgt. split; [right|left; done].
    apply list_elem_of_here.
  - unfold problemCountIn in *. rewrite filter_app, length_app, filter_cons.
    rewrite decide_False by congruence. simpl. lia.
  - apply Forall_app. split; [done|]. constructor; [|done]. congruence.
  - unfold slotsRespected in *. apply Forall_app. split.
    + eapply Forall_impl; [exact Hsl|]. intros s Hcount Hspine. simpl in *.
      rewrite topRibCount_snoc, bottomRibCount_snoc.
      destruct (ribCounts_app_nodes ns [new] es (node_id s) Hep) as [-> ->].
      destruct (Hcount Hspine) as [Htop Hbot].
      destruct (decide (target rib = node_id s ∧ isTopRib (ns ++ [new]) rib))
        as [[Heq Hlt%Htr]|_];
      destruct (decide (target rib = node_id s ∧ isBottomRib (ns ++ [new]) rib))
        as [[Heq' Hgt%Hbr]|_]; try lia.
      * destruct Hslot as [[_ H0]|[? _]]; [|lia].
        rewrite <-Htgt, Heq in H0. lia.
      * destruct Hslot as [[? _]|[_ H0]]; [lia|].
        rewrite <-Htgt, Heq' in H0. lia.
    + constructor; [|done]. congruence.
  - intros j. unfold nodeIds. rewrite fmap_app, elem_of_app.
    rewrite spineNodes_length_snoc_other by congruence.
    intros [Hin|[Hj|[]%elem_of_nil]%elem_of_cons]; [by apply Hau|].
    simpl in Hj. by apply Hnotauto.
Qed.

(** *** The slot search *)

Lemma topRib_find_None (ns : list Node) (es : list Edge) (sid : string) :
  list_find (isTopRib ns) (filter (λ e, target e = sid) es) = None ↔
  topRibCount ns es sid = 0%nat.
Proof.
  unfold topRibCount. rewrite length_zero_iff_nil. split.
  - apply list_find_filter_None.
  - intros Hnil. apply list_find_None, Forall_forall.
    intros e [Ht He]%list_elem_of_filter Hr.
    assert (e ∈ filter (λ e, target e = sid ∧ isTopRib ns e) es) as Hin
      by by apply list_elem_of_filter.
    rewrite Hnil in Hin. by apply elem_of_nil in Hin.
Qed.

Lemma bottomRib_find_None (ns : list Node) (es : list Edge) (sid : string) :
  list_find (isBottomRib ns) (filter (λ e, target e = sid) es) = None ↔
  bottomRibCount ns es sid = 0%nat.
Proof.
  unfold bottomRibCount. rewrite length_zero_iff_nil. split.
  - apply list_find_filter_None.
  - intros Hnil. apply list_find_None, Forall_forall.
    intros e [Ht He]%list_elem_of_filter Hr.
    assert (e ∈ filter (λ e, target e = sid ∧ isBottomRib ns e) es) as Hin
      by by apply list_elem_of_filter.
    rewrite Hnil in Hin. by apply elem_of_nil in Hin.
Qed.

(** The slot search returns the first spine node, in the order it is
    given them, one slot of which is free, with the slot above when it
    is free and the slot below otherwise; it returns its initial values
    when every slot is taken. *)
Lemma checkSlots_spec (ns : list Node) (es : list Edge) (spines : list Node) :
  let full := λ s : Node, topRibCount ns es (node_id s) ≠ 0%nat ∧
                          bottomRibCount ns es (node_id s) ≠ 0%nat in
  let p := checkSlots ns es spines in
  (Forall full spines ∧ p = mkPlacement "" (mkPos 0 0) top) ∨
  (∃ pre spine post,
     spines = pre ++ spine :: post ∧ Forall full pre ∧
     ((topRibCount ns es (node_id spine) = 0%nat ∧
       p = mkPlacement (node_id spine)
             (mkPos (JS.sub (x (position spine)) 150) 50) top) ∨
      (topRibCount ns es (node_id spine) ≠ 0%nat ∧
       bottomRibCount ns es (node_id spine) = 0%nat ∧
       p = mkPlacement (node_id spine)
             (mkPos (JS.sub (x (position spine)) 150) 550) bottom))).
Proof.
  simpl. induction spines as [|spine rest IH]; [by left|].
  simpl.
  destruct (list_find (isTopRib ns) _) as [hit|] eqn:Htop.
  - assert (topRibCount ns es (node_id spine) ≠ 0%nat) as Htop'.
    { intros H0%topRib_find_None. congruence. }
    destruct (list_find (isBottomRib ns) _) as [hit'|] eqn:Hbot.
    + assert (bottomRibCount ns es (node_id spine) ≠ 0%nat) as Hbot'.
      { intros H0%bottomRib_find_None. congruence. }
      destruct IH as [[Hall ->]|(pre & s & post & -> & Hpre & Hs)].
      * left. split; [|done]. by constructor.
      * right. exists (spine :: pre), s, post. split; [done|].
        split; [by constructor|done].
    + right. exists [], spine, rest. split; [done|]. split; [done|].
      right. split; [done|]. split; [|done]. by apply bottomRib_find_None.
  - right. exists [], spine, rest. split; [done|]. split; [done|].
    left. split; [|done]. by apply topRib_find_None.
Qed.

Lemma checkSlots_found (ns : list Node) (es : list Edge) (spines : list Node) :
  let p := checkSlots ns es spines in
  targetSpineId p ≠ "" →
  ∃ spine, spine ∈ spines ∧ targetSpineId p = node_id spine ∧
    ((y (newPosition p) = 50 ∧ topRibCount ns es (node_id spine) = 0%nat) ∨
     (y (newPosition p) = 550 ∧ bottomRibCount ns es (node_id spine) = 0%nat)).
Proof.
  simpl. intros Hne.
  destruct (checkSlots_spec ns es spines)
    as [[_ Hp]|(pre & spine & post & -> & _ & [[H0 Hp]|(_ & H0 & Hp)])];
    rewrite Hp in *; simpl in *; [done|..].
  - exists spine. split; [|by auto]. apply elem_of_app. right. apply list_elem_of_here.
  - exists spine. split; [|by auto]. apply elem_of_app. right. apply list_elem_of_here.
Qed.

Lemma baseline_not_rib (ns : list Node) (e : Edge) :
  sourceHeight ns e = Some 300 → ¬ isTopRib ns e ∧ ¬ isBottomRib ns e.
Proof.
  intros Hh. rewrite isTopRib_height, isBottomRib_height, Hh.
  split; intros (v & [= <-] & ?); lia.
Qed.

Lemma list_find_id_unique (ns : list Node) (n : Node) :
  NoDup (nodeIds ns) → n ∈ ns →
  ∃ i, list_find (λ m, node_id m = node_id n) ns = Some (i, n) ∧ ns !! i = Some n.
Proof.
  intros Hnd Hn.
  destruct (list_find_elem_of (λ m, node_id m = node_id n) ns n Hn eq_refl)
    as [[i m] Hfind].
  pose proof Hfind as (Hi & Hid & _)%list_find_Some.
  apply list_elem_of_lookup in Hn as [j Hj].
  assert (i = j) as ->.
  { eapply (NoDup_lookup (nodeIds ns)); [done|..].
    - unfold nodeIds. by rewrite list_lookup_fmap, Hi.
    - unfold nodeIds. rewrite list_lookup_fmap, Hj. simpl. congruence. }
  exists j. split; [|done]. rewrite Hfind. congruence.
Qed.

Lemma problem_found (ns : list Node) :
  problemCountIn ns = 1%nat →
  ∃ i p, list_find (λ n, data_type (data n) = PROBLEM) ns = Some (i, p) ∧
         p ∈ ns ∧ data_type (data p) = PROBLEM.
Proof.
  unfold problemCountIn. intros Hc.
  destruct (filter _ ns) as [|p rest] eqn:Hf; [done|].
  assert (p ∈ filter (λ n, data_type (data n) = PROBLEM) ns) as Hp
    by (rewrite Hf; apply list_elem_of_here).
  apply list_elem_of_filter in Hp as [Hkind Hin].
  destruct (list_find_elem_of (λ n, data_type (data n) = PROBLEM) ns p Hin Hkind)
    as [[i q] Hfind].
  exists i, q. split; [done|].
  apply list_find_Some in Hfind as (Hi & Hq & _).
  split; [|done]. by eapply list_elem_of_lookup_2.
Qed.




(** *** The spine extension *)

Lemma moveProblem_shape (ns : list Node) (p : Node) :
  NoDup (nodeIds ns) → p ∈ ns →
  nodeShape <$> moveProblem p ns = nodeShape <$> ns.
Proof.
  intros Hnd Hp. unfold moveProblem.
  destruct (list_find_id_unique ns p Hnd Hp) as (i & -> & Hi).
  by eapply shape_insert.
Qed.

Lemma newSpineNodeFor_id (spines : list Node) (p : Node) :
  node_id (newSpineNodeFor spines p) = autoSpineId (S (length spines)).
Proof. unfold newSpineNodeFor. simpl. by rewrite Nat.add_1_r. Qed.

Lemma connectLastSpine_Fish (env : Env) (ns : list Node) (es : list Edge)
    (spines : list Node) (nid : string) :
  Fish ns es → nid ∈ nodeIds ns →
  (∀ ls, ls ∈ spines → ∃ n, n ∈ ns ∧ node_id n = node_id ls ∧
                             y (position n) = 300) →
  Fish ns (connectLastSpine env spines nid es) ∧
  topRibCount ns (connectLastSpine env spines nid es) nid
    = topRibCount ns es nid.
Proof.
  intros HF Hnid Hspines. unfold connectLastSpine.
  destruct (last spines) as [ls|] eqn:Hlast; [|done].
  apply last_Some_elem_of in Hlast.
  destruct (Hspines ls Hlast) as (n & Hn & Hid & Hy).
  assert (sourceHeight ns
            (structuralEdge ("s-auto-" +:+ pretty (now_s_auto env))
               (node_id ls) nid) = Some 300) as Hh.
  { unfold sourceHeight.
    rewrite (sourceNode_unique ns n); [by rewrite <-Hy|by destruct HF|done..]. }
  apply baseline_not_rib in Hh as [Hnt Hnb].
  split.
  - apply Fish_snoc_edge; [done| |done|by intros].
    simpl. rewrite <-Hid. by apply list_elem_of_fmap_2.
  - rewrite topRibCount_snoc. rewrite decide_False by tauto. lia.
Qed.

Lemma removeOldProblemEdge_Fish (ns : list Node) (es : list Edge) (p : Node)
    (nid : string) :
  Fish ns es →
  Fish ns (removeOldProblemEdge p es) ∧
  (topRibCount ns (removeOldProblemEdge p es) nid ≤ topRibCount ns es nid)%nat.
Proof.
  intros HF. unfold removeOldProblemEdge.
  destruct (list_find _ es) as [[i e]|]; [|done].
  split; [by apply Fish_delete_edge|]. apply ribCounts_delete.
Qed.

Lemma extendSpine_Fish (env : Env) (ns : list Node) (es : list Edge) (p : Node)
    (ns2 : list Node) (es3 : list Edge) (pl : Placement) :
  Fish ns es → p ∈ ns → data_type (data p) = PROBLEM →
  extendSpine env (spineNodes_of ns) p ns es = (ns2, es3, pl) →
  Fish ns2 es3 ∧
  nodeIds ns2 = nodeIds ns ++ [targetSpineId pl] ∧
  targetSpineId pl = autoSpineId (S (length (spineNodes_of ns))) ∧
  y (newPosition pl) = 50 ∧
  topRibCount ns2 es3 (targetSpineId pl) = 0%nat ∧
  length (spineNodes_of ns2) = S (length (spineNodes_of ns)).
Proof.
  intros HF Hp Hkind. unfold extendSpine.
  set (N := newSpineNodeFor (spineNodes_of ns) p).
  set (ns1 := moveProblem p ns).
  assert (data_type (data N) = SPINE) as HNk by done.
  assert (y (position N) = 300) as HNy by done.
  assert (node_id N = autoSpineId (S (length (spineNodes_of ns)))) as HNid
    by exact (newSpineNodeFor_id _ p).
  clearbody N.
  intros [= <- <- <-]. cbn [targetSpineId newPosition y].
  pose proof HF as [Hnd Hep Hpb Hbl Hsl Hau].
  assert (nodeShape <$> ns1 = nodeShape <$> ns) as Hshape
    by by apply moveProblem_shape.
  assert (Fish ns1 es) as HF1 by by eapply Fish_nodes_shape.
  assert (nodeIds ns1 = nodeIds ns) as Hids by by apply nodeIds_shape.
  destruct (Fish_snoc_spine ns1 es N HF1) as (HF2 & HfreshN & Htop0 & _);
    [done|done|..].
  { by rewrite HNid, (spineNodes_length_shape _ _ Hshape). }
  assert (node_id N ∈ nodeIds (ns1 ++ [N])) as HNin.
  { unfold nodeIds. rewrite fmap_app, elem_of_app. right. apply list_elem_of_here. }
  destruct (connectLastSpine_Fish env (ns1 ++ [N]) es (spineNodes_of ns)
              (node_id N) HF2 HNin) as [HF3 Hc3].
  { intros ls (Hls & Hspine & _)%spineNodes_of_elem.
    assert (nodeShape ls ∈ nodeShape <$> ns1) as (n & Hn & Hin)%list_elem_of_fmap.
    { rewrite Hshape. by apply list_elem_of_fmap_2. }
    injection Hn as Hid Hk Hy.
    exists n. split; [apply elem_of_app; by left|]. split; [done|].
    rewrite <-Hy. rewrite Forall_forall in Hbl. by apply Hbl. }
  destruct (removeOldProblemEdge_Fish (ns1 ++ [N])
              (connectLastSpine env (spineNodes_of ns) (node_id N) es) p
              (node_id N) HF3) as [HF4 Hc4].
  assert (sourceNode (ns1 ++ [N])
            (structuralEdge ("s-end-" +:+ pretty (now_s_end env))
               (node_id N) (node_id p)) = Some N) as Hsn
    by by apply sourceNode_snoc_fresh.
  assert (sourceHeight (ns1 ++ [N])
            (structuralEdge ("s-end-" +:+ pretty (now_s_end env))
               (node_id N) (node_id p)) = Some 300) as Hh
    by (unfold sourceHeight; rewrite Hsn; simpl; by rewrite HNy).
  apply baseline_not_rib in Hh as [Hnt Hnb].
  split_and!.
  - apply Fish_snoc_edge; [done|done| |by intros].
    simpl. unfold nodeIds. rewrite fmap_app, elem_of_app. left.
    fold (nodeIds ns1). rewrite Hids. by apply list_elem_of_fmap_2.
  - unfold nodeIds at 1. rewrite fmap_app. fold (nodeIds ns1). by rewrite Hids.
  - done.
  - done.
  - rewrite topRibCount_snoc, decide_False by tauto. lia.
  - rewrite spineNodes_length_snoc_spine; [|done|].
    + by rewrite (spineNodes_length_shape _ _ Hshape).
    + rewrite HNid. apply autoSpineId_not_tail.
Qed.

(** *** [add_node] keeps the structure *)

Lemma or_else_truthy (o : option string) (g d : string) :
  JS.truthy_value o = Some d → JS.or_else o g = d.
Proof.
  destruct o as [s|]; simpl; [|done].
  destruct (decide (s = "")); [done|]. by intros [= ->].
Qed.

Lemma or_else_falsy (o : option string) (g : string) :
  JS.truthy_value o = None → JS.or_else o g = g.
Proof.
  destruct o as [s|]; simpl; [|done]. by destruct (decide (s = "")).
Qed.

Lemma generatedId_not_auto (t : Z) (j : nat) : "n-" +:+ pretty t ≠ autoSpineId j.
Proof. unfold autoSpineId. rewrite !app_String. discriminate. Qed.

Lemma prefix_not_auto (d : string) (j : nat) :
  String.prefix "spine_" d = false → d ≠ autoSpineId j.
Proof. intros Hd ->. by rewrite autoSpineId_prefix in Hd. Qed.

Lemma placeNode_Fish (env : Env) (ns : list Node) (es : list Edge)
    (ns1 : list Node) (es1 : list Edge) (p : Placement) (new : Node) (rib : Edge) :
  Fish ns es →
  placeNode env ns es = (ns1, es1, p) →
  node_id new ∉ nodeIds ns →
  (∀ j, node_id new = autoSpineId j → (j ≤ length (spineNodes_of ns))%nat) →
  data_type (data new) = CATEGORY → position new = newPosition p →
  source rib = node_id new → target rib = targetSpineId p →
  Fish (ns1 ++ [new])
       (if decide (targetSpineId p = "") then es1 else es1 ++ [rib]).
Proof.
  intros HF Hplace Hfresh Hnotauto Hkind Hpos Hsrc Htgt.
  unfold placeNode in Hplace.
  destruct (problem_found ns (fish_problem _ _ HF)) as (i & q & Hfind & Hq & Hqk).
  rewrite Hfind in Hplace. simpl in Hplace.
  destruct (decide (targetSpineId (checkSlots ns es (spineNodes_of ns)) = ""))
    as [Hnone|Hsome].
  - destruct (extendSpine_Fish env ns es q ns1 es1 p HF Hq Hqk Hplace)
      as (HF' & Hids & Hpid & Hy & Hcount & Hlen).
    rewrite decide_False by (rewrite Hpid; apply autoSpineId_nonempty).
    apply (Fish_snoc_rib ns1 es1 new rib (targetSpineId p)); try done.
    + rewrite Hids, elem_of_app. intros [?|[Heq|[]%elem_of_nil]%elem_of_cons];
        [done|]. rewrite Hpid in Heq. apply Hnotauto in Heq. lia.
    + intros j Hj%Hnotauto. lia.
    + rewrite Hids, elem_of_app. right. apply list_elem_of_here.
    + left. split; [|done]. rewrite Hpos, Hy. lia.
  - injection Hplace as <- <- <-. rewrite decide_False by done.
    destruct (checkSlots_found ns es (spineNodes_of ns) Hsome)
      as (spine & (Hin & _ & _)%spineNodes_of_elem & Hid & Hslot).
    eapply Fish_snoc_rib; try done.
    + rewrite Hid. by apply list_elem_of_fmap_2.
    + rewrite Hpos, Hid. destruct Hslot as [[-> ?]|[-> ?]]; [left|right];
        (split; [lia|done]).
Qed.

Lemma placeNode_Cleared (env : Env) (ns : list Node) (es : list Edge) :
  Forall (λ n, data_type (data n) = CATEGORY) ns →
  placeNode env ns es = (ns, es, mkPlacement "" (mkPos 0 0) top).
Proof.
  intros Hk. unfold placeNode.
  assert (spineNodes_of ns = []) as ->.
  { apply length_zero_iff_nil. rewrite spineNodes_of_length.
    apply length_zero_iff_nil.
    induction Hk as [|n ns Hn _ IH]; [done|].
    rewrite filter_cons, decide_False; [done|]. intros [? _]. congruence. }
  assert (list_find (λ n, data_type (data n) = PROBLEM) ns = None) as ->.
  { apply list_find_None. eapply Forall_impl; [exact Hk|].
    intros n Hn. simpl in *. congruence. }
  done.
Qed.

Lemma spineNodes_of_categories (ns : list Node) :
  Forall (λ n, data_type (data n) = CATEGORY) ns → spineNodes_of ns = [].
Proof.
  intros Hk. apply length_zero_iff_nil. rewrite spineNodes_of_length.
  apply length_zero_iff_nil.
  induction Hk as [|n ns Hn _ IH]; [done|].
  rewrite filter_cons, decide_False; [done|]. intros [? _]. congruence.
Qed.

Lemma problemCountIn_categories (ns : list Node) :
  Forall (λ n, data_type (data n) = CATEGORY) ns → problemCountIn ns = 0%nat.
Proof.
  unfold problemCountIn. induction 1 as [|n ns Hn _ IH]; [done|].
  rewrite filter_cons, decide_False; [done|congruence].
Qed.

(** *** Blank documents *)

Lemma Blank_nodes_shape (ns ns' : list Node) (es : list Edge) :
  nodeShape <$> ns' = nodeShape <$> ns → Blank ns es → Blank ns' es.
Proof.
  intros Hs [Hc Hnd Hau]. pose proof (nodeIds_shape _ _ Hs) as Hids.
  split; [by eapply Cleared_nodes_shape|by rewrite Hids|by rewrite Hids].
Qed.

Lemma Blank_edges_shape (ns : list Node) (es es' : list Edge) :
  edgeShape <$> es' = edgeShape <$> es → Blank ns es → Blank ns es'.
Proof.
  intros Hs [Hc Hnd Hau]. split; [by eapply Cleared_edges_shape|done|done].
Qed.

Lemma Blank_snoc_edge (ns : list Node) (es : list Edge) (e : Edge) :
  Blank ns es → source e ∈ nodeIds ns → target e ∈ nodeIds ns →
  Blank ns (es ++ [e]).
Proof.
  intros [[Hep Hk] Hnd Hau] Hs Ht. split; [|done|done]. split; [|done].
  apply Forall_app. split; [done|]. by constructor.
Qed.

Lemma NoDup_nodeIds_snoc (ns : list Node) (new : Node) :
  NoDup (nodeIds ns) → node_id new ∉ nodeIds ns → NoDup (nodeIds (ns ++ [new])).
Proof.
  intros Hnd Hfresh. unfold nodeIds. rewrite fmap_app.
  apply NoDup_app. split_and!; [done| |apply NoDup_singleton].
  intros i Hi [->|[]%elem_of_nil]%elem_of_cons. done.
Qed.

Lemma Blank_snoc_category (ns : list Node) (es : list Edge) (new : Node) :
  Blank ns es → node_id new ∉ nodeIds ns →
  (∀ j, node_id new = autoSpineId j → j = 0%nat) →
  data_type (data new) = CATEGORY →
  Blank (ns ++ [new]) es.
Proof.
  intros [[Hep Hk] Hnd Hau] Hfresh Hauto Hkind. split.
  - split; [by apply endpointsIn_app_nodes|].
    apply Forall_app. split; [done|]. by constructor.
  - by apply NoDup_nodeIds_snoc.
  - intros j. unfold nodeIds. rewrite fmap_app, elem_of_app.
    intros [Hin|[Hj|[]%elem_of_nil]%elem_of_cons]; [by apply Hau|].
    by apply Hauto.
Qed.

(** The first PROBLEM node of a blank document makes it a fishbone
    again, with an empty spine. *)
Lemma Blank_snoc_problem (ns : list Node) (es : list Edge) (new : Node) :
  Blank ns es → node_id new ∉ nodeIds ns →
  (∀ j, node_id new = autoSpineId j → j = 0%nat) →
  data_type (data new) = PROBLEM →
  Fish (ns ++ [new]) es.
Proof.
  intros [[Hep Hk] Hnd Hau] Hfresh Hauto Hkind.
  assert (Forall (λ n, data_type (data n) ≠ SPINE) (ns ++ [new])) as Hnospine.
  { apply Forall_app. split.
    - eapply Forall_impl; [exact Hk|]. intros n Hn. simpl in *. congruence.
    - constructor; [congruence|done]. }
  split.
  - by apply NoDup_nodeIds_snoc.
  - by apply endpointsIn_app_nodes.
  - unfold problemCountIn. rewrite filter_app, length_app.
    fold (problemCountIn ns). rewrite problemCountIn_categories by done.
    by rewrite filter_cons, decide_True by done.
  - eapply Forall_impl; [exact Hnospine|]. by intros n Hn Hs.
  - unfold slotsRespected. eapply Forall_impl; [exact Hnospine|].
    by intros n Hn Hs.
  - intros j. unfold nodeIds. rewrite fmap_app, elem_of_app.
    intros [Hin|[Hj|[]%elem_of_nil]%elem_of_cons].
    + apply Hau in Hin. lia.
    + symmetry in Hj. apply Hauto in Hj. lia.
Qed.

(** *** The node that [add_node] places *)

Lemma placed_Structured (c : bool) (env : Env)
    (argTitle argDescription : option string) (newNodeId : string)
    (ns : list Node) (es : list Edge) :
  Structured c ns es →
  newNodeId ∉ nodeIds ns →
  (∀ j, newNodeId = autoSpineId j → (j ≤ length (spineNodes_of ns))%nat) →
  (classify env argTitle = PROBLEM → problemCountIn ns = 0%nat) →
  let r := (let '(ns1, es1, p) := placeNode env ns es in
            (ns1 ++ [createdNode env argTitle argDescription newNodeId
                       (newPosition p)],
             if decide (targetSpineId p = "") then es1
             else es1 ++ [ribEdgeTo env newNodeId p],
             newNodeId)) in
  Structured c r.1.1 r.1.2.
Proof.
  intros [HF|[-> HB]] Hfresh Hauto Hkind; cbv zeta.
  - assert (classify env argTitle = CATEGORY) as Hcat.
    { destruct (classify_cases env argTitle) as [Hp|Hc]; [|done].
      apply Hkind in Hp. rewrite (fish_problem _ _ HF) in Hp. done. }
    destruct (placeNode env ns es) as [[ns1 es1] p] eqn:Hplace.
    cbn [fst snd]. left. by eapply placeNode_Fish.
  - pose proof (blank_cleared _ _ HB) as [_ Hk].
    rewrite placeNode_Cleared by done. cbn [fst snd targetSpineId newPosition].
    rewrite decide_True by done.
    assert (∀ j, newNodeId = autoSpineId j → j = 0%nat) as Hauto0.
    { intros j Hj%Hauto. rewrite spineNodes_of_categories in Hj by done.
      simpl in Hj. lia. }
    destruct (classify_cases env argTitle) as [Hp|Hc].
    + left. by apply Blank_snoc_problem.
    + right. split; [done|]. by apply Blank_snoc_category.
Qed.

Lemma addNodeFishbone_Structured (c : bool) (env : Env)
    (argTitle argDescription desiredId : option string)
    (ns : list Node) (es : list Edge) (log : list string) :
  Structured c ns es →
  validTool env (add_node argTitle argDescription desiredId) (mkWorking ns es log) →
  let r := addNodeFishbone env argTitle argDescription desiredId ns es in
  Structured c r.1.1 r.1.2.
Proof.
  intros HS Hvalid. cbv zeta.
  unfold validTool in Hvalid. cbn [localNodes localEdges] in Hvalid.
  destruct (JS.truthy_value desiredId) as [d|] eqn:Htv.
  - destruct (decide (d ∈ nodeIds ns)) as [Hin|Hnin].
    + unfold addNodeFishbone. rewrite Htv.
      by destruct (list_find_id_is_Some node_id ns d Hin) as [[k n] ->].
    + destruct Hvalid as [?|[Hk Hid]]; [done|].
      rewrite addNodeFishbone_notSuppressed
        by (intros d' Hd'; rewrite Htv in Hd'; by injection Hd' as <-).
      rewrite (or_else_truthy _ _ d Htv). by apply placed_Structured.
  - destruct Hvalid as [Hk Hfresh].
    rewrite addNodeFishbone_notSuppressed by (intros d' Hd'; congruence).
    rewrite (or_else_falsy _ _ Htv). apply placed_Structured; [done..| |done].
    intros j Hj. by destruct (generatedId_not_auto (now_node env) j).
Qed.

(** *** Every valid tool call keeps the structure *)

Lemma Structured_insert_node (c : bool) (ns : list Node) (es : list Edge)
    (i : nat) (n n' : Node) :
  ns !! i = Some n → nodeShape n' = nodeShape n →
  Structured c ns es → Structured c (<[i:=n']> ns) es.
Proof.
  intros Hi Hs. pose proof (shape_insert ns i n n' Hi Hs) as Hshape.
  intros [HF|[-> HB]]; [left; by eapply Fish_nodes_shape|right].
  split; [done|]. by eapply Blank_nodes_shape.
Qed.

Lemma Structured_insert_edge (c : bool) (ns : list Node) (es : list Edge)
    (i : nat) (e e' : Edge) :
  es !! i = Some e → edgeShape e' = edgeShape e →
  Structured c ns es → Structured c ns (<[i:=e']> es).
Proof.
  intros Hi Hs. pose proof (edgeShape_insert es i e e' Hi Hs) as Hshape.
  intros [HF|[-> HB]]; [left; by eapply Fish_edges_shape|right].
  split; [done|]. by eapply Blank_edges_shape.
Qed.

Lemma addEdge_Structured (c : bool) (ns : list Node) (es : list Edge) (e : Edge) :
  Structured c ns es →
  source e ∈ nodeIds ns → target e ∈ nodeIds ns →
  (isSpineId ns (target e) → slotFreeFor ns es (source e) (target e)) →
  Structured c ns (ReactFlow.addEdge e es).
Proof.
  intros HS Hs Ht Hfree. unfold ReactFlow.addEdge.
  destruct (decide _); [done|]. destruct (decide _); [done|].
  destruct HS as [HF|[-> HB]].
  - left. apply Fish_snoc_edge_slot; [done..|].
    intros s Hin Hspine Heq.
    assert (slotFreeFor ns es (source e) (target e)) as Hsf.
    { apply Hfree, Exists_exists. by exists s. }
    unfold slotFreeFor in Hsf. rewrite <-Heq.
    rewrite isTopRib_height, isBottomRib_height.
    change (sourceHeight ns e) with (heightOf ns (source e)).
    destruct (heightOf ns (source e)) as [h|].
    + destruct Hsf as [Htop Hbot].
      split; intros (v & [= <-] & Hv); auto.
    + split; intros (v & [=] & _).
  - right. split; [done|]. by apply Blank_snoc_edge.
Qed.

Lemma executeTool_Structured (c : bool) (env : Env) (tool : ToolCall)
    (w : Working) :
  Structured c (localNodes w) (localEdges w) →
  validTool env tool w →
  let w' := executeTool env tool w in
  Structured (c || isClear tool) (localNodes w') (localEdges w').
Proof.
  intros HS Hvalid.
  destruct tool as [|t d i|s t l|i t d|ti ty nm d|ti ty cn nm d|nm];
    cbn [isClear]; rewrite ?orb_false_r, ?orb_true_r.
  - right. split; [done|]. split; [split; constructor|constructor|].
    intros j []%elem_of_nil.
  - pose proof (addNodeFishbone_Structured c env t d i (localNodes w)
                  (localEdges w) (changeLog w) HS) as Hadd.
    cbv zeta in Hadd. simpl.
    destruct (addNodeFishbone env t d i (localNodes w) (localEdges w))
      as [[ns' es'] r]. simpl. apply Hadd. by destruct w.
  - destruct Hvalid as [Hsame|(Hs & Ht & Hfree)].
    + simpl. by rewrite addEdge_nothing.
    + simpl. by apply addEdge_Structured.
  - simpl. destruct (list_find _ (localNodes w)) as [[k n]|] eqn:Hfind; [|done].
    simpl. apply list_find_Some in Hfind as (Hk & _ & _).
    by eapply Structured_insert_node.
  - simpl. destruct (decide (isNodeTarget ty)) as [_|_].
    + destruct (list_find _ (localNodes w)) as [[k n]|] eqn:Hfind; [|done].
      simpl. apply list_find_Some in Hfind as (Hk & _ & _).
      by eapply Structured_insert_node.
    + destruct (decide (ty = Some "EDGE")) as [_|_]; [|done].
      destruct (list_find _ (localEdges w)) as [[k e]|] eqn:Hfind; [|done].
      simpl. apply list_find_Some in Hfind as (Hk & _ & _).
      by eapply Structured_insert_edge.
  - simpl. destruct (decide (isNodeTarget ty)) as [_|_].
    + destruct (list_find _ (localNodes w)) as [[k n]|] eqn:Hfind; [|done].
      simpl. apply list_find_Some in Hfind as (Hk & _ & _).
      by eapply Structured_insert_node.
    + destruct (decide (ty = Some "EDGE")) as [_|_]; [|done].
      destruct (list_find _ (localEdges w)) as [[k e]|] eqn:Hfind; [|done].
      simpl. apply list_find_Some in Hfind as (Hk & _ & _).
      by eapply Structured_insert_edge.
  - done.
Qed.

Lemma executeTools_Structured (c : bool) (batch : Batch) (w : Working) :
  Structured c (localNodes w) (localEdges w) →
  validFrom batch w →
  let w' := executeTools batch w in
  Structured (c || clears batch) (localNodes w') (localEdges w').
Proof.
  revert c w. induction batch as [|[env tool] rest IH]; intros c w HS Hvalid.
  - simpl. by rewrite orb_false_r.
  - destruct Hvalid as [Hv Hrest]. rewrite executeTools_cons.
    unfold clears. cbn [existsb snd]. rewrite orb_assoc.
    apply IH; [|done]. by apply executeTool_Structured.
Qed.

Lemma applyBatch_Structured (c : bool) (batch : Batch) (doc : Document) :
  Structured c (nodes doc) (edges doc) →
  validBatch batch doc →
  Structured (c || clears batch) (nodes (applyBatch batch doc).1)
             (edges (applyBatch batch doc).1).
Proof.
  intros HS Hvalid. destruct batch as [|cmd rest].
  - simpl. by rewrite orb_false_r.
  - unfold applyBatch. cbn [fst nodes edges].
    by apply (executeTools_Structured c (cmd :: rest) (startWorking doc)).
Qed.

Lemma commits_Structured (batches : list Batch) (c : bool) (doc : Document) :
  Structured c (nodes doc) (edges doc) →
  validBatches batches doc →
  ∀ k d, commits batches doc !! k = Some d →
    Structured (c || existsb clears (take (S k) batches)) (nodes d) (edges d).
Proof.
  revert c doc. induction batches as [|b rest IH]; intros c doc HS Hvalid k d Hk.
  - done.
  - destruct Hvalid as [Hb Hrest].
    pose proof (applyBatch_Structured c b doc HS Hb) as HS'.
    destruct k as [|k]; simpl in Hk.
    + injection Hk as <-. simpl. by rewrite orb_false_r.
    + specialize (IH _ _ HS' Hrest k d Hk).
      cbn [take existsb]. by rewrite orb_assoc.
Qed.

Lemma Structured_properties (c : bool) (doc : Document) :
  Structured c (nodes doc) (edges doc) →
  endpointsExist doc ∧ ribsWithinSlots doc ∧ (problemCount doc ≤ 1)%nat ∧
  (c = false → problemCount doc = 1%nat).
Proof.
  intros [[Hnd Hep Hpb Hbl Hsl Hau]|[-> [[Hep Hk] _ _]]].
  - unfold problemCount. rewrite Hpb. done.
  - split_and!; [done| | |done].
    + unfold ribsWithinSlots, slotsRespected. eapply Forall_impl; [exact Hk|].
      intros n Hn. simpl in *. congruence.
    + unfold problemCount. rewrite problemCountIn_categories by done. lia.
Qed.

(** *** The initial document *)

Lemma autoSpineId_length (j : nat) : (11 ≤ String.length (autoSpineId j))%nat.
Proof. unfold autoSpineId. rewrite !length_app_string. simpl. lia. Qed.

Lemma initial_Fish :
  Fish Constants.INITIAL_REACTFLOW_NODES Constants.INITIAL_REACTFLOW_EDGES.
Proof.
  split.
  - apply (bool_decide_unpack _). vm_compute. exact I.
  - apply (bool_decide_unpack _). vm_compute. exact I.
  - reflexivity.
  - apply (bool_decide_unpack _). vm_compute. exact I.
  - apply (bool_decide_unpack _). vm_compute. exact I.
  - intros j Hin. exfalso.
    pose proof (autoSpineId_length j) as Hlen.
    pose proof (autoSpineId_prefix j) as Hpre.
    revert Hlen Hpre. generalize (autoSpineId j) Hin. clear.
    cut (Forall (λ s, ¬ ((11 ≤ String.length s)%nat ∧
                         String.prefix "spine_" s = true))
                (nodeIds Constants.INITIAL_REACTFLOW_NODES)).
    { rewrite Forall_forall. intros H s Hs Hlen Hpre. by apply (H s Hs). }
    apply (bool_decide_unpack _). vm_compute. exact I.
Qed.

(** C2, amended. Start from the initial document and apply batches of
    valid tool calls ([validTool]: an [add_node] that is not suppressed
    makes a PROBLEM node only when the document has none, does not take
    the id of an automatic spine node beyond those in use, and does not
    generate an id that is in use; a [connect_nodes] that adds an edge
    joins the ids of two nodes and, into a spine node, comes from the
    baseline or from a side of that spine node that has no rib yet).
    After each commit every edge starts and ends at a node, no spine
    node has more than one rib from above nor more than one from below,
    and there is at most one PROBLEM node: exactly one as long as no
    batch contained a [clear_graph]. *)
Theorem valid_batches_keep_structure (batches : list Batch) :
  validBatches batches Constants.INITIAL_DOCUMENT →
  ∀ k doc, commits batches Constants.INITIAL_DOCUMENT !! k = Some doc →
    endpointsExist doc ∧ ribsWithinSlots doc ∧ (problemCount doc ≤ 1)%nat ∧
    (existsb clears (take (S k) batches) = false → problemCount doc = 1%nat).
Proof.
  intros Hvalid k doc Hk.
  pose proof (commits_Structured batches false Constants.INITIAL_DOCUMENT
                (or_introl initial_Fish) Hvalid k doc Hk) as HS.
  by apply Structured_properties in HS.
Qed.

(** The three sample batches are valid from the initial document. *)
Lemma sampleBatches_valid :
  validBatches Samples.sampleBatches Constants.INITIAL_DOCUMENT.
Proof.
  assert (∀ (P : Prop) (d : string) (n : nat),
            String.prefix "spine_" d = false → P →
            P ∧ ∀ j, d = autoSpineId j → (j ≤ n)%nat) as Hid.
  { intros P d n Hd HP. split; [done|].
    intros j Hj. by destruct (prefix_not_auto d j Hd). }
  unfold Samples.sampleBatches, validBatches, validBatch.
  split; [|split; [|split; [|exact I]]]; cbn [validFrom].
  - split_and!; try exact I.
    + right. apply Hid; [reflexivity|]. intros [=].
    + right. apply (bool_decide_unpack _). vm_compute. exact I.
    + right. apply (bool_decide_unpack _). vm_compute. exact I.
  - split_and!; try exact I.
    split; [intros [=]|]. apply (bool_decide_unpack _). vm_compute. exact I.
  - split_and!; try exact I.
    + right. apply Hid; [reflexivity|]. intros [=].
    + right. apply Hid; [reflexivity|]. intros _. reflexivity.
    + right. apply Hid; [reflexivity|]. intros [=].
    + right. apply (bool_decide_unpack _). vm_compute. exact I.
Defined.

(** The property after the second sample batch, and after the third,
    which clears the graph and adds a PROBLEM node again. *)
Lemma valid_batches_keep_structure_witness :
  ∃ d1 d3,
    commits Samples.sampleBatches Constants.INITIAL_DOCUMENT !! 1%nat = Some d1 ∧
    commits Samples.sampleBatches Constants.INITIAL_DOCUMENT !! 2%nat = Some d3 ∧
    (endpointsExist d1 ∧ ribsWithinSlots d1 ∧ problemCount d1 = 1%nat) ∧
    (endpointsExist d3 ∧ ribsWithinSlots d3 ∧ (problemCount d3 ≤ 1)%nat) ∧
    node_id <$> nodes d3 = ["people"; "core"; "spine_1_auto"; "methods"].
Proof.
  eexists _, _. split; [reflexivity|]. split; [reflexivity|].
  split; [|split; [|reflexivity]].
  - destruct (valid_batches_keep_structure Samples.sampleBatches
                sampleBatches_valid 1%nat _ eq_refl) as (H1 & H2 & _ & H4).
    split; [exact H1|]. split; [exact H2|]. exact (H4 eq_refl).
  - destruct (valid_batches_keep_structure Samples.sampleBatches
                sampleBatches_valid 2%nat _ eq_refl) as (H1 & H2 & H3 & _).
    split; [exact H1|]. split; [exact H2|exact H3].
Defined.

(** C2 as stated fails for tool calls that are well formed: from the
    initial document, an [add_node] whose title contains "problem" makes
    a second PROBLEM node, a [connect_nodes] from an id that no node has
    leaves an edge without a source node, and a [connect_nodes] from a
    category into a spine node gives that spine node a second rib from
    above. *)
Lemma structure_counterexample :
  let after := λ tool, (applyBatch [(Samples.env0, tool)]
                                   Constants.INITIAL_DOCUMENT).1 in
  problemCount (after (add_node (Some "Second problem") None (Some "p2"))) = 2%nat ∧
  ¬ endpointsExist (after (connect_nodes "ghost" "problem" None)) ∧
  ¬ ribsWithinSlots (after (connect_nodes "people" "spine_2" None)).
Proof.
  split; [reflexivity|]. split.
  - unfold endpointsExist, endpointsIn.
    apply (bool_decide_unpack _). vm_compute. exact I.
  - unfold ribsWithinSlots, slotsRespected.
    apply (bool_decide_unpack _). vm_compute. exact I.
Qed.

(** ** The order in which the slots are filled *)

Lemma insert_by_x_sorted (a : Node) (l : list Node) :
  StronglySorted (λ n m, x (position n) ≤ x (position m)) l →
  StronglySorted (λ n m, x (position n) ≤ x (position m)) (insert_by_x a l).
Proof.
  induction 1 as [|b l Hl IH Hb]; simpl.
  - repeat constructor.
  - destruct (decide (x (position a) ≤ x (position b))) as [Hab|Hab].
    + constructor; [by constructor|]. constructor; [done|].
      eapply Forall_impl; [exact Hb|]. intros m Hm. simpl in *. lia.
    + constructor; [done|].
      rewrite insert_by_x_perm. constructor; [lia|done].
Qed.

(** The spine nodes are searched from left to right. *)
Lemma spineNodes_of_sorted (ns : list Node) :
  StronglySorted (λ n m, x (position n) ≤ x (position m)) (spineNodes_of ns).
Proof.
  unfold spineNodes_of. induction (filter _ ns) as [|a l IH]; simpl.
  - constructor.
  - by apply insert_by_x_sorted.
Qed.

(** C3, at the failing input. On a spine of one node with both slots
    free, three [add_node] calls without an id that are interpreted in
    the same millisecond get the same generated id.  The first goes above
    the spine node and the second below it; the third is put below it
    again, on top of the second: no spine node is added, the PROBLEM node
    does not move, and the edge from the spine node to the PROBLEM node
    stays.  With three ids of their own ([distinctIdsBatch]) the third
    call extends the spine, as the specification says. *)
Theorem add_node_same_millisecond :
  let doc := Samples.oneSpineDocument in
  let doc' := (applyBatch Samples.sameMillisecondBatch doc).1 in
  let doc'' := (applyBatch Samples.distinctIdsBatch doc).1 in
  (position <$> drop 3 (nodes doc'))
    = [mkPos 250 50; mkPos 250 550; mkPos 250 550] ∧
  (node_id <$> drop 3 (nodes doc'))
    = ["n-1700000000000"; "n-1700000000000"; "n-1700000000000"] ∧
  (target <$> drop 2 (edges doc')) = ["spine_1"; "spine_1"; "spine_1"] ∧
  take 2 (edges doc') = edges doc ∧
  take 3 (nodes doc') = nodes doc ∧
  length (spineNodes_of (nodes doc')) = 1%nat ∧
  (node_id <$> nodes doc'')
    = ["spine_tail"; "spine_1"; "problem"; "people"; "process";
       "spine_2_auto"; "technology"] ∧
  (position <$> drop 2 (nodes doc''))
    = [mkPos (650 + 350) 265; mkPos 250 50; mkPos 250 550;
       mkPos 750 300; mkPos 600 50] ∧
  ((λ e, (source e, target e)) <$> edges doc'')
    = [("spine_tail", "spine_1"); ("people", "spine_1"); ("process", "spine_1");
       ("spine_1", "spine_2_auto"); ("spine_2_auto", "problem");
       ("technology", "spine_2_auto")].
Proof. vm_compute. repeat split. Qed.

Lemma topRib_find_is_Some (ns : list Node) (es : list Edge) (sid : string) :
  topRibCount ns es sid ≠ 0%nat →
  is_Some (list_find (isTopRib ns) (filter (λ e, target e = sid) es)).
Proof.
  intros Hne. destruct (list_find _ _) eqn:Hfind; [done|].
  by apply topRib_find_None in Hfind.
Qed.

Lemma bottomRib_find_is_Some (ns : list Node) (es : list Edge) (sid : string) :
  bottomRibCount ns es sid ≠ 0%nat →
  is_Some (list_find (isBottomRib ns) (filter (λ e, target e = sid) es)).
Proof.
  intros Hne. destruct (list_find _ _) eqn:Hfind; [done|].
  by apply bottomRib_find_None in Hfind.
Qed.

Lemma checkSlots_skip (ns : list Node) (es : list Edge) (pre rest : list Node) :
  Forall (slotsFull ns es) pre →
  checkSlots ns es (pre ++ rest) = checkSlots ns es rest.
Proof.
  induction 1 as [|s pre [Htop Hbot] _ IH]; [done|]. simpl.
  destruct (topRib_find_is_Some ns es (node_id s) Htop) as [? ->].
  by destruct (bottomRib_find_is_Some ns es (node_id s) Hbot) as [? ->].
Qed.

Lemma checkSlots_above (ns : list Node) (es : list Edge)
    (pre : list Node) (s : Node) (post : list Node) :
  Forall (slotsFull ns es) pre → topRibCount ns es (node_id s) = 0%nat →
  checkSlots ns es (pre ++ s :: post) = slotAbove s.
Proof.
  intros Hpre Htop. rewrite checkSlots_skip by done. simpl.
  apply topRib_find_None in Htop. by rewrite Htop.
Qed.

Lemma checkSlots_below (ns : list Node) (es : list Edge)
    (pre : list Node) (s : Node) (post : list Node) :
  Forall (slotsFull ns es) pre →
  topRibCount ns es (node_id s) ≠ 0%nat →
  bottomRibCount ns es (node_id s) = 0%nat →
  checkSlots ns es (pre ++ s :: post) = slotBelow s.
Proof.
  intros Hpre Htop Hbot. rewrite checkSlots_skip by done. simpl.
  destruct (topRib_find_is_Some ns es (node_id s) Htop) as [? ->].
  apply bottomRib_find_None in Hbot. by rewrite Hbot.
Qed.

Lemma checkSlots_full (ns : list Node) (es : list Edge) (spines : list Node) :
  Forall (slotsFull ns es) spines →
  checkSlots ns es spines = mkPlacement "" (mkPos 0 0) top.
Proof.
  intros Hfull. rewrite <-(app_nil_r spines). by rewrite checkSlots_skip.
Qed.

Lemma addNodeFishbone_fresh (env : Env) (argTitle argDescription : option string)
    (d : string) (ns : list Node) (es : list Edge) :
  d ≠ "" → d ∉ nodeIds ns →
  addNodeFishbone env argTitle argDescription (Some d) ns es
  = let '(ns1, es1, p) := placeNode env ns es in
    (ns1 ++ [createdNode env argTitle argDescription d (newPosition p)],
     if decide (targetSpineId p = "") then es1
     else es1 ++ [ribEdgeTo env d p],
     d).
Proof.
  intros Hd Hfresh. unfold addNodeFishbone, JS.truthy_value, JS.or_else.
  destruct (decide (d = "")) as [|_]; [done|].
  rewrite (list_find_id_None node_id ns d Hfresh).
  by destruct (placeNode env ns es) as [[ns1 es1] p].
Qed.

(** The first spine node, from the left, that has a free slot gets the
    new node: above when the slot above is free. *)
Lemma add_node_above (env : Env) (argTitle argDescription : option string)
    (d : string) (ns : list Node) (es : list Edge)
    (pre : list Node) (s : Node) (post : list Node) :
  d ≠ "" → d ∉ nodeIds ns → node_id s ≠ "" →
  spineNodes_of ns = pre ++ s :: post →
  Forall (slotsFull ns es) pre →
  topRibCount ns es (node_id s) = 0%nat →
  addNodeFishbone env argTitle argDescription (Some d) ns es
  = (ns ++ [createdNode env argTitle argDescription d (newPosition (slotAbove s))],
     es ++ [ribEdgeTo env d (slotAbove s)], d).
Proof.
  intros Hd Hfresh Hs Hsp Hpre Htop. rewrite addNodeFishbone_fresh by done.
  unfold placeNode. rewrite Hsp, checkSlots_above by done.
  cbn [targetSpineId slotAbove]. by rewrite !decide_False by done.
Qed.

(** Below when the slot above is taken and the slot below is free. *)
Lemma add_node_below (env : Env) (argTitle argDescription : option string)
    (d : string) (ns : list Node) (es : list Edge)
    (pre : list Node) (s : Node) (post : list Node) :
  d ≠ "" → d ∉ nodeIds ns → node_id s ≠ "" →
  spineNodes_of ns = pre ++ s :: post →
  Forall (slotsFull ns es) pre →
  topRibCount ns es (node_id s) ≠ 0%nat →
  bottomRibCount ns es (node_id s) = 0%nat →
  addNodeFishbone env argTitle argDescription (Some d) ns es
  = (ns ++ [createdNode env argTitle argDescription d (newPosition (slotBelow s))],
     es ++ [ribEdgeTo env d (slotBelow s)], d).
Proof.
  intros Hd Hfresh Hs Hsp Hpre Htop Hbot. rewrite addNodeFishbone_fresh by done.
  unfold placeNode. rewrite Hsp, checkSlots_below by done.
  cbn [targetSpineId slotBelow]. by rewrite !decide_False by done.
Qed.

(** When every slot is taken and there is a PROBLEM node, the spine is
    extended and the new node goes above the new spine node. *)
Lemma add_node_extend (env : Env) (argTitle argDescription : option string)
    (d : string) (ns : list Node) (es : list Edge) (i : nat) (p : Node) :
  d ≠ "" → d ∉ nodeIds ns →
  Forall (slotsFull ns es) (spineNodes_of ns) →
  list_find (λ n, data_type (data n) = PROBLEM) ns = Some (i, p) →
  let N := newSpineNodeFor (spineNodes_of ns) p in
  addNodeFishbone env argTitle argDescription (Some d) ns es
  = (moveProblem p ns ++ [N] ++
       [createdNode env argTitle argDescription d (newPosition (slotAbove N))],
     removeOldProblemEdge p
       (connectLastSpine env (spineNodes_of ns) (node_id N) es) ++
       [structuralEdge ("s-end-" +:+ pretty (now_s_end env))
                       (node_id N) (node_id p)] ++
       [ribEdgeTo env d (slotAbove N)],
     d).
Proof.
  intros Hd Hfresh Hfull Hp. rewrite addNodeFishbone_fresh by done.
  unfold placeNode. rewrite checkSlots_full, Hp by done.
  cbn [targetSpineId fmap option_fmap option_map snd]. rewrite decide_True by done.
  unfold extendSpine. cbn [targetSpineId newPosition].
  rewrite decide_False by apply autoSpineId_nonempty.
  by rewrite <-!app_assoc.
Qed.

Lemma createdNode_not_spine (env : Env) (t d : option string) (i : string)
    (pos : XYPosition) :
  data_type (data (createdNode env t d i pos)) ≠ SPINE.
Proof. simpl. destruct (classify_cases env t) as [-> | ->]; done. Qed.

Lemma spineNodes_of_snoc_other (ns : list Node) (n : Node) :
  data_type (data n) ≠ SPINE → spineNodes_of (ns ++ [n]) = spineNodes_of ns.
Proof.
  intros Hn. unfold spineNodes_of.
  rewrite filter_app, filter_cons, decide_False by tauto.
  by rewrite filter_nil, app_nil_r.
Qed.

Lemma ribCounts_after_rib (ns : list Node) (es : list Edge) (new : Node)
    (rib : Edge) (sid : string) :
  endpointsIn ns es → node_id new ∉ nodeIds ns →
  source rib = node_id new → target rib = sid →
  topRibCount (ns ++ [new]) (es ++ [rib]) sid
    = (topRibCount ns es sid +
       if decide (y (position new) < 300)%Z then 1 else 0)%nat ∧
  bottomRibCount (ns ++ [new]) (es ++ [rib]) sid
    = (bottomRibCount ns es sid +
       if decide (y (position new) > 300)%Z then 1 else 0)%nat.
Proof.
  intros Hep Hfresh Hsrc Htgt.
  assert (sourceNode (ns ++ [new]) rib = Some new) as Hsn.
  { apply sourceNode_snoc_fresh; [by rewrite Hsrc|done]. }
  assert (isTopRib (ns ++ [new]) rib ↔ y (position new) < 300) as Htr
    by (unfold isTopRib; by rewrite Hsn).
  assert (isBottomRib (ns ++ [new]) rib ↔ y (position new) > 300) as Hbr
    by (unfold isBottomRib; by rewrite Hsn).
  rewrite topRibCount_snoc, bottomRibCount_snoc.
  destruct (ribCounts_app_nodes ns [new] es sid Hep) as [-> ->].
  split; f_equal.
  - destruct (decide (y (position new) < 300)).
    + rewrite decide_True; [done|]. by split; [|apply Htr].
    + rewrite decide_False; [done|]. intros [_ ?%Htr]. done.
  - destruct (decide (y (position new) > 300)).
    + rewrite decide_True; [done|]. by split; [|apply Hbr].
    + rewrite decide_False; [done|]. intros [_ ?%Hbr]. done.
Qed.

Lemma endpointsIn_after_rib (ns : list Node) (es : list Edge) (new : Node)
    (rib : Edge) :
  endpointsIn ns es → source rib = node_id new → target rib ∈ nodeIds ns →
  endpointsIn (ns ++ [new]) (es ++ [rib]).
Proof.
  intros Hep Hsrc Htgt. apply Forall_app. split; [by apply endpointsIn_app_nodes|].
  constructor; [|done]. unfold nodeIds in *. rewrite fmap_app, !elem_of_app.
  split; [right|by left]. rewrite Hsrc. apply list_elem_of_here.
Qed.

Lemma delete_app_l {A} (l1 l2 : list A) (i : nat) :
  (i < length l1)%nat → delete i (l1 ++ l2) = delete i l1 ++ l2.
Proof.
  revert i. induction l1 as [|a l1 IH]; intros [|i] Hi; simpl in *;
    try lia; [done|]. f_equal. apply IH. lia.
Qed.

Lemma round_safe (z : Z) : Z.abs z ≤ 2 ^ 53 → JS.round z = z.
Proof. intros Hz. unfold JS.round. by rewrite decide_True. Qed.

Lemma add_safe (a b : Z) :
  safeCoordinate a → Z.abs b ≤ 1000 → JS.add a b = a + b.
Proof.
  unfold safeCoordinate, JS.add. intros Ha Hb. apply round_safe.
  change (2 ^ 52) with 4503599627370496 in Ha.
  change (2 ^ 53) with 9007199254740992. lia.
Qed.

Lemma sub_safe (a b : Z) :
  safeCoordinate a → Z.abs b ≤ 1000 → JS.sub a b = a - b.
Proof.
  unfold safeCoordinate, JS.sub. intros Ha Hb. apply round_safe.
  change (2 ^ 52) with 4503599627370496 in Ha.
  change (2 ^ 53) with 9007199254740992. lia.
Qed.

Lemma newSpineNodeFor_position (spines : list Node) (p : Node) :
  safeCoordinate (x (position p)) →
  position (newSpineNodeFor spines p) = mkPos (x (position p) + 100) 300.
Proof.
  intros Hp. unfold newSpineNodeFor. simpl. f_equal.
  unfold safeCoordinate, JS.add, JS.sub in *.
  change (2 ^ 52) with 4503599627370496 in Hp.
  rewrite (round_safe (x (position p) - 250))
    by (change (2 ^ 53) with 9007199254740992; lia).
  rewrite round_safe by (change (2 ^ 53) with 9007199254740992; lia). lia.
Qed.

(** X27. The slot-fill order on a spine of one node, for three new nodes
    whose ids differ from one another and from the ids in use, where the
    x coordinates of the spine node and of the PROBLEM node are integers
    of absolute value at most 2^52, so that the additions of the layout
    are exact on doubles.  The first goes above the spine node and
    the second below it.  The third extends the spine: the PROBLEM node
    moves right by 350, a spine node [spine_2_auto] is added, the first
    edge into the PROBLEM node is replaced by an edge from the old spine
    node to the new one and an edge from the new one to the PROBLEM
    node, and the third node goes above the new spine node. *)
Lemma three_nodes_on_one_spine (envA envB envC : Env)
    (tA dA tB dB tC dC : option string) (a b c : string)
    (ns : list Node) (es : list Edge) (log : list string)
    (s1 p : Node) (ip k : nat) (e0 : Edge) :
  NoDup (nodeIds ns) → endpointsIn ns es →
  spineNodes_of ns = [s1] → node_id s1 ≠ "" →
  topRibCount ns es (node_id s1) = 0%nat →
  bottomRibCount ns es (node_id s1) = 0%nat →
  list_find (λ n, data_type (data n) = PROBLEM) ns = Some (ip, p) →
  list_find (λ e, target e = node_id p) es = Some (k, e0) →
  a ≠ "" → b ≠ "" → c ≠ "" →
  a ∉ nodeIds ns → b ∉ nodeIds ns → c ∉ nodeIds ns →
  a ≠ b → a ≠ c → b ≠ c →
  safeCoordinate (x (position s1)) → safeCoordinate (x (position p)) →
  let A := createdNode envA tA dA a (newPosition (slotAbove s1)) in
  let B := createdNode envB tB dB b (newPosition (slotBelow s1)) in
  let N := newSpineNodeFor [s1] p in
  let C := createdNode envC tC dC c (newPosition (slotAbove N)) in
  let ribA := ribEdgeTo envA a (slotAbove s1) in
  let ribB := ribEdgeTo envB b (slotBelow s1) in
  let ribC := ribEdgeTo envC c (slotAbove N) in
  let w1 := executeTool envA (add_node tA dA (Some a)) (mkWorking ns es log) in
  let w2 := executeTool envB (add_node tB dB (Some b)) w1 in
  let w3 := executeTool envC (add_node tC dC (Some c)) w2 in
  (localNodes w1 = ns ++ [A] ∧ localEdges w1 = es ++ [ribA]) ∧
  (localNodes w2 = ns ++ [A; B] ∧ localEdges w2 = es ++ [ribA; ribB]) ∧
  (localNodes w3 = <[ip := movedProblem p]> ns ++ [A; B; N; C] ∧
   localEdges w3 =
     delete k es ++
       [ribA; ribB;
        structuralEdge ("s-auto-" +:+ pretty (now_s_auto envC))
                       (node_id s1) (node_id N);
        structuralEdge ("s-end-" +:+ pretty (now_s_end envC))
                       (node_id N) (node_id p);
        ribC]) ∧
  node_id N = "spine_2_auto" ∧ data_type (data N) = SPINE ∧
  position N = mkPos (x (position p) + 100) 300 ∧
  x (position (movedProblem p)) = x (position p) + 350 ∧
  position A = mkPos (x (position s1) - 150) 50 ∧
  position B = mkPos (x (position s1) - 150) 550 ∧
  position C = mkPos (x (position p) - 50) 50 ∧
  target ribA = node_id s1 ∧ target ribB = node_id s1 ∧
  target ribC = node_id N.
Proof.
  intros Hnd Hep Hsp Hs1 Htop Hbot Hp He0 Ha Hb Hc Hfa Hfb Hfc Hab Hac Hbc.
  intros Hxs Hxp A B N C ribA ribB ribC.
  (* first node *)
  assert (addNodeFishbone envA tA dA (Some a) ns es
          = (ns ++ [A], es ++ [ribA], a)) as H1.
  { by apply (add_node_above envA tA dA a ns es [] s1 []). }
  assert (node_id s1 ∈ nodeIds ns) as Hs1in.
  { assert (s1 ∈ spineNodes_of ns) as (Hin & _)%spineNodes_of_elem
      by (rewrite Hsp; apply list_elem_of_here).
    by apply list_elem_of_fmap_2. }
  destruct (ribCounts_after_rib ns es A ribA (node_id s1)) as [HtopA HbotA];
    [done..|].
  pose proof (endpointsIn_after_rib ns es A ribA Hep eq_refl Hs1in) as Hep1.
  rewrite Htop in HtopA. rewrite Hbot in HbotA. simpl in HtopA, HbotA.
  (* second node *)
  assert (nodeIds (ns ++ [A]) = nodeIds ns ++ [a]) as Hids1
    by (unfold nodeIds; by rewrite fmap_app).
  assert (b ∉ nodeIds (ns ++ [A])) as Hfb1.
  { rewrite Hids1, elem_of_app.
    intros [?|[?|[]%elem_of_nil]%elem_of_cons]; congruence. }
  assert (addNodeFishbone envB tB dB (Some b) (ns ++ [A]) (es ++ [ribA])
          = (ns ++ [A] ++ [B], es ++ [ribA] ++ [ribB], b)) as H2.
  { rewrite !app_assoc.
    apply (add_node_below envB tB dB b (ns ++ [A]) (es ++ [ribA]) [] s1 []);
      try done.
    - rewrite spineNodes_of_snoc_other by apply createdNode_not_spine. done.
    - rewrite HtopA. done. }
  assert (node_id s1 ∈ nodeIds (ns ++ [A])) as Hs1in1
    by (rewrite Hids1, elem_of_app; by left).
  destruct (ribCounts_after_rib (ns ++ [A]) (es ++ [ribA]) B ribB (node_id s1))
    as [HtopB HbotB]; [done..|].
  rewrite HtopA in HtopB. rewrite HbotA in HbotB. simpl in HtopB, HbotB.
  (* third node *)
  assert (nodeIds ((ns ++ [A]) ++ [B]) = nodeIds ns ++ [a; b]) as Hids2
    by (unfold nodeIds; by rewrite !fmap_app, <-app_assoc).
  assert (c ∉ nodeIds ((ns ++ [A]) ++ [B])) as Hfc2.
  { rewrite Hids2, elem_of_app.
    intros [?|[?|[?|[]%elem_of_nil]%elem_of_cons]%elem_of_cons]; congruence. }
  assert (spineNodes_of ((ns ++ [A]) ++ [B]) = [s1]) as Hsp2.
  { by rewrite !spineNodes_of_snoc_other by apply createdNode_not_spine. }
  pose proof Hp as (Hip & _ & _)%list_find_Some.
  assert (list_find (λ n, data_type (data n) = PROBLEM) ((ns ++ [A]) ++ [B])
          = Some (ip, p)) as Hp2.
  { rewrite <-app_assoc. by apply list_find_app_l. }
  pose proof (add_node_extend envC tC dC c ((ns ++ [A]) ++ [B])
                ((es ++ [ribA]) ++ [ribB]) ip p Hc Hfc2) as H3.
  rewrite Hsp2 in H3. specialize (H3 ltac:(repeat constructor; simpl; lia) Hp2).
  cbv zeta in H3. fold N in H3.
  assert (moveProblem p ((ns ++ [A]) ++ [B])
          = <[ip := movedProblem p]> ns ++ [A; B]) as Hmove.
  { unfold moveProblem.
    destruct (list_find_id_unique ns p Hnd) as (i & Hfind & Hi);
      [by eapply list_elem_of_lookup_2|].
    assert (i = ip) as ->.
    { eapply (NoDup_lookup (nodeIds ns)); [done|..];
        unfold nodeIds; rewrite list_lookup_fmap; [by rewrite Hi|by rewrite Hip]. }
    rewrite <-app_assoc. rewrite (list_find_app_l _ _ _ _ _ Hfind).
    rewrite insert_app_l by by eapply lookup_lt_Some. done. }
  assert (removeOldProblemEdge p
            (connectLastSpine envC [s1] (node_id N) ((es ++ [ribA]) ++ [ribB]))
          = delete k es ++
              [ribA; ribB;
               structuralEdge ("s-auto-" +:+ pretty (now_s_auto envC))
                              (node_id s1) (node_id N)]) as Hedges.
  { unfold connectLastSpine, removeOldProblemEdge. cbn [last].
    rewrite <-!app_assoc. rewrite (list_find_app_l _ _ _ _ _ He0).
    apply list_find_Some in He0 as (Hk & _ & _).
    rewrite delete_app_l by by eapply lookup_lt_Some. done. }
  rewrite Hmove, Hedges in H3.
  cbn [executeTool localNodes localEdges]. rewrite H1.
  cbn [executeTool localNodes localEdges]. rewrite H2.
  cbn [executeTool localNodes localEdges].
  rewrite !app_assoc in H3 |- *. rewrite H3.
  cbn [localNodes localEdges].
  split_and!; try done.
  - by rewrite <-!app_assoc.
  - by rewrite <-!app_assoc.
  - by rewrite <-!app_assoc.
  - by rewrite <-!app_assoc.
  - by apply newSpineNodeFor_position.
  - simpl. by apply add_safe.
  - simpl. f_equal. by apply sub_safe.
  - simpl. f_equal. by apply sub_safe.
  - simpl. f_equal.
    unfold safeCoordinate, JS.add, JS.sub in *.
    change (2 ^ 52) with 4503599627370496 in Hxp.
    rewrite (round_safe (x (position p) - 250))
      by (change (2 ^ 53) with 9007199254740992; lia).
    rewrite (round_safe (x (position p) - 250 + 350))
      by (change (2 ^ 53) with 9007199254740992; lia).
    rewrite round_safe by (change (2 ^ 53) with 9007199254740992; lia). lia.
Qed.

(** The lemma applies to the one-spine sample document and three ids
    of their own. *)
Lemma three_nodes_on_one_spine_sample :
  let w3 := executeTools Samples.distinctIdsBatch
              (startWorking Samples.oneSpineDocument) in
  let N := newSpineNodeFor [Samples.oneSpineNode] Samples.oneSpineProblem in
  localNodes w3
  = <[2%nat := movedProblem Samples.oneSpineProblem]>
      (nodes Samples.oneSpineDocument) ++
    [ createdNode Samples.env0 (Some "People") None "people" (mkPos (400 - 150) 50);
      createdNode Samples.env0 (Some "Process") None "process"
                  (mkPos (400 - 150) 550);
      N;
      createdNode Samples.env0 (Some "Technology") None "technology"
                  (mkPos (x (position N) - 150) 50) ] ∧
  node_id N = "spine_2_auto" ∧
  position N = mkPos 750 300 ∧
  x (position (movedProblem Samples.oneSpineProblem)) = 1000.
Proof.
  pose proof (three_nodes_on_one_spine Samples.env0 Samples.env0 Samples.env0
    (Some "People") None (Some "Process") None (Some "Technology") None
    "people" "process" "technology"
    (nodes Samples.oneSpineDocument) (edges Samples.oneSpineDocument) []
    Samples.oneSpineNode Samples.oneSpineProblem
    2 1 (Constants.spineEdge "s2" "spine_1" "problem")) as H.
  cbv zeta in H.
  destruct H as (_ & _ & [Hn _] & HN & _ & HpN & Hmp & _).
  - apply (bool_decide_unpack _). vm_compute. exact I.
  - apply (bool_decide_unpack _). vm_compute. exact I.
  - reflexivity.
  - discriminate.
  - reflexivity.
  - reflexivity.
  - reflexivity.
  - reflexivity.
  - discriminate.
  - discriminate.
  - discriminate.
  - apply (bool_decide_unpack _). vm_compute. exact I.
  - apply (bool_decide_unpack _). vm_compute. exact I.
  - apply (bool_decide_unpack _). vm_compute. exact I.
  - discriminate.
  - discriminate.
  - discriminate.
  - apply (bool_decide_unpack _). vm_compute. exact I.
  - apply (bool_decide_unpack _). vm_compute. exact I.
  - split; [exact Hn|]. split; [exact HN|]. split; [exact HpN|exact Hmp].
Defined.

(** * Further properties of the handlers *)

(** ** Batches and the change log *)

(** The change log is written, never read: a tool call does to the nodes
    and edges what it does from an empty log, and appends its line. *)
Lemma executeTool_frame_log (env : Env) (tool : ToolCall)
    (ns : list Node) (es : list Edge) (log : list string) :
  executeTool env tool (mkWorking ns es log) =
  mkWorking (localNodes (executeTool env tool (mkWorking ns es [])))
            (localEdges (executeTool env tool (mkWorking ns es [])))
            (log ++ changeLog (executeTool env tool (mkWorking ns es []))).
Proof.
  destruct tool; simpl; repeat case_match; simpl; by rewrite ?app_nil_r.
Qed.

Lemma executeTools_frame_log (batch : Batch)
    (ns : list Node) (es : list Edge) (log : list string) :
  executeTools batch (mkWorking ns es log) =
  mkWorking (localNodes (executeTools batch (mkWorking ns es [])))
            (localEdges (executeTools batch (mkWorking ns es [])))
            (log ++ changeLog (executeTools batch (mkWorking ns es []))).
Proof.
  revert ns es log. induction batch as [|[env tool] rest IH]; intros ns es log.
  - simpl. by rewrite app_nil_r.
  - rewrite !executeTools_cons.
    rewrite (executeTool_frame_log env tool ns es log).
    destruct (executeTool env tool (mkWorking ns es [])) as [ns1 es1 log1].
    simpl. rewrite (IH ns1 es1 (log ++ log1)), (IH ns1 es1 log1). simpl.
    by rewrite app_assoc.
Qed.

Lemma executeTools_app (b1 b2 : Batch) (w : Working) :
  executeTools (b1 ++ b2) w = executeTools b2 (executeTools b1 w).
Proof. unfold executeTools. by rewrite foldl_app. Qed.

Lemma applyBatch_executeTools (batch : Batch) (doc : Document) :
  applyBatch batch doc =
  (mkDoc (localNodes (executeTools batch (startWorking doc)))
         (localEdges (executeTools batch (startWorking doc))),
   changeLog (executeTools batch (startWorking doc))).
Proof. destruct batch; [destruct doc|]; reflexivity. Qed.

(** X1. The tool calls of two responses, committed one response after
    the other, give the document and the change-log lines that they give
    as the tool calls of one response. *)
Theorem applyBatch_app (b1 b2 : Batch) (doc : Document) :
  applyBatch (b1 ++ b2) doc =
  (let '(doc1, log1) := applyBatch b1 doc in
   let '(doc2, log2) := applyBatch b2 doc1 in
   (doc2, log1 ++ log2)).
Proof.
  rewrite !applyBatch_executeTools, executeTools_app.
  destruct (executeTools b1 (startWorking doc)) as [ns1 es1 log1].
  unfold startWorking. simpl.
  by rewrite (executeTools_frame_log b2 ns1 es1 log1).
Qed.

(** X2. After a [clear_graph] nothing of the earlier document is left:
    the document that a batch commits is the one that the part of the
    batch from its [clear_graph] on commits from any other document. *)
Theorem clear_graph_forgets (pre rest : Batch) (env : Env)
    (doc doc' : Document) :
  (applyBatch (pre ++ (env, clear_graph) :: rest) doc).1 =
  (applyBatch ((env, clear_graph) :: rest) doc').1.
Proof.
  rewrite !applyBatch_executeTools, executeTools_app, !executeTools_cons.
  simpl.
  rewrite (executeTools_frame_log rest [] []
             (changeLog (executeTools pre (startWorking doc)) ++
              [logLine ["Cleared canvas"]])).
  by rewrite (executeTools_frame_log rest [] [] [logLine ["Cleared canvas"]]).
Qed.

Lemma appliedCount_0 (batch : Batch) (w : Working) :
  appliedCount batch w = 0%nat → executeTools batch w = w.
Proof.
  revert w. induction batch as [|[env tool] rest IH]; intros w H; [done|].
  simpl in H. rewrite executeTools_cons.
  destruct (decide (applied tool w)) as [|Hn]; [lia|].
  destruct (executeTool_log env tool w) as [_ Hw].
  rewrite (Hw Hn) in *. by apply IH.
Qed.

(** X3. A response none of whose tool calls is applied (every one names
    an unknown tool or misses its target) leaves the document as it is,
    and the message is the text of the response without a "Diagram
    Updates" part, or "Diagram updated." when the text is empty. *)
Theorem handleResponse_nothing_applied (text : string) (batch : Batch)
    (doc : Document) :
  appliedCount batch (startWorking doc) = 0%nat →
  handleResponse (mkResponse text (Some batch)) doc =
  (doc, JS.or_else (Some text) "Diagram updated.").
Proof.
  intros H. unfold handleResponse. cbn [toolCalls response_text].
  destruct batch as [|c cs]; [done|].
  rewrite applyBatch_executeTools, (appliedCount_0 _ _ H).
  destruct doc. reflexivity.
Qed.

Lemma handleResponse_nothing_applied_witness :
  appliedCount
    [(Samples.env0, update_node "no-such-node" (Some "Staff") None);
     (Samples.env0, other_tool "delete_node")]
    (startWorking Constants.INITIAL_DOCUMENT) = 0%nat ∧
  handleResponse
    (mkResponse ""
       (Some [(Samples.env0, update_node "no-such-node" (Some "Staff") None);
              (Samples.env0, other_tool "delete_node")]))
    Constants.INITIAL_DOCUMENT =
  (Constants.INITIAL_DOCUMENT, "Diagram updated.").
Proof.
  split; [vm_compute; reflexivity|].
  apply (handleResponse_nothing_applied "").
  vm_compute. reflexivity.
Defined.

(** X4. The document changes only when the service is configured and
    its call returned at least one function call.  Without a configured
    client, and when the call throws, the message is the fixed notice. *)
Theorem document_changes_only_by_function_calls (ai : bool)
    (api : ApiOutcome) (doc : Document) :
  ((handleResponse (generateProcessResponse ai api) doc).1 ≠ doc →
   ai = true ∧ ∃ text c cs, api = apiReturns text (Some (c :: cs))) ∧
  handleResponse (generateProcessResponse false api) doc =
    (doc, "API Key not configured. Please ensure process.env.API_KEY is set.") ∧
  handleResponse (generateProcessResponse true apiThrows) doc =
    (doc, "I encountered an error processing the request.").
Proof.
  split; [|done].
  destruct ai; [|done].
  destruct api as [|text [[|c cs]|]]; try done.
  intros _. split; [done|]. by exists text, c, cs.
Qed.

(** ** Editing a node by hand *)

Lemma Inv_nodes_shape (c : bool) (ns ns' : list Node) (es : list Edge) :
  nodeShape <$> ns' = nodeShape <$> ns → Inv c ns es → Inv c ns' es.
Proof.
  destruct c; simpl; [apply Cleared_nodes_shape|apply Fish_nodes_shape].
Qed.

Lemma Inv_edges_shape (c : bool) (ns : list Node) (es es' : list Edge) :
  edgeShape <$> es' = edgeShape <$> es → Inv c ns es → Inv c ns es'.
Proof.
  destruct c; simpl; [apply Cleared_edges_shape|apply Fish_edges_shape].
Qed.

Lemma same_id_same_node (ns : list Node) (n m : Node) :
  NoDup (nodeIds ns) → n ∈ ns → m ∈ ns → node_id m = node_id n → m = n.
Proof.
  intros Hnd [i Hi]%list_elem_of_lookup [j Hj]%list_elem_of_lookup Heq.
  assert (i = j) as ->; [|congruence].
  eapply (NoDup_lookup _ _ _ _ Hnd); unfold nodeIds;
    rewrite list_lookup_fmap; [by rewrite Hi|rewrite Hj; simpl; by rewrite Heq].
Qed.

(** A [map] that changes the nodes with one id changes one node when
    the ids are unique. *)
Lemma map_by_id_unique (f : Node → Node) (ns : list Node) (i : nat) (n : Node) :
  NoDup (nodeIds ns) → ns !! i = Some n →
  (λ node, if decide (node_id node = node_id n) then f node else node) <$> ns
  = <[i := f n]> ns.
Proof.
  intros Hnd Hi. apply list_eq. intros j.
  rewrite list_lookup_fmap.
  destruct (decide (i = j)) as [<-|Hne].
  - rewrite list_lookup_insert_eq by (by eapply lookup_lt_Some).
    rewrite Hi. simpl. by rewrite decide_True.
  - rewrite list_lookup_insert_ne by done.
    destruct (ns !! j) as [m|] eqn:Hj; [|done]. simpl.
    destruct (decide (node_id m = node_id n)) as [Heq|]; [|done].
    exfalso. apply Hne.
    eapply (NoDup_lookup _ _ _ _ Hnd); unfold nodeIds;
      rewrite list_lookup_fmap; [by rewrite Hi|rewrite Hj; simpl; by rewrite Heq].
Qed.

Lemma map_by_id_absent (f : Node → Node) (ns : list Node) (id : string) :
  id ∉ nodeIds ns →
  (λ node, if decide (node_id node = id) then f node else node) <$> ns = ns.
Proof.
  intros Hid. induction ns as [|m ns IH]; [done|].
  unfold nodeIds in *. rewrite fmap_cons, not_elem_of_cons in Hid.
  destruct Hid as [Hm Hid]. rewrite fmap_cons, IH by done.
  by rewrite decide_False by done.
Qed.

Lemma handleUpdateNode_shape (id : string) (p : PartialData) (ns : list Node) :
  partial_type p = None →
  nodeShape <$> handleUpdateNode id p ns = nodeShape <$> ns.
Proof.
  intros Hp. unfold handleUpdateNode. rewrite <- list_fmap_compose.
  apply list_fmap_ext. intros _ n _. simpl.
  destruct (decide (node_id n = id)); [|done].
  unfold nodeShape, mergeData. simpl. by rewrite Hp.
Qed.

(** X5. An edit of the data of a node that does not set its kind (the
    node cards set the title and the causes, the diagram the title and
    the description) keeps the structure of the document. *)
Theorem handleUpdateNode_keeps_structure (c : bool) (id : string)
    (p : PartialData) (ns : list Node) (es : list Edge) :
  partial_type p = None →
  Inv c ns es → Inv c (handleUpdateNode id p ns) es.
Proof.
  intros Hp. apply Inv_nodes_shape. by apply handleUpdateNode_shape.
Qed.

Lemma handleUpdateNode_keeps_structure_witness :
  Inv false
    (handleUpdateNode "people"
       (mkPartial None None (Some "Staff") None (Some []) None)
       Constants.INITIAL_REACTFLOW_NODES)
    Constants.INITIAL_REACTFLOW_EDGES.
Proof.
  apply (handleUpdateNode_keeps_structure false "people"
           (mkPartial None None (Some "Staff") None (Some []) None)).
  - reflexivity.
  - exact initial_Fish.
Defined.

(** X6. When the ids of the nodes are unique, an [update_node] with a
    title that is not empty does to the nodes what [handleUpdateNode]
    does with that title and, when a description comes with it, that
    description. *)
Theorem update_node_is_handleUpdateNode (env : Env) (id t : string)
    (d : option string) (ns : list Node) (es : list Edge) (log : list string) :
  NoDup (nodeIds ns) → t ≠ "" →
  localNodes (executeTool env (update_node id (Some t) d) (mkWorking ns es log))
  = handleUpdateNode id (mkPartial None None (Some t) (Some <$> d) None None) ns.
Proof.
  intros Hnd Ht. unfold handleUpdateNode. simpl.
  destruct (list_find (λ n, node_id n = id) ns) as [[i n]|] eqn:Hf.
  - apply list_find_Some in Hf as (Hi & <- & _). simpl.
    rewrite (map_by_id_unique
               (λ node, setData node (mergeData (data node)
                  (mkPartial None None (Some t) (Some <$> d) None None)))
               ns i n Hnd Hi).
    f_equal. unfold mergeData, setTitleDescription. simpl.
    rewrite decide_False by done. by destruct d.
  - simpl. rewrite map_by_id_absent; [done|].
    intros Hin. apply (list_find_id_is_Some node_id) in Hin.
    rewrite Hf in Hin. by destruct Hin.
Qed.

Lemma update_node_is_handleUpdateNode_witness :
  localNodes
    (executeTool Samples.env0 (update_node "people" (Some "Staff") None)
       Samples.initialWorking)
  = handleUpdateNode "people"
      (mkPartial None None (Some "Staff") None None None)
      Constants.INITIAL_REACTFLOW_NODES.
Proof.
  apply (update_node_is_handleUpdateNode Samples.env0 "people" "Staff" None
           Constants.INITIAL_REACTFLOW_NODES Constants.INITIAL_REACTFLOW_EDGES []).
  - apply (bool_decide_unpack _). vm_compute. exact I.
  - discriminate.
Defined.

(** X7. Saving a node card whose editor holds what the node holds (the
    editor was opened and nothing was typed) leaves the nodes as they
    are, when the ids of the nodes are unique. *)
Theorem handleSave_unedited (ns : list Node) (n : Node) (st : NodeEditor) :
  NoDup (nodeIds ns) → n ∈ ns →
  (handleSave (node_id n) (data n) (syncNodeEditor (data n) st) ns).2 = ns.
Proof.
  intros Hnd Hn. unfold handleSave. simpl.
  destruct (onEdit (data n)) as [[]|]; [|done].
  unfold handleUpdateNode.
  rewrite <- (list_fmap_id ns) at 2.
  apply list_fmap_ext. intros _ m Hm%list_elem_of_lookup_2. simpl.
  destruct (decide (node_id m = node_id n)) as [Heq|]; [|done].
  rewrite (same_id_same_node ns n m Hnd Hn Hm Heq).
  by destruct n as [? ? ? []].
Qed.

Lemma handleSave_unedited_witness :
  (handleSave "people"
     (data (Constants.categoryNode "people" 250 50
              "People" "Training, staffing, roles"))
     (syncNodeEditor
        (data (Constants.categoryNode "people" 250 50
                 "People" "Training, staffing, roles"))
        (mkNodeEditor true "" []))
     Constants.INITIAL_REACTFLOW_NODES).2
  = Constants.INITIAL_REACTFLOW_NODES.
Proof.
  apply (handleSave_unedited Constants.INITIAL_REACTFLOW_NODES
           (Constants.categoryNode "people" 250 50
              "People" "Training, staffing, roles")
           (mkNodeEditor true "" [])).
  - apply (bool_decide_unpack _). vm_compute. exact I.
  - apply list_elem_of_lookup_2 with 5%nat. reflexivity.
Defined.

Lemma injectOnEdit_shape (ns : list Node) :
  nodeShape <$> injectOnEdit ns = nodeShape <$> ns.
Proof.
  unfold injectOnEdit. rewrite <- list_fmap_compose.
  apply list_fmap_ext. intros _ n _. simpl.
  by destruct (onEdit (data n)).
Qed.

Lemma injectOnEdit_handlers (ns : list Node) :
  Forall (λ n, onEdit (data n) = Some handleUpdateNode_ref) (injectOnEdit ns).
Proof.
  unfold injectOnEdit. apply Forall_fmap, Forall_forall. intros n _. simpl.
  by destruct (onEdit (data n)) as [[]|] eqn:He.
Qed.

(** X8. The effect that injects [handleUpdateNode] leaves every node
    with a handler, changes nothing when it runs again, and keeps the
    structure of the document. *)
Theorem injectOnEdit_spec (ns : list Node) :
  Forall (λ n, onEdit (data n) = Some handleUpdateNode_ref) (injectOnEdit ns) ∧
  injectOnEdit (injectOnEdit ns) = injectOnEdit ns ∧
  (∀ c es, Inv c ns es → Inv c (injectOnEdit ns) es).
Proof.
  split_and!.
  - apply injectOnEdit_handlers.
  - unfold injectOnEdit. rewrite <- list_fmap_compose.
    apply list_fmap_ext. intros _ n _. simpl.
    by destruct (onEdit (data n)) as [[]|] eqn:He; simpl; rewrite ?He.
  - intros c es. apply Inv_nodes_shape, injectOnEdit_shape.
Qed.

(** X9. Once the effect has run, saving the card of a node writes the
    title and the causes of the editor to that node and to no other,
    when the ids of the nodes are unique. *)
Theorem handleSave_after_injectOnEdit (ns : list Node) (i : nat) (n : Node)
    (st : NodeEditor) :
  NoDup (nodeIds ns) →
  injectOnEdit ns !! i = Some n →
  (handleSave (node_id n) (data n) st (injectOnEdit ns)).2 =
  <[i := setData n (mkData (data_id (data n)) (data_type (data n))
                           (tempTitle st) (description (data n))
                           (tempCauses st) (onEdit (data n)))]>
    (injectOnEdit ns).
Proof.
  intros Hnd Hi.
  assert (onEdit (data n) = Some handleUpdateNode_ref) as He.
  { pose proof (injectOnEdit_handlers ns) as HF.
    rewrite Forall_forall in HF. apply HF. by eapply list_elem_of_lookup_2. }
  unfold handleSave. rewrite He. simpl. unfold handleUpdateNode.
  rewrite (map_by_id_unique
             (λ node, setData node (mergeData (data node)
                (mkPartial None None (Some (tempTitle st)) None
                           (Some (tempCauses st)) None)))
             (injectOnEdit ns) i n); [|
    by rewrite <- (nodeIds_shape _ _ (injectOnEdit_shape ns)) in Hnd|done].
  f_equal. unfold mergeData. simpl. by rewrite He.
Qed.

Lemma handleSave_after_injectOnEdit_witness :
  (handleSave "people"
     (mkData "people" CATEGORY "People" (Some "Training, staffing, roles") []
             (Some handleUpdateNode_ref))
     (mkNodeEditor true "Staff" [mkCause "c1" "Turnover" None []])
     (injectOnEdit Constants.INITIAL_REACTFLOW_NODES)).2 =
  <[5%nat := mkNode "people" "processNode" (mkPos 250 50)
               (mkData "people" CATEGORY "Staff"
                       (Some "Training, staffing, roles")
                       [mkCause "c1" "Turnover" None []]
                       (Some handleUpdateNode_ref))]>
    (injectOnEdit Constants.INITIAL_REACTFLOW_NODES).
Proof.
  apply (handleSave_after_injectOnEdit Constants.INITIAL_REACTFLOW_NODES 5
           (mkNode "people" "processNode" (mkPos 250 50)
              (mkData "people" CATEGORY "People"
                      (Some "Training, staffing, roles") []
                      (Some handleUpdateNode_ref)))
           (mkNodeEditor true "Staff" [mkCause "c1" "Turnover" None []])).
  - apply (bool_decide_unpack _). vm_compute. exact I.
  - reflexivity.
Defined.

Lemma or_else_nonempty (o : option string) (d : string) :
  d ≠ "" → JS.or_else o d ≠ "".
Proof.
  intros Hd. destruct o as [s|]; simpl; [|done].
  by destruct (decide (s = "")).
Qed.

(** X10. [handleAddNode] always appends one node, with the id it
    returns, a title that is not empty and no cause, on the diagonal
    that starts at (100, 100), and leaves the other nodes as they are.
    It does not look for the id among the nodes: with the id of a node
    that exists, the ids are no longer unique. *)
Theorem handleAddNode_spec (env : UiEnv) (type : NodeType)
    (argTitle argDescription desiredId : option string) (ns : list Node) :
  ∃ n', handleAddNode env type argTitle argDescription desiredId ns
        = (ns ++ [n'], node_id n') ∧
    title (data n') ≠ "" ∧ causes (data n') = [] ∧
    data_type (data n') = type ∧
    position n' = mkPos (100 + 50 * Z.of_nat (length ns))
                        (100 + 50 * Z.of_nat (length ns)) ∧
    (∀ d, JS.truthy_value desiredId = Some d →
          node_id n' = d ∧ (d ∈ nodeIds ns → ¬ NoDup (nodeIds (ns ++ [n'])))).
Proof.
  unfold handleAddNode. cbv zeta.
  match goal with |- context [ns ++ [?n]] => exists n end.
  split; [reflexivity|]. simpl. split_and!.
  - apply or_else_nonempty. by destruct (decide (type = PROBLEM)).
  - done.
  - done.
  - f_equal; lia.
  - intros d Hd. rewrite (or_else_truthy _ _ _ Hd). split; [done|].
    intros Hin Hnd. unfold nodeIds in Hnd.
    rewrite fmap_app in Hnd. apply NoDup_app in Hnd as (_ & Hdisj & _).
    apply (Hdisj d Hin). simpl. apply list_elem_of_here.
Qed.

(** ** Connections *)

Lemma sameHandle_trans (a b c : option string) :
  ReactFlow.sameHandle a b → ReactFlow.sameHandle b c → ReactFlow.sameHandle a c.
Proof.
  unfold ReactFlow.sameHandle.
  intros [->|[Ha Hb]] [->|[Hb' Hc]]; auto.
Qed.

Lemma addEdge_again (e e' : Edge) (es : list Edge) :
  sameEnds e e' →
  ReactFlow.addEdge e' (ReactFlow.addEdge e es) = ReactFlow.addEdge e es.
Proof.
  intros (Hs & Ht & Hsh & Hth). unfold ReactFlow.addEdge.
  rewrite Hs, Ht.
  destruct (decide (source e = "" ∨ target e = "")) as [|Hne].
  { done. }
  destruct (decide (ReactFlow.connectionExists e es)) as [Hex|Hnex].
  - rewrite decide_True; [done|].
    unfold ReactFlow.connectionExists in *.
    eapply Exists_impl; [exact Hex|].
    intros el (H1 & H2 & H3 & H4). unfold ReactFlow.sameConnection.
    rewrite Hs, Ht. split_and!; [done|done| |]; by eapply sameHandle_trans.
  - rewrite decide_True; [done|].
    unfold ReactFlow.connectionExists. apply Exists_app. right.
    apply Exists_cons_hd. unfold ReactFlow.sameConnection. by rewrite Hs, Ht.
Qed.

(** X11. Drawing the connection that was just drawn adds no edge; and
    a connection one of whose ends is [null] adds none. *)
Theorem handleConnect_again (env1 env2 : UiEnv) (params : Connection)
    (es : list Edge) :
  handleConnect env2 params (handleConnect env1 params es)
  = handleConnect env1 params es ∧
  (conn_source params = None ∨ conn_target params = None →
   handleConnect env1 params es = es).
Proof.
  split.
  - apply addEdge_again. unfold sameEnds, ReactFlow.sameHandle. simpl. auto.
  - intros H. unfold handleConnect, ReactFlow.addEdge. simpl.
    rewrite decide_True; [done|]. destruct H as [-> | ->]; auto.
Qed.

(** X12. A [connect_nodes] between two ids that a [connect_nodes] has
    just connected, whatever its label, leaves the edges as they are; it
    still writes its line to the change log. *)
Theorem connect_nodes_again (env1 env2 : Env) (s t : string)
    (l1 l2 : option string) (w : Working) :
  let w1 := executeTool env1 (connect_nodes s t l1) w in
  let w2 := executeTool env2 (connect_nodes s t l2) w1 in
  localEdges w2 = localEdges w1 ∧ localNodes w2 = localNodes w1 ∧
  changeLog w2 = changeLog w1 ++ [logLine ["Connected "; s; " -> "; t]].
Proof.
  simpl. split_and!; [|done|done].
  apply addEdge_again. unfold sameEnds, ReactFlow.sameHandle. simpl. auto.
Qed.

(** ** Editing and deleting an edge *)

Lemma updateEdge_None (id : string) (l : option string)
    (cs : option (list Cause)) (e : Edge) :
  updateEdge id l cs e = None ↔
  cs = None ∧ edge_id e = id ∧ edge_data e = None.
Proof.
  unfold updateEdge.
  destruct (decide (edge_id e = id)) as [Hid|Hid];
    destruct cs as [cs|]; destruct (edge_data e) as [d|];
    (split; [try done|by intros (? & ? & ?)]).
Qed.

(** X13. [handleUpdateEdge] throws exactly when it is given no causes
    and an edge with the id has no [data] (as the edges of the initial
    document and the edges of the spine have none). *)
Theorem handleUpdateEdge_throws (id : string) (l : option string)
    (cs : option (list Cause)) (es : list Edge) :
  handleUpdateEdge id l cs es = None ↔
  cs = None ∧ ∃ e, e ∈ es ∧ edge_id e = id ∧ edge_data e = None.
Proof.
  unfold handleUpdateEdge. rewrite mapM_None, Exists_exists.
  split.
  - intros (e & He & (-> & Hid & Hd)%updateEdge_None). eauto.
  - intros (-> & e & He & Hid & Hd). exists e. split; [done|].
    by apply updateEdge_None.
Qed.

Lemma updateEdge_Some (id : string) (l : option string)
    (cs : option (list Cause)) (e e' : Edge) :
  updateEdge id l cs e = Some e' →
  edgeWiring e' = edgeWiring e ∧
  (edge_id e ≠ id → e' = e) ∧
  (edge_id e = id →
   label e' = match l with Some v => Some v | None => label e end ∧
   edge_data e' =
     Some (mkEdgeData (edge_data e ≫= data_label)
             match cs with
             | Some v => Some v
             | None => edge_data e ≫= data_causes
             end)).
Proof.
  unfold updateEdge.
  destruct (decide (edge_id e = id)) as [Hid|Hid].
  - destruct cs as [cs|]; [|destruct (edge_data e) as [d|] eqn:Hd; [|done]];
      intros [= <-]; done.
  - by intros [= <-].
Qed.

(** X14. When [handleUpdateEdge] returns, every edge has kept its id,
    its source, its target, its style, its type and its handles; an edge
    with another id is as it was; an edge with the id has the label and
    the causes that were given, and the ones it had where none was
    given, and the label of its data as it was.  The structure of the
    document is kept. *)
Theorem handleUpdateEdge_keeps_structure (c : bool) (id : string)
    (l : option string) (cs : option (list Cause))
    (ns : list Node) (es es' : list Edge) :
  handleUpdateEdge id l cs es = Some es' →
  edgeWiring <$> es' = edgeWiring <$> es ∧
  (∀ i e, es !! i = Some e → edge_id e ≠ id → es' !! i = Some e) ∧
  (∀ i e, es !! i = Some e → edge_id e = id →
     ∃ e', es' !! i = Some e' ∧
       label e' = match l with Some v => Some v | None => label e end ∧
       edge_data e' =
         Some (mkEdgeData (edge_data e ≫= data_label)
                 match cs with
                 | Some v => Some v
                 | None => edge_data e ≫= data_causes
                 end)) ∧
  (Inv c ns es → Inv c ns es').
Proof.
  unfold handleUpdateEdge. intros HF%mapM_Some.
  assert (edgeWiring <$> es' = edgeWiring <$> es) as Hw.
  { induction HF as [|e e' es es' He _ IH]; [done|].
    apply updateEdge_Some in He as (H1 & _).
    rewrite !fmap_cons. by rewrite H1, IH. }
  split_and!; [done| | |].
  - intros i e Hi Hne.
    destruct (Forall2_lookup_l _ _ _ _ _ HF Hi) as (e' & Hi' & He).
    apply updateEdge_Some in He as (_ & He & _). by rewrite Hi', (He Hne).
  - intros i e Hi Heq.
    destruct (Forall2_lookup_l _ _ _ _ _ HF Hi) as (e' & Hi' & He).
    apply updateEdge_Some in He as (_ & _ & He). exists e'. split; [done|].
    by apply He.
  - apply Inv_edges_shape.
    apply (f_equal (fmap (λ w : string * string * string * option Style *
                               option string * option string * option string,
                            (w.1.1.1.1.1.2, w.1.1.1.1.2)))) in Hw.
    rewrite <- !list_fmap_compose in Hw. exact Hw.
Qed.

Lemma handleUpdateEdge_keeps_structure_witness :
  handleUpdateEdge "e_people" (Some "staffing") (Some [])
    Constants.INITIAL_REACTFLOW_EDGES
  = Some (<[4%nat := mkEdge "e_people" "people" "spine_1" (Some "staffing")
                       (Some Constants.ribStyle) (Some "straight")
                       (Some "bottom") (Some "rib-top")
                       (Some (mkEdgeData None (Some [])))]>
            Constants.INITIAL_REACTFLOW_EDGES) ∧
  Inv false Constants.INITIAL_REACTFLOW_NODES
    (<[4%nat := mkEdge "e_people" "people" "spine_1" (Some "staffing")
                  (Some Constants.ribStyle) (Some "straight")
                  (Some "bottom") (Some "rib-top")
                  (Some (mkEdgeData None (Some [])))]>
       Constants.INITIAL_REACTFLOW_EDGES).
Proof.
  split; [reflexivity|].
  refine (proj2 (proj2 (proj2
    (handleUpdateEdge_keeps_structure false "e_people" (Some "staffing")
       (Some []) Constants.INITIAL_REACTFLOW_NODES
       Constants.INITIAL_REACTFLOW_EDGES _ _))) _).
  - reflexivity.
  - exact initial_Fish.
Defined.

Lemma ribCounts_filter (P : Edge → Prop) `{!∀ e, Decision (P e)}
    (ns : list Node) (es : list Edge) (sid : string) :
  (topRibCount ns (filter P es) sid ≤ topRibCount ns es sid)%nat ∧
  (bottomRibCount ns (filter P es) sid ≤ bottomRibCount ns es sid)%nat.
Proof.
  unfold topRibCount, bottomRibCount.
  induction es as [|e es [IH1 IH2]]; [done|].
  rewrite !(filter_cons _ e es).
  destruct (decide (P e)); rewrite ?filter_cons;
    repeat case_decide; simpl; lia.
Qed.

Lemma Inv_filter_edges (P : Edge → Prop) `{!∀ e, Decision (P e)}
    (c : bool) (ns : list Node) (es : list Edge) :
  Inv c ns es → Inv c ns (filter P es).
Proof.
  assert (endpointsIn ns es → endpointsIn ns (filter P es)) as Hep.
  { unfold endpointsIn. rewrite !Forall_forall.
    intros Hall e [_ He]%list_elem_of_filter. by apply Hall. }
  destruct c; simpl.
  - intros [H1 H2]. split; [by apply Hep|done].
  - intros [H1 H2 H3 H4 H5 H6]. split; try done; [by apply Hep|].
    unfold slotsRespected in *. eapply Forall_impl; [exact H5|].
    intros s Hs Hk. destruct (Hs Hk) as [Ht Hb].
    destruct (ribCounts_filter P ns es (node_id s)). split; lia.
Qed.

(** X15. [handleDeleteEdge] leaves no edge with the id, keeps the
    other edges in their order and the nodes, and keeps the structure of
    the document. *)
Theorem handleDeleteEdge_spec (c : bool) (id : string) (doc : Document) :
  let doc' := handleDeleteEdge id doc in
  nodes doc' = nodes doc ∧
  (id ∉ edge_id <$> edges doc') ∧
  (∀ e, e ∈ edges doc' ↔ e ∈ edges doc ∧ edge_id e ≠ id) ∧
  edges doc' `sublist_of` edges doc ∧
  (Inv c (nodes doc) (edges doc) → Inv c (nodes doc') (edges doc')).
Proof.
  simpl. split_and!.
  - done.
  - intros (e & Hid & [He _]%list_elem_of_filter)%list_elem_of_fmap. done.
  - intros e. rewrite list_elem_of_filter. tauto.
  - apply sublist_filter.
  - apply Inv_filter_edges.
Qed.

Lemma same_id_same_edge (es : list Edge) (e m : Edge) :
  NoDup (edge_id <$> es) → e ∈ es → m ∈ es → edge_id m = edge_id e → m = e.
Proof.
  intros Hnd [i Hi]%list_elem_of_lookup [j Hj]%list_elem_of_lookup Heq.
  assert (i = j) as ->; [|congruence].
  eapply (NoDup_lookup _ _ _ _ Hnd);
    rewrite list_lookup_fmap; [by rewrite Hi|rewrite Hj; simpl; by rewrite Heq].
Qed.

(** X16. Opening the editor of a connection and saving it at once
    never throws, and it keeps the ends, the ids, the causes and the
    label that is shown of every edge, when the ids of the edges are
    unique. *)
Theorem saveEdgeEdit_unedited (es : list Edge) (e : Edge) (st : EdgeEditor) :
  NoDup (edge_id <$> es) → e ∈ es →
  ∃ es', (saveEdgeEdit (onEdgeClick e st) es).2 = Some es' ∧
    edgeShape <$> es' = edgeShape <$> es ∧
    edge_id <$> es' = edge_id <$> es ∧
    edgeCauses <$> es' = edgeCauses <$> es ∧
    (λ e, JS.or_else (label e) "") <$> es' = (λ e, JS.or_else (label e) "") <$> es.
Proof.
  intros Hnd He. unfold saveEdgeEdit, onEdgeClick, handleUpdateEdge. simpl.
  destruct (mapM _ es) as [es'|] eqn:HM.
  2:{ apply mapM_None, Exists_exists in HM as (m & _ & Hm).
      apply updateEdge_None in Hm as [? _]. done. }
  exists es'. split; [done|].
  apply mapM_Some in HM.
  assert (Forall (λ m, m ∈ es) es) as Hin by by apply Forall_forall.
  assert (∀ l l',
    Forall2 (λ x y, updateEdge (edge_id e) (Some (JS.or_else (label e) ""))
                      (Some (edgeCauses e)) x = Some y) l l' →
    Forall (λ m, m ∈ es) l →
    edgeShape <$> l' = edgeShape <$> l ∧
    edge_id <$> l' = edge_id <$> l ∧
    edgeCauses <$> l' = edgeCauses <$> l ∧
    (λ e, JS.or_else (label e) "") <$> l' = (λ e, JS.or_else (label e) "") <$> l)
    as Hgen; [|by apply Hgen].
  clear HM Hin es'. intros l l' HM Hin.
  induction HM as [|m m' l l' Hm _ IH]; [done|].
  apply Forall_cons in Hin as [Hm0 Hin].
  destruct (IH Hin) as (IH1 & IH2 & IH3 & IH4).
  rewrite !fmap_cons, IH1, IH2, IH3, IH4.
  unfold updateEdge in Hm.
  destruct (decide (edge_id m = edge_id e)) as [Heq|].
  - injection Hm as <-.
    rewrite (same_id_same_edge _ _ _ Hnd He Hm0 Heq).
    split_and!; try done.
    simpl. do 2 f_equal.
    destruct (label e) as [s|]; simpl; [|done].
    destruct (decide (s = "")) as [->|]; simpl; [done|].
    by rewrite decide_False.
  - by injection Hm as <-.
Qed.

Lemma saveEdgeEdit_unedited_witness :
  ∃ es', (saveEdgeEdit
            (onEdgeClick (Constants.spineEdge "s1" "spine_tail" "spine_1")
                         (mkEdgeEditor None "" [] ""))
            Constants.INITIAL_REACTFLOW_EDGES).2 = Some es' ∧
    edgeShape <$> es' = edgeShape <$> Constants.INITIAL_REACTFLOW_EDGES ∧
    edge_id <$> es' = edge_id <$> Constants.INITIAL_REACTFLOW_EDGES ∧
    edgeCauses <$> es' = edgeCauses <$> Constants.INITIAL_REACTFLOW_EDGES ∧
    (λ e, JS.or_else (label e) "") <$> es'
    = (λ e, JS.or_else (label e) "") <$> Constants.INITIAL_REACTFLOW_EDGES.
Proof.
  apply (saveEdgeEdit_unedited Constants.INITIAL_REACTFLOW_EDGES
           (Constants.spineEdge "s1" "spine_tail" "spine_1")
           (mkEdgeEditor None "" [] "")).
  - apply (bool_decide_unpack _). vm_compute. exact I.
  - apply list_elem_of_lookup_2 with 0%nat. reflexivity.
Defined.

(** ** Deleting a node *)

Lemma nodeIds_filter (id i : string) (ns : list Node) :
  i ∈ nodeIds (filter (λ n, node_id n ≠ id) ns) ↔ i ∈ nodeIds ns ∧ i ≠ id.
Proof.
  unfold nodeIds. rewrite !list_elem_of_fmap. split.
  - intros (n & -> & [Hn Hin]%list_elem_of_filter). eauto.
  - intros [(n & -> & Hin) Hne]. exists n. split; [done|].
    by apply list_elem_of_filter.
Qed.

Lemma handleDeleteNode_endpointsIn (id : string) (ns : list Node) (es : list Edge) :
  endpointsIn ns es →
  endpointsIn (filter (λ n, node_id n ≠ id) ns)
              (filter (λ edge, source edge ≠ id ∧ target edge ≠ id) es).
Proof.
  unfold endpointsIn. rewrite !Forall_forall.
  intros Hall e [[Hs Ht] He]%list_elem_of_filter.
  destruct (Hall e He) as [H1 H2].
  split; by apply nodeIds_filter.
Qed.

(** X17. [handleDeleteNode] keeps the edges at nodes: when every edge
    started and ended at the id of a node, every edge that is left
    does. *)
Theorem handleDeleteNode_keeps_endpoints (id : string) (doc : Document) :
  endpointsExist doc → endpointsExist (handleDeleteNode id doc).
Proof. apply handleDeleteNode_endpointsIn. Qed.

Lemma handleDeleteNode_keeps_endpoints_witness :
  endpointsExist (handleDeleteNode "spine_2" Constants.INITIAL_DOCUMENT).
Proof.
  apply (handleDeleteNode_keeps_endpoints "spine_2" Constants.INITIAL_DOCUMENT).
  apply (bool_decide_unpack _). vm_compute. exact I.
Defined.

Lemma filter_filter_Forall {A} (P Q : A → Prop)
    `{!∀ x, Decision (P x)} `{!∀ x, Decision (Q x)} (l : list A) :
  Forall (λ a, P a → Q a) l → filter P (filter Q l) = filter P l.
Proof.
  induction 1 as [|a l Ha _ IH]; [done|].
  rewrite (filter_cons Q a l), (filter_cons P a l).
  destruct (decide (Q a)) as [Hq|Hq].
  - rewrite filter_cons. by rewrite IH.
  - rewrite IH. rewrite decide_False; [done|]. intros Hp. by apply Hq, Ha.
Qed.

Lemma sourceNode_filter (id : string) (ns : list Node) (e : Edge) :
  source e ≠ id →
  sourceNode (filter (λ n, node_id n ≠ id) ns) e = sourceNode ns e.
Proof.
  intros Hne. unfold sourceNode.
  induction ns as [|n ns IH]; [done|].
  rewrite filter_cons.
  destruct (decide (node_id n ≠ id)) as [Hn|Hn]; simpl.
  - destruct (decide (node_id n = source e)); [done|].
    set (a := list_find _ (filter _ ns)) in *.
    set (b := list_find _ ns) in *. clearbody a b.
    destruct a as [[? ?]|], b as [[? ?]|]; simpl in *; congruence.
  - rewrite decide_False by (intros Heq; apply Hn; congruence).
    rewrite IH.
    by destruct (list_find _ ns) as [[? ?]|].
Qed.

(** X18. Deleting a category node keeps the structure of the
    document. *)
Theorem handleDeleteNode_category_keeps_structure (c : bool) (id : string)
    (doc : Document) :
  Inv c (nodes doc) (edges doc) →
  Forall (λ n, node_id n = id → data_type (data n) = CATEGORY) (nodes doc) →
  Inv c (nodes (handleDeleteNode id doc)) (edges (handleDeleteNode id doc)).
Proof.
  destruct doc as [ns es]. simpl. intros HI Hcat.
  set (ns' := filter (λ n, node_id n ≠ id) ns).
  set (es' := filter (λ edge, source edge ≠ id ∧ target edge ≠ id) es).
  assert (Hsub : ∀ n, n ∈ ns' → n ∈ ns).
  { intros n [_ Hn]%list_elem_of_filter. done. }
  destruct c; simpl in *.
  - destruct HI as [H1 H2]. split.
    + by apply handleDeleteNode_endpointsIn.
    + rewrite Forall_forall in *. intros n Hn. by apply H2, Hsub.
  - destruct HI as [H1 H2 H3 H4 H5 H6].
    assert (Hkind : ∀ (k : NodeType), k ≠ CATEGORY →
      Forall (λ a, data_type (data a) = k → node_id a ≠ id) ns).
    { intros k Hk. eapply Forall_impl; [exact Hcat|].
      intros n Hn Hkn Hid. rewrite (Hn Hid) in Hkn. by subst. }
    split.
    + eapply sublist_NoDup; [exact H1|].
      apply fmap_sublist, sublist_filter.
    + by apply handleDeleteNode_endpointsIn.
    + unfold problemCountIn. subst ns'.
      rewrite filter_filter_Forall; [done|]. by apply Hkind.
    + rewrite Forall_forall in *. intros n Hn. by apply H4, Hsub.
    + unfold slotsRespected in *. rewrite Forall_forall in *.
      intros s Hs Hk. destruct (H5 s (Hsub s Hs) Hk) as [Ht Hb].
      subst ns' es'.
      destruct (ribCounts_ext (filter (λ n, node_id n ≠ id) ns) ns
                  (filter (λ edge, source edge ≠ id ∧ target edge ≠ id) es)
                  (node_id s)) as [E1 E2].
      { apply Forall_forall.
        intros e [[Hse _] _]%list_elem_of_filter.
        unfold sourceHeight. by rewrite sourceNode_filter. }
      destruct (ribCounts_filter (λ edge, source edge ≠ id ∧ target edge ≠ id)
                  ns es (node_id s)).
      rewrite E1, E2. split; lia.
    + intros j [Hj _]%nodeIds_filter.
      etrans; [by apply H6|]. apply Nat.eq_le_incl.
      unfold spineNodes_of. subst ns'. f_equal. f_equal.
      symmetry. apply filter_filter_Forall.
      eapply Forall_impl; [exact (Hkind SPINE ltac:(done))|].
      intros n Hn [Hk _]. by apply Hn.
Qed.

Lemma handleDeleteNode_category_keeps_structure_witness :
  Inv false (nodes (handleDeleteNode "people" Constants.INITIAL_DOCUMENT))
            (edges (handleDeleteNode "people" Constants.INITIAL_DOCUMENT)).
Proof.
  apply (handleDeleteNode_category_keeps_structure false "people"
           Constants.INITIAL_DOCUMENT).
  - exact initial_Fish.
  - apply (bool_decide_unpack _). vm_compute. exact I.
Defined.

(** ** The editors of causes and evidence *)

Lemma filter_id_absent {A} (f : A → string) (id : string) (l : list A) :
  id ∉ f <$> l → filter (λ a, f a ≠ id) l = l.
Proof.
  induction l as [|a l IH]; [done|].
  rewrite fmap_cons, not_elem_of_cons. intros [Ha Hl].
  rewrite filter_cons, decide_True by done. by rewrite IH.
Qed.

Lemma filter_id_snoc {A} (f : A → string) (a : A) (l : list A) :
  f a ∉ f <$> l → filter (λ b, f b ≠ f a) (l ++ [a]) = l.
Proof.
  intros Hl. rewrite filter_app, filter_id_absent by done.
  rewrite filter_cons, decide_False by (intros Hne; by apply Hne).
  by rewrite filter_nil, app_nil_r.
Qed.

(** X19. A name of which [trim] leaves nothing adds no cause: the
    causes and the input field stay as they are.  Any other name adds
    one cause at the end, with the new id, that name and no evidence,
    and empties the input field.  In both cases removing the new id
    gives back the causes as they were. *)
Theorem addCause_then_removeCause (trim : string → string) (uuid : string)
    (cs : list Cause) (input : string) :
  uuid ∉ cause_id <$> cs →
  (trim input = "" → addCauseTo trim uuid cs input = (cs, input)) ∧
  (trim input ≠ "" →
   addCauseTo trim uuid cs input = (cs ++ [mkCause uuid input None []], "")) ∧
  removeCause uuid (addCauseTo trim uuid cs input).1 = cs.
Proof.
  intros Hid. unfold addCauseTo, removeCause, isBlank.
  destruct (decide (trim input = "")) as [Hb|Hb]; simpl.
  - split_and!; [done|done|]. by apply filter_id_absent.
  - split_and!; [done|done|].
    by apply (filter_id_snoc cause_id (mkCause uuid input None [])).
Qed.

Lemma addCause_then_removeCause_witness :
  addCauseTo JS.trimASCII "u2" [mkCause "u1" "Turnover" None []] "   "
  = ([mkCause "u1" "Turnover" None []], "   ") ∧
  addCauseTo JS.trimASCII "u2" [mkCause "u1" "Turnover" None []] " Training"
  = ([mkCause "u1" "Turnover" None []; mkCause "u2" " Training" None []], "") ∧
  removeCause "u2"
    (addCauseTo JS.trimASCII "u2" [mkCause "u1" "Turnover" None []]
       " Training").1
  = [mkCause "u1" "Turnover" None []].
Proof.
  assert ("u2" ∉ cause_id <$> [mkCause "u1" "Turnover" None []]) as Hid
    by (apply (bool_decide_unpack _); vm_compute; exact I).
  split_and!.
  - apply (addCause_then_removeCause JS.trimASCII "u2"
             [mkCause "u1" "Turnover" None []] "   " Hid). reflexivity.
  - apply (addCause_then_removeCause JS.trimASCII "u2"
             [mkCause "u1" "Turnover" None []] " Training" Hid). discriminate.
  - apply (addCause_then_removeCause JS.trimASCII "u2"
             [mkCause "u1" "Turnover" None []] " Training" Hid).
Defined.

(** X20. The ids of the causes of an editor stay unique: when a cause
    is added with a new id, when a cause is replaced by one with its id
    (as a change of its name or of its evidence does), and when a cause
    is removed. *)
Theorem cause_ids_stay_unique (cs : list Cause) :
  NoDup (cause_id <$> cs) →
  (∀ trim uuid input, uuid ∉ cause_id <$> cs →
     NoDup (cause_id <$> (addCauseTo trim uuid cs input).1)) ∧
  (∀ updated, NoDup (cause_id <$> updateCause (cause_id updated) updated cs)) ∧
  (∀ causeId, NoDup (cause_id <$> removeCause causeId cs)).
Proof.
  intros Hnd. split_and!.
  - intros trim uuid input Hid. unfold addCauseTo.
    destruct (decide (isBlank trim input)); simpl; [done|].
    rewrite fmap_app. apply NoDup_app. split_and!; [done| |apply NoDup_singleton].
    intros i Hi ->%list_elem_of_singleton. done.
  - intros updated.
    assert (cause_id <$> updateCause (cause_id updated) updated cs
            = cause_id <$> cs) as ->; [|done].
    unfold updateCause. rewrite <- list_fmap_compose.
    apply list_fmap_ext. intros _ r _. simpl.
    by destruct (decide (cause_id r = cause_id updated)).
  - intros causeId. eapply sublist_NoDup; [exact Hnd|].
    apply fmap_sublist, sublist_filter.
Qed.

Lemma cause_ids_stay_unique_witness :
  NoDup (cause_id <$>
           updateCause "u1" (mkCause "u1" "Staff turnover" None [])
             [mkCause "u1" "Turnover" None []; mkCause "u2" "Training" None []]).
Proof.
  refine (proj1 (proj2 (cause_ids_stay_unique
            [mkCause "u1" "Turnover" None []; mkCause "u2" "Training" None []] _))
            (mkCause "u1" "Staff turnover" None [])).
  apply (bool_decide_unpack _). vm_compute. exact I.
Defined.

Lemma same_id_same_cause (cs : list Cause) (c r : Cause) :
  NoDup (cause_id <$> cs) → c ∈ cs → r ∈ cs → cause_id r = cause_id c → r = c.
Proof.
  intros Hnd [i Hi]%list_elem_of_lookup [j Hj]%list_elem_of_lookup Heq.
  assert (i = j) as ->; [|congruence].
  eapply (NoDup_lookup _ _ _ _ Hnd);
    rewrite list_lookup_fmap; [by rewrite Hi|rewrite Hj; simpl; by rewrite Heq].
Qed.

(** X21. A piece of evidence that was added to a cause with a new id
    and is deleted again leaves the causes of the editor as they were,
    when the ids of the causes are unique. *)
Theorem addEvidence_then_deleteEvidence (trim : string → string)
    (uuid input : string) (cause added : Cause) (cs : list Cause) :
  NoDup (cause_id <$> cs) → cause ∈ cs →
  uuid ∉ ev_id <$> evidence cause →
  addEvidenceTo trim uuid cause input = Some added →
  updateCause (cause_id added) (deleteEvidence uuid added)
    (updateCause (cause_id added) added cs) = cs.
Proof.
  intros Hnd Hc Hid. unfold addEvidenceTo.
  destruct (decide (isBlank trim input)); [done|]. intros [= <-]. simpl.
  unfold updateCause. rewrite <- list_fmap_compose.
  rewrite <- (list_fmap_id cs) at 2.
  apply list_fmap_ext. intros _ r Hr%list_elem_of_lookup_2. simpl.
  destruct (decide (cause_id r = cause_id cause)) as [Heq|Hne]; simpl.
  - rewrite decide_True by done.
    rewrite (same_id_same_cause cs cause r Hnd Hc Hr Heq).
    unfold deleteEvidence. simpl.
    rewrite (filter_id_snoc ev_id (mkEvidence uuid input (Some ""))) by done.
    by destruct cause.
  - by rewrite decide_False.
Qed.

Lemma addEvidence_then_deleteEvidence_witness :
  updateCause "u1"
    (deleteEvidence "v1"
       (mkCause "u1" "Turnover" None [mkEvidence "v1" "Exit interviews" (Some "")]))
    (updateCause "u1"
       (mkCause "u1" "Turnover" None [mkEvidence "v1" "Exit interviews" (Some "")])
       [mkCause "u1" "Turnover" None []; mkCause "u2" "Training" None []])
  = [mkCause "u1" "Turnover" None []; mkCause "u2" "Training" None []].
Proof.
  apply (addEvidence_then_deleteEvidence JS.trimASCII "v1" "Exit interviews"
           (mkCause "u1" "Turnover" None [])
           (mkCause "u1" "Turnover" None
                    [mkEvidence "v1" "Exit interviews" (Some "")])
           [mkCause "u1" "Turnover" None []; mkCause "u2" "Training" None []]).
  - apply (bool_decide_unpack _). vm_compute. exact I.
  - apply list_elem_of_lookup_2 with 0%nat. reflexivity.
  - apply (bool_decide_unpack _). vm_compute. exact I.
  - reflexivity.
Defined.

(** ** The counter of factors *)

Lemma factorCount_foldl (a : nat) (ns : list Node) :
  foldl (λ acc node, (acc + length (causes (data node)))%nat) a ns
  = (a + factorCount ns)%nat.
Proof.
  unfold factorCount. revert a.
  induction ns as [|n ns IH] using rev_ind; intros a; simpl; [lia|].
  rewrite !foldl_app. simpl. rewrite IH. lia.
Qed.

Lemma factorCount_app (ns ms : list Node) :
  factorCount (ns ++ ms) = (factorCount ns + factorCount ms)%nat.
Proof. unfold factorCount at 1. by rewrite foldl_app, !factorCount_foldl. Qed.

Lemma factorCount_cons (n : Node) (ns : list Node) :
  factorCount (n :: ns) = (length (causes (data n)) + factorCount ns)%nat.
Proof. unfold factorCount at 1. simpl. by rewrite factorCount_foldl. Qed.

Lemma factorCount_insert (ns : list Node) (i : nat) (n n' : Node) :
  ns !! i = Some n →
  (factorCount (<[i := n']> ns) + length (causes (data n)))%nat
  = (factorCount ns + length (causes (data n')))%nat.
Proof.
  intros Hi. rewrite insert_take_drop by (by eapply lookup_lt_Some).
  rewrite <- (take_drop_middle ns i n Hi) at 3.
  rewrite !factorCount_app, !factorCount_cons. lia.
Qed.

Lemma moveProblem_factorCount (ns : list Node) (p : Node) :
  NoDup (nodeIds ns) → p ∈ ns →
  factorCount (moveProblem p ns) = factorCount ns.
Proof.
  intros Hnd Hp. unfold moveProblem.
  destruct (list_find_id_unique ns p Hnd Hp) as (i & -> & Hi).
  pose proof (factorCount_insert ns i p (movedProblem p) Hi) as H.
  simpl in H. lia.
Qed.

Lemma addNodeFishbone_factorCount (env : Env)
    (argTitle argDescription desiredId : option string)
    (ns : list Node) (es : list Edge) :
  NoDup (nodeIds ns) →
  factorCount (addNodeFishbone env argTitle argDescription desiredId ns es).1.1
  = factorCount ns.
Proof.
  intros Hnd. unfold addNodeFishbone.
  destruct (match JS.truthy_value desiredId with
            | Some d => _ | None => _ end) as [d|]; [done|].
  unfold placeNode.
  destruct (decide (targetSpineId (checkSlots ns es (spineNodes_of ns)) = ""))
    as [?|?];
    [destruct (list_find (λ n, data_type (data n) = PROBLEM) ns)
       as [[i p]|] eqn:Hf|]; simpl.
  - apply list_find_Some in Hf as (Hi & _ & _).
    rewrite !factorCount_app, moveProblem_factorCount;
      [|done|by eapply list_elem_of_lookup_2].
    unfold factorCount at 2 3. simpl. lia.
  - rewrite factorCount_app. unfold factorCount at 2. simpl. lia.
  - rewrite factorCount_app. unfold factorCount at 2. simpl. lia.
Qed.

(** X22. The counter of factors of the header after a tool call, when
    the ids of the nodes are unique: a [clear_graph] sets it to zero, an
    [add_cause] that finds the node it aims at adds one, and no other
    tool call changes it. *)
Theorem factorCount_executeTool (env : Env) (tool : ToolCall) (w : Working) :
  NoDup (nodeIds (localNodes w)) →
  factorCount (localNodes (executeTool env tool w)) =
  if isClear tool then 0%nat
  else (factorCount (localNodes w) + addedFactors tool w)%nat.
Proof.
  intros Hnd. destruct tool; simpl.
  - done.
  - pose proof (addNodeFishbone_factorCount env title0 description0 id
                  (localNodes w) (localEdges w) Hnd) as H.
    destruct (addNodeFishbone _ _ _ _ _ _) as [[ns' es'] r]. simpl in *. lia.
  - lia.
  - destruct (list_find _ (localNodes w)) as [[i n]|] eqn:Hf; simpl; [|lia].
    apply list_find_Some in Hf as (Hi & _ & _).
    pose proof (factorCount_insert (localNodes w) i n
      (setData n (setTitleDescription (data n)
         (JS.or_else title0 (title (data n)))
         match description0 with Some d => Some d | None => description (data n) end))
      Hi) as H.
    simpl in H. lia.
  - destruct (decide (isNodeTarget targetType)) as [Ht|Ht].
    + destruct (list_find _ (localNodes w)) as [[i n]|] eqn:Hf; simpl.
      * destruct (decide (isNodeTarget targetType ∧ _)) as [_|Hn];
          [|exfalso; apply Hn; split; [done|by eapply (list_find_id_elem node_id)]].
        apply list_find_Some in Hf as (Hi & _ & _).
        pose proof (factorCount_insert (localNodes w) i n
          (setData n (setCauses (data n)
             (causes (data n) ++ [mkCause (uuid env) name description0 []])))
          Hi) as H.
        simpl in H. rewrite length_app in H. simpl in H. lia.
      * destruct (decide (isNodeTarget targetType ∧ _)) as [[_ Hin]|_]; [|lia].
        apply (list_find_id_is_Some node_id) in Hin.
        rewrite Hf in Hin. by destruct Hin.
    + destruct (decide (isNodeTarget targetType ∧ _)) as [[? _]|_]; [done|].
      destruct (decide (targetType = Some "EDGE")) as [_|_]; [|simpl; lia].
      destruct (list_find _ (localEdges w)) as [[i e0]|]; simpl; lia.
  - destruct (decide (isNodeTarget targetType)) as [Ht|Ht].
    + destruct (list_find _ (localNodes w)) as [[i n]|] eqn:Hf; simpl; [|lia].
      apply list_find_Some in Hf as (Hi & _ & _).
      pose proof (factorCount_insert (localNodes w) i n
        (setData n (setCauses (data n)
           (attachEvidence env causeName
              (mkEvidence (uuid env) name description0) (causes (data n)))))
        Hi) as H.
      simpl in H. unfold attachEvidence in *. rewrite length_fmap in H. lia.
    + destruct (decide (targetType = Some "EDGE")) as [_|_]; [|simpl; lia].
      destruct (list_find _ (localEdges w)) as [[i e0]|]; simpl; lia.
  - lia.
Qed.

Lemma factorCount_executeTool_witness :
  factorCount
    (localNodes
       (executeTool Samples.env0
          (add_cause "people" (Some "NODE") "Turnover" None)
          Samples.initialWorking))
  = 1%nat.
Proof.
  apply (factorCount_executeTool Samples.env0
           (add_cause "people" (Some "NODE") "Turnover" None)
           Samples.initialWorking).
  apply (bool_decide_unpack _). vm_compute. exact I.
Defined.

(** ** The width of the side bar *)

Lemma sidebarStep_bounds (st : Sidebar) (ev : MouseEvent) :
  300 ≤ sidebarWidth st ≤ 800 →
  300 ≤ sidebarWidth (sidebarStep st ev) ≤ 800.
Proof.
  intros H. destruct ev as [|innerWidth clientX|]; simpl; [done| |].
  - destruct (isResizing st); [|done].
    destruct (decide (300 ≤ innerWidth - clientX ∧ innerWidth - clientX ≤ 800));
      simpl; lia.
  - by destruct (isResizing st).
Qed.

(** X23. Whatever the mouse does, the width of the side bar stays
    between 300 and 800; and it stays at its initial 450 as long as the
    mouse was not pressed on the handle. *)
Theorem sidebarWidth_within_bounds (evs : list MouseEvent) :
  let st := foldl sidebarStep initialSidebar evs in
  300 ≤ sidebarWidth st ≤ 800 ∧
  (Forall (λ ev, ev ≠ mouseDownOnHandle) evs → st = initialSidebar).
Proof.
  simpl. split.
  - assert (300 ≤ sidebarWidth initialSidebar ≤ 800) as H0 by (simpl; lia).
    revert H0. generalize initialSidebar.
    induction evs as [|ev evs IH]; intros st H0; [done|].
    simpl. by apply IH, sidebarStep_bounds.
  - induction evs as [|ev evs IH] using rev_ind; [done|].
    intros [H1 H2]%Forall_app. apply Forall_cons in H2 as [H2 _].
    rewrite foldl_app. simpl. rewrite (IH H1).
    destruct ev; [by destruct H2|reflexivity|reflexivity].
Qed.

(** ** More on the layout of a new node *)

Lemma moveProblem_ids (p : Node) (ns : list Node) :
  nodeIds (moveProblem p ns) = nodeIds ns.
Proof.
  unfold moveProblem, nodeIds.
  destruct (list_find _ ns) as [[i q]|] eqn:Hf; [|done].
  apply list_find_Some in Hf as (Hi & Hq & _).
  rewrite list_fmap_insert. simpl. rewrite <- Hq.
  apply list_insert_id. by rewrite list_lookup_fmap, Hi.
Qed.

Lemma placeNode_ids (env : Env) (ns : list Node) (es : list Edge) :
  ∃ added, nodeIds (placeNode env ns es).1.1 = nodeIds ns ++ added ∧
           (length added ≤ 1)%nat.
Proof.
  unfold placeNode.
  destruct (decide (targetSpineId (checkSlots ns es (spineNodes_of ns)) = ""))
    as [?|?];
    [destruct (list_find (λ n, data_type (data n) = PROBLEM) ns) as [[i p]|]|];
    simpl.
  - exists [node_id (newSpineNodeFor (spineNodes_of ns) p)].
    split; [|simpl; lia]. unfold nodeIds. rewrite fmap_app.
    change (node_id <$> moveProblem p ns) with (nodeIds (moveProblem p ns)).
    rewrite moveProblem_ids. reflexivity.
  - exists []. rewrite app_nil_r. split; [done|simpl; lia].
  - exists []. rewrite app_nil_r. split; [done|simpl; lia].
Qed.

Lemma addNodeFishbone_ids (env : Env)
    (argTitle argDescription desiredId : option string)
    (ns : list Node) (es : list Edge) :
  ∃ added,
    nodeIds (addNodeFishbone env argTitle argDescription desiredId ns es).1.1
    = nodeIds ns ++ added ∧
    (length added ≤ 2)%nat ∧
    (addNodeFishbone env argTitle argDescription desiredId ns es).2
    ∈ nodeIds ns ++ added.
Proof.
  unfold addNodeFishbone.
  destruct (match JS.truthy_value desiredId with
            | Some d => _ | None => _ end) as [d|] eqn:Hdup.
  - exists []. simpl. rewrite app_nil_r. split_and!; [done|lia|].
    destruct (JS.truthy_value desiredId) as [d'|]; [|done].
    destruct (list_find (λ n, node_id n = d') ns) as [[i n]|] eqn:Hf; [|done].
    injection Hdup as <-. by eapply (list_find_id_elem node_id).
  - destruct (placeNode_ids env ns es) as (added & Hids & Hlen).
    destruct (placeNode env ns es) as [[ns1 es1] pl]. simpl in *.
    eexists (added ++ [_]). unfold nodeIds in *.
    rewrite fmap_app, Hids, length_app. simpl.
    split_and!; [by rewrite app_assoc|lia|].
    rewrite app_assoc. apply elem_of_app. right. apply list_elem_of_here.
Qed.

(** X24. [addNodeFishbone] removes no node and changes no id: the ids
    of the nodes it was given come first in the ids of the nodes it
    returns, followed by one or two new ones at most.  The id it returns
    is the id of a node, so that an [add_cause] that aims at it in the
    same batch is applied. *)
Theorem addNodeFishbone_keeps_ids (env : Env)
    (argTitle argDescription desiredId : option string)
    (ns : list Node) (es : list Edge) :
  let ns' := (addNodeFishbone env argTitle argDescription desiredId ns es).1.1 in
  let es' := (addNodeFishbone env argTitle argDescription desiredId ns es).1.2 in
  let r := (addNodeFishbone env argTitle argDescription desiredId ns es).2 in
  nodeIds ns `prefix_of` nodeIds ns' ∧
  (length ns ≤ length ns' ≤ length ns + 2)%nat ∧
  r ∈ nodeIds ns' ∧
  ∀ log name d, applied (add_cause r (Some "NODE") name d) (mkWorking ns' es' log).
Proof.
  cbv zeta.
  destruct (addNodeFishbone_ids env argTitle argDescription desiredId ns es)
    as (added & Hids & Hlen & Hr).
  rewrite <- Hids in Hr.
  pose proof (f_equal length Hids) as Hl. unfold nodeIds in Hl.
  rewrite length_app, !length_fmap in Hl.
  split_and!.
  - rewrite Hids. by apply prefix_app_r.
  - lia.
  - lia.
  - done.
  - intros log name d. simpl. left. split; [by left|exact Hr].
Qed.

(** X25. The slot search goes from left to right: when some spine node
    has a free slot, the node is placed at one that no spine node with a
    free slot is to the left of, above it when nothing is above it yet
    and below it otherwise; when none has, no slot is chosen. *)
Theorem slot_search_leftmost (ns : list Node) (es : list Edge) :
  let p := checkSlots ns es (spineNodes_of ns) in
  (Forall (slotsFull ns es) (spineNodes_of ns) ∧
   p = mkPlacement "" (mkPos 0 0) top) ∨
  ∃ spine, spine ∈ spineNodes_of ns ∧
    (∀ s, s ∈ spineNodes_of ns → ¬ slotsFull ns es s →
          x (position spine) ≤ x (position s)) ∧
    ((topRibCount ns es (node_id spine) = 0%nat ∧ p = slotAbove spine) ∨
     (topRibCount ns es (node_id spine) ≠ 0%nat ∧
      bottomRibCount ns es (node_id spine) = 0%nat ∧ p = slotBelow spine)).
Proof.
  cbv zeta.
  destruct (checkSlots_spec ns es (spineNodes_of ns))
    as [[Hfull Hp]|(pre & spine & post & Hsplit & Hpre & Hcase)].
  - left. by split.
  - right. exists spine. split_and!.
    + rewrite Hsplit. apply elem_of_app. right. apply list_elem_of_here.
    + intros s Hs Hfree.
      pose proof (spineNodes_of_sorted ns) as Hsorted.
      rewrite Hsplit in Hs, Hsorted.
      apply elem_of_app in Hs as [Hs|Hs].
      { exfalso. apply Hfree. rewrite Forall_forall in Hpre. by apply Hpre. }
      apply elem_of_cons in Hs as [->|Hs]; [lia|].
      apply StronglySorted_app_1_r in Hsorted.
      apply StronglySorted_inv in Hsorted as [_ Hle].
      rewrite Forall_forall in Hle. by apply Hle.
    + destruct Hcase as [[Ht Hp]|(Ht & Hb & Hp)]; [left|right]; by rewrite Hp.
Qed.

(** ** Saving a model and importing it again *)

Lemma nodeValue_injectOnEdit (n : Node) :
  Snapshot.injectHandler (SavedModel.savedNode n)
  = Snapshot.Normal
      (SavedModel.nodeValue
         (match onEdit (data n) with
          | None =>
              setData n
                (mkData (data_id (data n)) (data_type (data n))
                        (title (data n)) (description (data n))
                        (causes (data n)) (Some handleUpdateNode_ref))
          | Some _ => n
          end)).
Proof.
  destruct n as [i t p [di dt tt [ds|] cs [[]|]]]; reflexivity.
Qed.

Lemma mapInject_savedNodes (ns : list Node) :
  Snapshot.mapInject (SavedModel.savedNode <$> ns)
  = Snapshot.Normal (SavedModel.nodeValue <$> injectOnEdit ns).
Proof.
  induction ns as [|n ns IH]; [done|].
  rewrite !fmap_cons.
  change (Snapshot.mapInject (SavedModel.savedNode n :: (SavedModel.savedNode <$> ns)))
    with (match Snapshot.injectHandler (SavedModel.savedNode n) with
          | Snapshot.Throw => Snapshot.Throw
          | Snapshot.Normal n' =>
              match Snapshot.mapInject (SavedModel.savedNode <$> ns) with
              | Snapshot.Throw => Snapshot.Throw
              | Snapshot.Normal r' => Snapshot.Normal (n' :: r')
              end
          end).
  by rewrite nodeValue_injectOnEdit, IH.
Qed.

(** X26. A file that holds what [handleSaveModel] writes for a
    document is imported without an error: the nodes of the store are
    the nodes of the document, each with its handler, the edges are its
    edges, and the message gives the number of its nodes. *)
Theorem save_then_import (JSON_parse : string → option Snapshot.JSON)
    (timestamp content : string) (doc : Document) (st : Snapshot.Store) :
  JSON_parse content = Some (SavedModel.savedModel timestamp doc) →
  Snapshot.handleFileChange JSON_parse (Some content) st =
  Snapshot.mkStore
    (SavedModel.nodeValue <$> injectOnEdit (nodes doc))
    (SavedModel.edgeValue <$> edges doc)
    (Snapshot.messages st ++
     ["Imported fishbone diagram with " +:+ pretty (length (nodes doc)) +:+
      " nodes."]).
Proof.
  intros Hparse. unfold Snapshot.handleFileChange, Snapshot.tryImport.
  rewrite Hparse. unfold SavedModel.savedModel.
  change (Snapshot.getProp (Snapshot.JObject ?ps) "nodes")
    with (Snapshot.Normal (Some (Snapshot.JArray (SavedModel.savedNode <$> nodes doc)))).
  cbn [Snapshot.isArray].
  change (Snapshot.getProp (Snapshot.JObject ?ps) "edges")
    with (Snapshot.Normal (Some (Snapshot.JArray (SavedModel.edgeValue <$> edges doc)))).
  cbn [Snapshot.isArray].
  rewrite mapInject_savedNodes, length_fmap. reflexivity.
Qed.

Lemma save_then_import_witness :
  Snapshot.handleFileChange
    (λ _, Some (SavedModel.savedModel "2024-01-01T00:00:00.000Z"
                  Constants.INITIAL_DOCUMENT))
    (Some "the text of the saved file") (Snapshot.mkStore [] [] []) =
  Snapshot.mkStore
    (SavedModel.nodeValue <$> injectOnEdit Constants.INITIAL_REACTFLOW_NODES)
    (SavedModel.edgeValue <$> Constants.INITIAL_REACTFLOW_EDGES)
    ["Imported fishbone diagram with 11 nodes."].
Proof.
  apply (save_then_import
           (λ _, Some (SavedModel.savedModel "2024-01-01T00:00:00.000Z"
                         Constants.INITIAL_DOCUMENT))
           "2024-01-01T00:00:00.000Z" "the text of the saved file"
           Constants.INITIAL_DOCUMENT (Snapshot.mkStore [] [] [])).
  reflexivity.
Defined.

(** ** Annotations *)

Lemma frame_insert {A B} (f : A → B) (l : list A) (i : nat) (a a' : A) :
  l !! i = Some a → f a' = f a → f <$> <[i := a']> l = f <$> l.
Proof.
  intros Hi Hf. rewrite list_fmap_insert, Hf.
  apply list_insert_id. by rewrite list_lookup_fmap, Hi.
Qed.

(** X28. An [update_node], an [add_cause], an [add_evidence] and an
    unknown tool move nothing: the nodes keep their number, order, ids,
    positions, kinds and handlers, and the edges their number, order,
    ids, ends, labels, styles and handles. *)
Theorem annotations_keep_layout (env : Env) (tool : ToolCall) (w : Working) :
  isAnnotation tool = true →
  nodeFrame <$> localNodes (executeTool env tool w) = nodeFrame <$> localNodes w ∧
  edgeFrame <$> localEdges (executeTool env tool w) = edgeFrame <$> localEdges w.
Proof.
  intros Ha. destruct tool; try discriminate; simpl.
  - destruct (list_find _ (localNodes w)) as [[i n]|] eqn:Hf; [|done].
    apply list_find_Some in Hf as (Hi & _ & _). simpl.
    split; [|done]. by apply (frame_insert nodeFrame _ i n).
  - destruct (decide (isNodeTarget targetType)) as [_|_].
    + destruct (list_find _ (localNodes w)) as [[i n]|] eqn:Hf; [|done].
      apply list_find_Some in Hf as (Hi & _ & _). simpl.
      split; [|done]. by apply (frame_insert nodeFrame _ i n).
    + destruct (decide (targetType = Some "EDGE")) as [_|_]; [|done].
      destruct (list_find _ (localEdges w)) as [[i e0]|] eqn:Hf; [|done].
      apply list_find_Some in Hf as (Hi & _ & _). simpl.
      split; [done|]. by apply (frame_insert edgeFrame _ i e0).
  - destruct (decide (isNodeTarget targetType)) as [_|_].
    + destruct (list_find _ (localNodes w)) as [[i n]|] eqn:Hf; [|done].
      apply list_find_Some in Hf as (Hi & _ & _). simpl.
      split; [|done]. by apply (frame_insert nodeFrame _ i n).
    + destruct (decide (targetType = Some "EDGE")) as [_|_]; [|done].
      destruct (list_find _ (localEdges w)) as [[i e0]|] eqn:Hf; [|done].
      apply list_find_Some in Hf as (Hi & _ & _). simpl.
      split; [done|]. by apply (frame_insert edgeFrame _ i e0).
  - done.
Qed.

Lemma annotations_keep_layout_witness :
  nodeFrame <$> localNodes
    (executeTool Samples.env0
       (add_evidence "people" None "vendor outage" "Ticket 42" None)
       Samples.factorsWorking)
  = nodeFrame <$> localNodes Samples.factorsWorking ∧
  edgeFrame <$> localEdges
    (executeTool Samples.env0
       (add_evidence "people" None "vendor outage" "Ticket 42" None)
       Samples.factorsWorking)
  = edgeFrame <$> localEdges Samples.factorsWorking.
Proof.
  apply (annotations_keep_layout Samples.env0
           (add_evidence "people" None "vendor outage" "Ticket 42" None)
           Samples.factorsWorking).
  reflexivity.
Defined.

Lemma list_find_insert_same_id (ns : list Node) (id : string) (i : nat)
    (n n' : Node) :
  list_find (λ m, node_id m = id) ns = Some (i, n) →
  node_id n' = id →
  list_find (λ m, node_id m = id) (<[i := n']> ns) = Some (i, n').
Proof.
  intros (Hi & Hid & Hlt)%list_find_Some Hn'.
  apply list_find_Some. split_and!.
  - apply list_lookup_insert_eq. by eapply lookup_lt_Some.
  - done.
  - intros j m Hj Hji. rewrite list_lookup_insert_ne in Hj by lia.
    by eapply Hlt.
Qed.

(** X29. An [add_cause] on a node followed by an [add_evidence] for the
    name of that cause, in whatever case, on the same node: the node
    ends with its earlier causes, each with the evidence when its name
    matches too, followed by the new cause with the evidence; the other
    nodes and the edges are as they were. *)
Theorem add_cause_then_add_evidence (env1 env2 : Env) (targetId name : string)
    (argDescription : option string) (causeName evName : string)
    (evDescription : option string) (w : Working) (i : nat) (n : Node) :
  list_find (λ m, node_id m = targetId) (localNodes w) = Some (i, n) →
  toLowerCase env2 name = toLowerCase env2 causeName →
  let ev := mkEvidence (uuid env2) evName evDescription in
  let w2 :=
    executeTool env2
      (add_evidence targetId (Some "NODE") causeName evName evDescription)
      (executeTool env1 (add_cause targetId (Some "NODE") name argDescription) w) in
  localNodes w2 =
    <[i := setData n
             (setCauses (data n)
                (attachEvidence env2 causeName ev (causes (data n)) ++
                 [mkCause (uuid env1) name argDescription [ev]]))]>
      (localNodes w) ∧
  localEdges w2 = localEdges w.
Proof.
  intros Hf Hname. cbv zeta.
  assert (isNodeTarget (Some "NODE")) as Ht by (by left).
  pose proof Hf as (Hi & Hid & _)%list_find_Some.
  cbn [executeTool].
  destruct (decide (isNodeTarget (Some "NODE"))) as [_|Hn]; [|by destruct Hn].
  rewrite Hf. cbn [localNodes localEdges].
  rewrite (list_find_insert_same_id _ _ _ _ _ Hf) by done.
  cbn [localNodes localEdges]. split; [|done].
  rewrite list_insert_insert_eq. f_equal. unfold setData, setCauses. simpl.
  do 2 f_equal. unfold attachEvidence. rewrite fmap_app. simpl.
  by rewrite decide_True by done.
Qed.

Lemma add_cause_then_add_evidence_witness :
  localNodes
    (executeTool Samples.env0
       (add_evidence "people" (Some "NODE") "TURNOVER" "Exit interviews" None)
       (executeTool Samples.env0
          (add_cause "people" (Some "NODE") "Turnover" None)
          Samples.initialWorking))
  = <[5%nat := mkNode "people" "processNode" (mkPos 250 50)
        (mkData "people" CATEGORY "People" (Some "Training, staffing, roles")
           [mkCause (uuid Samples.env0) "Turnover" None
              [mkEvidence (uuid Samples.env0) "Exit interviews" None]]
           None)]>
      Constants.INITIAL_REACTFLOW_NODES.
Proof.
  apply (add_cause_then_add_evidence Samples.env0 Samples.env0 "people"
           "Turnover" None "TURNOVER" "Exit interviews" None
           Samples.initialWorking 5
           (Constants.categoryNode "people" 250 50
              "People" "Training, staffing, roles")).
  - reflexivity.
  - reflexivity.
Defined.

(** ** Adding a node and deleting it *)

Lemma filter_all {A} (P : A → Prop) `{!∀ a, Decision (P a)} (l : list A) :
  Forall P l → filter P l = l.
Proof.
  induction 1 as [|a l Ha _ IH]; [done|].
  by rewrite filter_cons, decide_True, IH.
Qed.

(** X30. In a document whose edges end at its nodes and one spine node
    of which has a free slot, adding a node with an id that is new and
    deleting that node gives back the document: the node goes and its
    rib with it. *)
Theorem add_node_then_delete (env : Env) (argTitle argDescription : option string)
    (d : string) (doc : Document) :
  d ≠ "" → d ∉ nodeIds (nodes doc) → endpointsExist doc →
  targetSpineId (checkSlots (nodes doc) (edges doc) (spineNodes_of (nodes doc))) ≠ "" →
  handleDeleteNode d
    (applyBatch [(env, add_node argTitle argDescription (Some d))] doc).1
  = doc.
Proof.
  destruct doc as [ns es]. simpl. intros Hd Hfresh Hep Hslot.
  unfold handleDeleteNode, applyBatch, executeTools, startWorking. simpl.
  rewrite addNodeFishbone_fresh by done. unfold placeNode.
  destruct (decide (targetSpineId (checkSlots ns es (spineNodes_of ns)) = ""))
    as [|_]; [done|].
  destruct (decide (targetSpineId (checkSlots ns es (spineNodes_of ns)) = ""))
    as [|_]; [done|].
  simpl. f_equal.
  - rewrite filter_app, filter_cons, decide_False by (simpl; by intros H).
    rewrite filter_nil, app_nil_r.
    by apply (filter_id_absent node_id).
  - rewrite filter_app, filter_cons, decide_False by (simpl; by intros [H _]).
    rewrite filter_nil, app_nil_r.
    apply filter_all.
    eapply Forall_impl; [exact Hep|]. intros e [Hs Ht]. simpl in *.
    split; intros Heq; [rewrite Heq in Hs|rewrite Heq in Ht]; done.
Qed.

Lemma add_node_then_delete_witness :
  handleDeleteNode "vendors"
    (applyBatch [(Samples.env0, add_node (Some "Vendors") None (Some "vendors"))]
       Samples.oneSpineDocument).1
  = Samples.oneSpineDocument.
Proof.
  apply (add_node_then_delete Samples.env0 (Some "Vendors") None "vendors"
           Samples.oneSpineDocument).
  - discriminate.
  - apply (bool_decide_unpack _). vm_compute. exact I.
  - apply (bool_decide_unpack _). vm_compute. exact I.
  - discriminate.
Defined.
